(** * far.vim, [rplugin/python3/far/sources/shell.py]

    A shallow embedding of the shell search source: the chunked process
    runner [MultiProc], the [\C]/[\c] pattern scan and the two result
    loops of [search], with the properties of the specification stated
    over them. *)

From Stdlib Require Import String Ascii ZArith List Bool Lia Permutation.
Import ListNotations.
Open Scope Z_scope.

(** ** Python values used by the source *)

(** A Python [str] is a sequence of code points, a [bytes] object a
    sequence of integers in [0, 256). *)
Definition Str := list Z.
Definition Bytes := list Z.

Definition str (s : string) : Str :=
  map (fun a => Z.of_N (N_of_ascii a)) (list_ascii_of_string s).

Definition Str_eq_dec : forall a b : Str, {a = b} + {a <> b} :=
  list_eq_dec Z.eq_dec.

Definition Str_eqb (a b : Str) : bool :=
  if Str_eq_dec a b then true else false.

(** [x in l] for a list of strings. *)
Definition mem (x : Str) (l : list Str) : bool := existsb (Str_eqb x) l.

(** [l.remove(x)]: drops the first occurrence (the source only calls it
    under [x in l], so the [ValueError] case is not reached). *)
Fixpoint remove_first (x : Str) (l : list Str) : list Str :=
  match l with
  | [] => []
  | y :: r => if Str_eqb x y then r else y :: remove_first x r
  end.

(** The dynamically typed values the context and the item records hold. *)
Inductive pyval :=
| PNone
| PInt (n : Z)
| PStr (s : Str).

(** Python [==] between these values: an [int] never equals a [str]. *)
Definition py_eq (a b : pyval) : bool :=
  match a, b with
  | PNone, PNone => true
  | PInt x, PInt y => x =? y
  | PStr x, PStr y => Str_eqb x y
  | _, _ => false
  end.

(** The exceptions the modelled code can let escape. *)
Inductive exn :=
| KeyError | TypeError | ValueError | UnicodeDecodeError | UnicodeEncodeError
| UnboundLocalError.

(** ** UTF-8, as [str.encode('utf-8')] and [bytes.decode('utf-8')] *)

Definition is_continuation (b : Z) : bool := (128 <=? b) && (b <? 192).

Definition encode_cp (c : Z) : option Bytes :=
  if c <? 0 then None
  else if c <? 128 then Some [c]
  else if c <? 2048 then Some [192 + c / 64; 128 + c mod 64]
  else if c <? 65536 then
    if (55296 <=? c) && (c <? 57344) then None
    else Some [224 + c / 4096; 128 + (c / 64) mod 64; 128 + c mod 64]
  else if c <? 1114112 then
    Some [240 + c / 262144; 128 + (c / 4096) mod 64;
          128 + (c / 64) mod 64; 128 + c mod 64]
  else None.

Fixpoint utf8_encode (s : Str) : option Bytes :=
  match s with
  | [] => Some []
  | c :: r =>
      match encode_cp c, utf8_encode r with
      | Some b, Some br => Some (b ++ br)
      | _, _ => None
      end
  end.

(** Strict decoding: overlong forms, surrogates and values above
    U+10FFFF are refused ([None] stands for [UnicodeDecodeError]). *)
Fixpoint utf8_decode (bs : Bytes) : option Str :=
  match bs with
  | [] => Some []
  | b0 :: r0 =>
      if (0 <=? b0) && (b0 <? 128) then option_map (cons b0) (utf8_decode r0)
      else if (194 <=? b0) && (b0 <? 224) then
        match r0 with
        | b1 :: r1 =>
            if is_continuation b1
            then option_map (cons ((b0 - 192) * 64 + (b1 - 128))) (utf8_decode r1)
            else None
        | _ => None
        end
      else if (224 <=? b0) && (b0 <? 240) then
        match r0 with
        | b1 :: b2 :: r2 =>
            let c := (b0 - 224) * 4096 + (b1 - 128) * 64 + (b2 - 128) in
            if is_continuation b1 && is_continuation b2
               && (2048 <=? c) && negb ((55296 <=? c) && (c <? 57344))
            then option_map (cons c) (utf8_decode r2)
            else None
        | _ => None
        end
      else if (240 <=? b0) && (b0 <? 245) then
        match r0 with
        | b1 :: b2 :: b3 :: r3 =>
            let c := (b0 - 240) * 262144 + (b1 - 128) * 4096
                     + (b2 - 128) * 64 + (b3 - 128) in
            if is_continuation b1 && is_continuation b2 && is_continuation b3
               && (65536 <=? c) && (c <? 1114112)
            then option_map (cons c) (utf8_decode r3)
            else None
        | _ => None
        end
      else None
  end.

(** A byte offset [k] into [bs] is a character boundary when it does not
    point at a continuation byte (the end of the text is a boundary). *)
Definition is_char_boundary (bs : Bytes) (k : Z) : bool :=
  (0 <=? k) && (k <=? Z.of_nat (length bs)) &&
  match nth_error bs (Z.to_nat k) with
  | Some b => negb (is_continuation b)
  | None => true
  end.

(** ** String helpers *)

Definition len {A} (l : list A) : Z := Z.of_nat (length l).

(** [l[:stop]], with Python's reading of a negative [stop]. *)
Definition slice_to {A} (l : list A) (stop : Z) : list A :=
  if stop <? 0 then firstn (Z.to_nat (len l + stop)) l
  else firstn (Z.to_nat stop) l.

(** [str.isspace] on one code point. *)
Definition is_space (c : Z) : bool :=
  ((9 <=? c) && (c <=? 13)) || ((28 <=? c) && (c <=? 32))
  || (c =? 133) || (c =? 160) || (c =? 5760)
  || ((8192 <=? c) && (c <=? 8202))
  || (c =? 8232) || (c =? 8233) || (c =? 8239) || (c =? 8287) || (c =? 12288).

Fixpoint lstrip (s : Str) : Str :=
  match s with
  | c :: r => if is_space c then lstrip r else s
  | [] => []
  end.

Definition rstrip (s : Str) : Str := rev (lstrip (rev s)).

(** [s.split('\n')[0]] *)
Fixpoint first_line (s : Str) : Str :=
  match s with
  | [] => []
  | c :: r => if c =? 10 then [] else c :: first_line r
  end.

(** [re.split(':', s, n)]: at most [n] splits, so at most [n + 1] fields. *)
Fixpoint split_colon (n : nat) (s : Str) : list Str :=
  match n with
  | O => [s]
  | S n' =>
      (fix go (acc s : Str) {struct s} : list Str :=
         match s with
         | [] => [rev acc]
         | c :: r => if c =? 58 then rev acc :: split_colon n' r
                     else go (c :: acc) r
         end) [] s
  end.

Fixpoint is_prefix (p s : Str) : bool :=
  match p, s with
  | [], _ => true
  | _ :: _, [] => false
  | a :: p', b :: s' => (a =? b) && is_prefix p' s'
  end.

Fixpoint find_at (pat t : Str) (i : Z) : Z :=
  if is_prefix pat t then i
  else match t with
       | [] => -1
       | _ :: t' => find_at pat t' (i + 1)
       end.

(** [text.find(pat, start)] for [start >= 0]. *)
Definition str_find (text pat : Str) (start : Z) : Z :=
  if len text <? start then -1
  else find_at pat (skipn (Z.to_nat start) text) start.

(** [int(s)] on a [str]: surrounding white space, an optional sign, then
    ASCII decimal digits, single underscores allowed between digits.
    Anything else is a [ValueError]. *)
Definition is_digit (c : Z) : bool := (48 <=? c) && (c <=? 57).

Fixpoint digits_val (acc : Z) (after_digit : bool) (s : Str) : option Z :=
  match s with
  | [] => if after_digit then Some acc else None
  | c :: r =>
      if is_digit c then digits_val (acc * 10 + (c - 48)) true r
      else if (c =? 95) && after_digit then digits_val acc false r
      else None
  end.

Definition py_int (s : Str) : exn + Z :=
  let body := rstrip (lstrip s) in
  let '(neg, ds) := match body with
                    | c :: r => if c =? 45 then (true, r)
                                else if c =? 43 then (false, r)
                                else (false, body)
                    | [] => (false, [])
                    end in
  match ds with
  | c :: _ =>
      if is_digit c then
        match digits_val 0 false ds with
        | Some n => inr (if neg then - n else n)
        | None => inl ValueError
        end
      else inl ValueError
  | [] => inl ValueError
  end.

(** ** The [\C] / [\c] scan of [search] (pattern normalizer) *)

Module Normalizer.

Definition backslash : Z := 92.
Definition upper_C : Z := 67.
Definition lower_c : Z := 99.

Definition case_sensitive_flag : Str := str "--case-sensitive".
Definition ignore_case_flag : Str := str "--ignore-case".
Definition smart_case_flag : Str := str "--smart-case".

(** [if flag not in cmdargs: cmdargs.append(flag)] *)
Definition add_flag (flag : Str) (cmdargs : list Str) : list Str :=
  if mem flag cmdargs then cmdargs else cmdargs ++ [flag].

Definition flag_of (char : Z) : Str :=
  if char =? upper_C then case_sensitive_flag else ignore_case_flag.

(** The outer [while i < n] is [scan], on the suffix [pattern[i:]]; the
    inner [while] that counts consecutive backslashes is [run], whose
    [backslashes] is [i - start].  The pieces appended to [new_pattern]
    are returned joined, next to the flag list as the scan leaves it.
    After a run that is followed by another character the source
    [continue]s and the outer loop appends that character: [run] does
    both at once. *)
Fixpoint scan (pattern : Str) (cmdargs : list Str) : Str * list Str :=
  match pattern with
  | [] => ([], cmdargs)
  | c :: rest =>
      if c =? backslash then run 1 rest cmdargs
      else let '(out, args) := scan rest cmdargs in (c :: out, args)
  end
with run (backslashes : nat) (pattern : Str) (cmdargs : list Str)
  : Str * list Str :=
  match pattern with
  | [] => (repeat backslash backslashes, cmdargs)
  | c :: rest =>
      if c =? backslash then run (S backslashes) rest cmdargs
      else if (c =? upper_C) || (c =? lower_c) then
        if Nat.odd backslashes then
          let '(out, args) := scan rest (add_flag (flag_of c) cmdargs) in
          (repeat backslash (backslashes - 1) ++ out, args)
        else
          let '(out, args) := scan rest cmdargs in
          (repeat backslash backslashes ++ c :: out, args)
      else
        let '(out, args) := scan rest cmdargs in
        (repeat backslash backslashes ++ c :: out, args)
  end.

Definition is_rg (source : Str) : bool :=
  Str_eqb source (str "rg") || Str_eqb source (str "rgnvim").

(** Lines 122-164: the scan runs for the rg family only. *)
Definition normalize_pattern (source pattern : Str) (cmdargs : list Str)
  : Str * list Str :=
  if is_rg source then scan pattern cmdargs else (pattern, cmdargs).

(** Lines 169-186: the context's [case_sensitive] against the integers
    [1] and [0]. *)
Definition remove_if_present (flag : Str) (cmdargs : list Str) : list Str :=
  if mem flag cmdargs then remove_first flag cmdargs else cmdargs.

Definition case_flags (source : Str) (case_sensitive : pyval)
  (cmdargs : list Str) : list Str :=
  if is_rg source then
    if py_eq case_sensitive (PInt 1) then
      remove_if_present smart_case_flag
        (remove_if_present ignore_case_flag
           (add_flag case_sensitive_flag cmdargs))
    else if py_eq case_sensitive (PInt 0) then
      remove_if_present smart_case_flag
        (remove_if_present case_sensitive_flag
           (add_flag ignore_case_flag cmdargs))
    else cmdargs
  else cmdargs.

(** A flag list is only ever extended by [add_flag], which keeps the
    count of a flag already there and brings a new one to one. *)
Definition added_once (a b : list Str) : Prop :=
  incl a b /\
  forall f, count_occ Str_eq_dec b f = count_occ Str_eq_dec a f
            \/ (count_occ Str_eq_dec a f = 0 /\ count_occ Str_eq_dec b f = 1)%nat.

End Normalizer.

(** ** Child processes *)

(** [readline()] on a byte stream: up to and including the first line
    feed; the empty result is the end of the stream. *)
Fixpoint split_line (bs : Bytes) : Bytes * Bytes :=
  match bs with
  | [] => ([], [])
  | b :: r => if b =? 10 then ([b], r)
              else let '(l, r') := split_line r in (b :: l, r')
  end.

(** What the operating system makes of one command: the bytes the child
    writes to its two pipes, how many [poll()] calls still find it
    running, and its exit code. *)
Record Behaviour := {
  b_stdout : Bytes;
  b_stderr : Bytes;
  b_alive : nat;
  b_code : Z
}.

(** A [subprocess.Popen] object: its [args] and the unread part of its
    behaviour. *)
Record Popen := {
  args : list Str;
  p_stdout : Bytes;
  p_stderr : Bytes;
  p_alive : nat;
  p_code : Z
}.

Definition Popen_new (cmd : list Str) (b : Behaviour) : Popen :=
  {| args := cmd; p_stdout := b_stdout b; p_stderr := b_stderr b;
     p_alive := b_alive b; p_code := b_code b |}.

Definition Popen_readline (p : Popen) : Bytes * Popen :=
  let '(line, rest) := split_line (p_stdout p) in
  (line, {| args := args p; p_stdout := rest; p_stderr := p_stderr p;
            p_alive := p_alive p; p_code := p_code p |}).

Definition Popen_stderr_readline (p : Popen) : Bytes * Popen :=
  let '(line, rest) := split_line (p_stderr p) in
  (line, {| args := args p; p_stdout := p_stdout p; p_stderr := rest;
            p_alive := p_alive p; p_code := p_code p |}).

Definition Popen_stderr_read (p : Popen) : Bytes * Popen :=
  (p_stderr p, {| args := args p; p_stdout := p_stdout p; p_stderr := [];
                  p_alive := p_alive p; p_code := p_code p |}).

Definition Popen_poll (p : Popen) : option Z * Popen :=
  match p_alive p with
  | O => (Some (p_code p), p)
  | S n => (None, {| args := args p; p_stdout := p_stdout p;
                     p_stderr := p_stderr p; p_alive := n;
                     p_code := p_code p |})
  end.

(** [wait()] and [terminate()]: the child is no longer running. *)
Definition Popen_stop (p : Popen) : Popen :=
  {| args := args p; p_stdout := p_stdout p; p_stderr := p_stderr p;
     p_alive := O; p_code := p_code p |}.

(** ** [class MultiProc] *)

Record MultiProc := {
  cmd : list Str;
  files : list Str;
  cwd : Str;
  file_idx : nat;
  proc : option Popen;
  returncode : option Z;
  ARG_MAX : Z;
  all_stderr : Bytes
}.

Definition set_proc (self : MultiProc) (p : option Popen) : MultiProc :=
  {| cmd := cmd self; files := files self; cwd := cwd self;
     file_idx := file_idx self; proc := p; returncode := returncode self;
     ARG_MAX := ARG_MAX self; all_stderr := all_stderr self |}.

Definition set_all_stderr (self : MultiProc) (e : Bytes) : MultiProc :=
  {| cmd := cmd self; files := files self; cwd := cwd self;
     file_idx := file_idx self; proc := proc self;
     returncode := returncode self;
     ARG_MAX := ARG_MAX self; all_stderr := e |}.

(** [sum(len(arg) + 1 for arg in current_cmd)] *)
Definition cmd_len_of (current_cmd : list Str) : Z :=
  fold_right (fun arg acc => len arg + 1 + acc) 0 current_cmd.

(** The [while self.file_idx < len(self.files)] loop of [_next_proc], on
    [rest = self.files[self.file_idx:]]. *)
Fixpoint take_chunk (arg_max : Z) (rest : list Str) (cmd_len : Z)
  (chunk : list Str) (idx : nat) : list Str * nat :=
  match rest with
  | [] => (chunk, idx)
  | f :: rest' =>
      let arg_len := len f + 3 in
      if cmd_len + arg_len >? arg_max then
        match chunk with
        | [] => (chunk ++ [f], S idx)
        | _ :: _ => (chunk, idx)
        end
      else take_chunk arg_max rest' (cmd_len + arg_len) (chunk ++ [f]) (S idx)
  end.

Section Runner.

(** [subprocess.Popen(cmd, cwd=...)]: the environment decides what the
    started command does.  Starting a child is taken to succeed. *)
Variable run_cmd : list Str -> Str -> Behaviour.

Definition _next_proc (self : MultiProc) : MultiProc :=
  let self :=
    match proc self with
    | Some p =>
        let '(err, p) := Popen_stderr_read p in
        let self := match err with
                    | [] => self
                    | _ :: _ => set_all_stderr self (all_stderr self ++ err)
                    end in
        set_proc self (Some (Popen_stop p))
    | None => self
    end in
  if (length (files self) <=? file_idx self)%nat then
    {| cmd := cmd self; files := files self; cwd := cwd self;
       file_idx := file_idx self; proc := None; returncode := Some 0;
       ARG_MAX := ARG_MAX self; all_stderr := all_stderr self |}
  else
    let current_cmd := cmd self in
    let cmd_len := cmd_len_of current_cmd in
    let '(chunk, idx) :=
      take_chunk (ARG_MAX self) (skipn (file_idx self) (files self))
                 cmd_len [] (file_idx self) in
    let current_cmd := current_cmd ++ chunk in
    {| cmd := cmd self; files := files self; cwd := cwd self;
       file_idx := idx;
       proc := Some (Popen_new current_cmd (run_cmd current_cmd (cwd self)));
       returncode := returncode self;
       ARG_MAX := ARG_MAX self; all_stderr := all_stderr self |}.

(** [__init__], with the budget it stores in [self.ARG_MAX] as an
    argument; the source's constructor is [MultiProc_init]. *)
Definition init_with (arg_max : Z) (cmd files : list Str) (cwd : Str)
  : MultiProc :=
  _next_proc
    {| cmd := cmd; files := files; cwd := cwd; file_idx := O; proc := None;
       returncode := None; ARG_MAX := arg_max; all_stderr := [] |}.

Definition MultiProc_init := init_with 30000.

Definition poll (self : MultiProc) : option Z * MultiProc :=
  let '(running, self) :=
    match proc self with
    | Some p =>
        let '(r, p) := Popen_poll p in
        (match r with None => true | Some _ => false end,
         set_proc self (Some p))
    | None => (false, self)
    end in
  if running then (None, self)
  else if (length (files self) <=? file_idx self)%nat
          && match proc self with None => true | Some _ => false end
       then (returncode self, self)
       else (None, self).

(** [self.stderr]: a fresh [io.BytesIO(self.all_stderr)] at each access,
    so that [stderr.readline()] reads its first line and consumes
    nothing. *)
Definition stderr_readline (self : MultiProc) : Bytes * MultiProc :=
  (fst (split_line (all_stderr self)), self).

(** [readline] calls itself after [_next_proc]; [fuel] bounds the depth
    of that recursion and [None] is its exhaustion. *)
Fixpoint readline_fuel (fuel : nat) (self : MultiProc)
  : option (Bytes * MultiProc) :=
  match fuel with
  | O => None
  | S fuel' =>
      match proc self with
      | None => Some ([], self)
      | Some p =>
          let '(line, p) := Popen_readline p in
          let self := set_proc self (Some p) in
          match line with
          | [] => readline_fuel fuel' (_next_proc self)
          | _ :: _ => Some (line, self)
          end
      end
  end.

Definition readline (self : MultiProc) : option (Bytes * MultiProc) :=
  readline_fuel (S (S (length (files self) - file_idx self))) self.

Definition terminate (self : MultiProc) : MultiProc :=
  match proc self with
  | Some p => set_proc self (Some (Popen_stop p))
  | None => self
  end.

(** The operations a caller has on a runner, and the states they reach
    from the constructor. *)
Inductive op_step : MultiProc -> MultiProc -> Prop :=
| step_readline s line s' : readline s = Some (line, s') -> op_step s s'
| step_poll s : op_step s (snd (poll s))
| step_stderr s : op_step s (snd (stderr_readline s))
| step_terminate s : op_step s (terminate s).

Inductive reachable : MultiProc -> Prop :=
| reach_init arg_max c fs d : reachable (init_with arg_max c fs d)
| reach_step s s' : reachable s -> op_step s s' -> reachable s'.

(** [n] successive [readline()] calls: the lines they return. *)
Fixpoint readlines (n : nat) (self : MultiProc) : option (list Bytes) :=
  match n with
  | O => Some []
  | S n' =>
      match readline self with
      | Some (line, self') => option_map (cons line) (readlines n' self')
      | None => None
      end
  end.

(** The chunks of the children started from [self] on, one per
    [_next_proc], which is what [readline] runs each time the output of
    the current child ends.  A chunk is what the child's command line
    holds after the base command. *)
Fixpoint spawned (fuel : nat) (self : MultiProc) : option (list (list Str)) :=
  match proc self with
  | None => Some []
  | Some p =>
      match fuel with
      | O => None
      | S fuel' =>
          option_map (cons (skipn (length (cmd self)) (args p)))
                     (spawned fuel' (_next_proc self))
      end
  end.

Definition chunks (arg_max : Z) (cmd files : list Str) (cwd : Str)
  : option (list (list Str)) :=
  spawned (length files) (init_with arg_max cmd files cwd).

(** The length [_next_proc] accounts for a command line with [chunk]. *)
Definition cost (chunk : list Str) : Z :=
  fold_right (fun f acc => len f + 3 + acc) 0 chunk.

Definition chunk_cost (cmd chunk : list Str) : Z :=
  cmd_len_of cmd + cost chunk.

Definition within_budget (arg_max : Z) (cmd chunk : list Str) : Prop :=
  chunk_cost cmd chunk <= arg_max.

(** Chunks that [_next_proc] can produce for a base command [c] under a
    budget [B]: not empty, and within the budget when they hold more than
    one file. *)
Definition good_chunk (B : Z) (c chunk : list Str) : Prop :=
  chunk <> [] /\ ((1 < length chunk)%nat -> within_budget B c chunk).

(** The runner keeps this invariant: without an active child the cursor
    is at the end of the file list and the status is success. *)
Definition exhausted_ok (s : MultiProc) : Prop :=
  proc s = None ->
  returncode s = Some 0 /\ (length (files s) <= file_idx s)%nat.

(** The chunking property as the specification words it: the chunks
    concatenate to the file list, none is empty, and all but possibly
    the first are within the budget. *)
Definition chunking_as_specified (arg_max : Z) (cmd files : list Str)
  (cwd : Str) : Prop :=
  exists cs, chunks arg_max cmd files cwd = Some cs
             /\ concat cs = files
             /\ Forall (fun c => c <> []) cs
             /\ Forall (within_budget arg_max cmd) (tl cs).

End Runner.

(** An environment for examples: every command prints its arguments, one
    per line, writes [stderr_text] to its error stream and exits with
    [code]. *)
Definition echo_env (stderr_text : Bytes) (code : Z)
  (cmd : list Str) (_ : Str) : Behaviour :=
  {| b_stdout := concat (map (fun a => a ++ [10]) cmd);
     b_stderr := stderr_text; b_alive := O; b_code := code |}.

(** ** What [search] sees of a process *)

(** [search] drives either a [subprocess.Popen] or a [MultiProc] through
    the same four operations. *)
Class Process (P : Type) := {
  stdout_readline : P -> Bytes * P;
  stderr_line : P -> Bytes * P;
  proc_poll : P -> option Z * P;
  proc_terminate : P -> P
}.

#[export] Instance Popen_Process : Process Popen := {
  stdout_readline := Popen_readline;
  stderr_line := Popen_stderr_readline;
  proc_poll := Popen_poll;
  proc_terminate := Popen_stop
}.

(** [readline] never runs out of the fuel it is given
    ([readline_total]), so the second branch is not taken. *)
Definition MultiProc_readline (run_cmd : list Str -> Str -> Behaviour)
  (self : MultiProc) : Bytes * MultiProc :=
  match readline run_cmd self with
  | Some r => r
  | None => ([], self)
  end.

Definition MultiProc_Process (run_cmd : list Str -> Str -> Behaviour)
  : Process MultiProc := {|
  stdout_readline := MultiProc_readline run_cmd;
  stderr_line := stderr_readline;
  proc_poll := poll;
  proc_terminate := terminate
|}.

(** ** Values of [search] *)

(** What [json.loads] returns (numbers are integers here). *)
#[warnings="-register-all"]
Inductive json :=
| JNull
| JBool (b : bool)
| JInt (n : Z)
| JStr (s : Str)
| JList (l : list json)
| JDict (d : list (Str * json)).

Fixpoint lookup {A} (k : Str) (d : list (Str * A)) : option A :=
  match d with
  | [] => None
  | (k', v) :: r => if Str_eqb k k' then Some v else lookup k r
  end.

(** [j[k]] with a string key: [KeyError] on a dict without the key,
    [TypeError] on anything that is not a dict. *)
Definition getitem (j : json) (k : string) : exn + json :=
  match j with
  | JDict d => match lookup (str k) d with
               | Some v => inr v
               | None => inl KeyError
               end
  | _ => inl TypeError
  end.

(** The leaves [search] reads are used at the type rg writes them with
    (strings for the path, the line text and the match, integers for the
    line number and the start offset); a leaf of another JSON type is a
    [TypeError] here. *)
Definition as_str (j : json) : exn + Str :=
  match j with JStr s => inr s | _ => inl TypeError end.

Definition as_int (j : json) : exn + Z :=
  match j with JInt n => inr n | _ => inl TypeError end.

(** An item record: a Python dict in insertion order. *)
Definition dict := list (string * pyval).

Fixpoint dict_set (d : dict) (k : string) (v : pyval) : dict :=
  match d with
  | [] => [(k, v)]
  | (k', v') :: r => if String.eqb k k' then (k, v) :: r
                     else (k', v') :: dict_set r k v
  end.

Fixpoint dict_get (d : dict) (k : string) : option pyval :=
  match d with
  | [] => None
  | (k', v) :: r => if String.eqb k k' then Some v else dict_get r k
  end.

Definition has_field (d : dict) (k : string) : bool :=
  match dict_get d k with Some _ => true | None => false end.

(** [{'fname': ..., 'items': [...]}] *)
Record file_ctx := {
  fname : Str;
  items : list dict
}.

(** [result]: file name to [file_ctx], in insertion order. *)
Definition Result := list (Str * file_ctx).

Definition in_result (file_name : Str) (result : Result) : bool :=
  match lookup file_name result with Some _ => true | None => false end.

(** [if not file_name in result: result[file_name] = {...}] *)
Definition ensure_file (file_name : Str) (result : Result) : Result :=
  if in_result file_name result then result
  else result ++ [(file_name, {| fname := file_name; items := [] |})].

(** [result[file_name]['items'].append(item)]: the dict of the file is
    shared between [result] and the local [file_ctx], so the append shows
    in [result]. *)
Fixpoint append_item (file_name : Str) (item : dict) (result : Result)
  : Result :=
  match result with
  | [] => []
  | (k, fc) :: r =>
      if Str_eqb file_name k
      then (k, {| fname := fname fc; items := items fc ++ [item] |}) :: r
      else (k, fc) :: append_item file_name item r
  end.

(** [result.values()], the file groups written to the items file. *)
Definition values (result : Result) : list file_ctx := map snd result.

(** Every record of a list of file groups, with the file it is filed
    under. *)
Definition records (groups : list file_ctx) : list (Str * dict) :=
  flat_map (fun fc => map (fun it => (fname fc, it)) (items fc)) groups.

(** Several appends to the group of one file, in order. *)
Definition append_items (file_name : Str) (its : list dict) (result : Result)
  : Result :=
  fold_left (fun r it => append_item file_name it r) its result.

(** Every group is filed under its own name and holds a record. *)
Definition groups_ok (result : Result) : Prop :=
  Forall (fun e => fname (snd e) = fst e /\ items (snd e) <> []) result.

(** A record made by the submatch expansion of a line [text], whose
    UTF-8 encoding is [bs]: the fields [text], [lnum] and [cnum], the
    column a 1-based byte offset on a character boundary of [bs]. *)
Definition expanded_item (text : Str) (lnum : Z) (bs : Bytes) (it : dict)
  : Prop :=
  exists c,
    it = [("text"%string, PStr text); ("lnum"%string, PInt lnum);
          ("cnum"%string, PInt c)]
    /\ 1 <= c <= len bs + 1
    /\ is_char_boundary bs (c - 1) = true.

(** Filing records one after the other, each under its file. *)
Definition add_all (recs : list (Str * dict)) (r : Result) : Result :=
  fold_left
    (fun r x => append_item (fst x) (snd x) (ensure_file (fst x) r)) recs r.

(** The fields of an item record of the structured-record loop, and of
    the colon-delimited loop. *)
Definition rg_item (it : dict) : Prop :=
  exists l c t m,
    it = [("lnum"%string, PInt l); ("cnum"%string, PInt c);
          ("text"%string, PStr t); ("match"%string, PStr m)].

Definition colon_item (it : dict) : Prop :=
  exists t l c,
    it = [("text"%string, PStr t); ("lnum"%string, PInt l);
          ("cnum"%string, PInt c)].

Definition item_idx := (Str * Z * Z)%type.

Definition item_idx_eqb (a b : item_idx) : bool :=
  let '(f1, l1, c1) := a in
  let '(f2, l2, c2) := b in
  Str_eqb f1 f2 && (l1 =? l2) && (c1 =? c2).

(** The identity key of a record, read back from its fields. *)
Definition key_of (r : Str * dict) : option item_idx :=
  match dict_get (snd r) "lnum", dict_get (snd r) "cnum" with
  | Some (PInt l), Some (PInt c) => Some (fst r, l, c)
  | _, _ => None
  end.

(** The records [recs] were filed while the list of seen keys went from
    [l] to [l']: their keys are pairwise distinct, new with respect to
    [l] and recorded in [l']. *)
Definition tracked (l : list item_idx) (recs : list (Str * dict))
  (l' : list item_idx) : Prop :=
  exists ks, map key_of recs = map Some ks
             /\ NoDup ks
             /\ forall k, In k ks -> ~ In k l /\ In k l'.

Definition seen_rel (deduped : bool) (recs : list (Str * dict))
  (o o' : option (list item_idx)) : Prop :=
  match o, o' with
  | None, None => True
  | Some l, Some l' => incl l l' /\ (deduped = true -> tracked l recs l')
  | _, _ => False
  end.

(** The identity keys of the records of a result are pairwise
    distinct. *)
Definition unique_keys (groups : list file_ctx) : Prop :=
  exists ks, map key_of (records groups) = map Some ks /\ NoDup ks.

(** All four fields, as the specification lists them. *)
Definition four_fields (it : dict) : Prop :=
  has_field it "lnum" = true /\ has_field it "cnum" = true
  /\ has_field it "text" = true /\ has_field it "match" = true.

(** What [search] returns: [{'error': ...}], or the warning and the
    lines written to the items file, one [file_ctx] each. *)
Inductive py_result :=
| Error (error : Str)
| Items (warning : Str) (items_file : list file_ctx).

(** The context and the arguments the two loops read. *)
Record Ctx := {
  source : Str;
  pattern : Str;
  regex : pyval;
  case_sensitive : pyval;
  ctx_limit : Z;
  range_ : Z * Z;
  submatch_type : pyval;
  max_columns : Z
}.

(** The shape of the item records of a source, and whether all of them
    pass the [one_file_result] guard. *)
Definition item_shape (ctx : Ctx) : dict -> Prop :=
  if Normalizer.is_rg (source ctx) then rg_item else colon_item.

Definition all_deduped (ctx : Ctx) : bool :=
  Normalizer.is_rg (source ctx)
  || negb (py_eq (submatch_type ctx) (PStr (str "first"))).

(** The variables of [search] that change while it reads the output.
    [one_file_result] is the global of that name when there is one: the
    source tests for it with ['one_file_result' in globals()], and the
    module itself never binds it. *)
Record State (P : Type) := {
  limit : Z;
  result : Result;
  one_file_result : option (list item_idx);
  the_proc : P
}.
Arguments limit {P}.
Arguments result {P}.
Arguments one_file_result {P}.
Arguments the_proc {P}.

(** How one pass through a loop body ends. *)
Inductive step (S : Type) :=
| Continue (s : S)
| Break (s : S)
| Return (r : py_result) (s : S)
| Raise (e : exn) (s : S).
Arguments Continue {S}.
Arguments Break {S}.
Arguments Return {S}.
Arguments Raise {S}.

(** ** The two loops of [search] *)

Section Search.

(** Library functions [search] calls: [str.lower], [re.compile] (with or
    without [re.IGNORECASE]; the left side is the message of the
    exception), [Pattern.finditer(text, pos)] as the starts of the spans
    it yields, and [json.loads] ([None] is [JSONDecodeError]). *)
Variable lower : Str -> Str.
Context {Regex : Type}.
Variable re_compile : Str -> bool -> Str + Regex.
Variable finditer : Regex -> Str -> Z -> list Z.
Variable json_loads : Str -> option json.

Context {P : Type} {process_P : Process P}.

Definition St := State P.

Definition set_the_proc (st : St) (p : P) : St :=
  {| limit := limit st; result := result st;
     one_file_result := one_file_result st; the_proc := p |}.

(** Lines 307-318 and 406-417: the line read is empty. *)
Definition on_empty_line (st : St) : step St :=
  let after_err :=
    if (length (result st) =? 0)%nat then
      let '(err, p) := stderr_line (the_proc st) in
      let st := set_the_proc st p in
      match err with
      | _ :: _ =>
          match utf8_decode err with
          | Some err => Return (Error err) st
          | None => Raise UnicodeDecodeError st
          end
      | [] => Continue st
      end
    else Continue st in
  match after_err with
  | Continue st =>
      let '(code, p) := proc_poll (the_proc st) in
      let st := set_the_proc st p in
      match code with
      | Some _ => Break st
      | None => Continue st
      end
  | other => other
  end.

(** The [one_file_result] guard of lines 359-363 and 440-444: [None]
    when the record is a repeat and is to be skipped. *)
Definition dedup (idx : item_idx) (seen : option (list item_idx))
  : option (option (list item_idx)) :=
  match seen with
  | Some l => if existsb (item_idx_eqb idx) l then None
              else Some (Some (l ++ [idx]))
  | None => Some None
  end.

Definition out_of_range (range_ : Z * Z) (lnum : Z) : bool :=
  (negb (fst range_ =? -1) && (fst range_ >? lnum))
  || (negb (snd range_ =? -1) && (snd range_ <? lnum)).

(** Lines 353-383: the [for submatch in data['submatches']] loop. *)
Fixpoint rg_submatches (ctx : Ctx) (file_name : Str) (lnum : Z) (text : Str)
  (submatches : list json) (st : St) : exn + St :=
  match submatches with
  | [] => inr st
  | submatch :: rest =>
      match getitem submatch "match" with
      | inl e => inl e
      | inr m =>
      match getitem m "text" with
      | inl e => inl e
      | inr m =>
      match as_str m with
      | inl e => inl e
      | inr match_ =>
      match getitem submatch "start" with
      | inl e => inl e
      | inr start =>
      match as_int start with
      | inl e => inl e
      | inr start =>
          let cnum := start + 1 in
          let idx := (file_name, lnum, cnum) in
          match dedup idx (one_file_result st) with
          | None => rg_submatches ctx file_name lnum text rest st
          | Some seen =>
              if out_of_range (range_ ctx) lnum then
                rg_submatches ctx file_name lnum text rest
                  {| limit := limit st; result := result st;
                     one_file_result := seen; the_proc := the_proc st |}
              else
                let item_ctx : dict :=
                  [("lnum"%string, PInt lnum); ("cnum"%string, PInt cnum);
                   ("text"%string, PStr text);
                   ("match"%string, PStr match_)] in
                rg_submatches ctx file_name lnum text rest
                  {| limit := limit st - 1;
                     result := append_item file_name item_ctx
                                 (ensure_file file_name (result st));
                     one_file_result := seen; the_proc := the_proc st |}
          end
      end end end end end
  end.

(** [for submatch in data['submatches']] iterates a list; an empty
    string or dict gives no iteration, a non-empty one gives strings,
    on which [submatch['match']] is a [TypeError], as is iterating
    anything else. *)
Definition iter_submatches (j : json) : exn + list json :=
  match j with
  | JList l => inr l
  | JStr [] => inr []
  | JDict [] => inr []
  | _ => inl TypeError
  end.

(** Lines 332-383: a record of type ['match']. *)
Definition rg_match (ctx : Ctx) (item : json) (st : St) : step St :=
  match getitem item "data" with
  | inl e => Raise e st
  | inr data =>
  match getitem data "path" with
  | inl e => Raise e st
  | inr path =>
  match getitem path "text" with
  | inl e => Raise e st
  | inr file_name =>
  match as_str file_name with
  | inl e => Raise e st
  | inr file_name =>
  match getitem data "line_number" with
  | inl e => Raise e st
  | inr lnum =>
  match as_int lnum with
  | inl e => Raise e st
  | inr lnum =>
      (* try: data['lines']['text'] / except KeyError: data['lines']['bytes']
         / except: continue *)
      let text :=
        match getitem data "lines" with
        | inl e => inl (Raise e st)
        | inr lines =>
            match getitem lines "text" with
            | inr t => inr t
            | inl KeyError =>
                match getitem lines "bytes" with
                | inr t => inr t
                | inl e => inl (Raise e st)
                end
            | inl _ => inl (Continue st)
            end
        end in
      match text with
      | inl s => s
      | inr text =>
      match as_str text with
      | inl e => Raise e st
      | inr text =>
          if len text >? max_columns ctx then Continue st
          else
            let text := rstrip (first_line text) in
            match getitem data "submatches" with
            | inl e => Raise e st
            | inr subs =>
            match iter_submatches subs with
            | inl e => Raise e st
            | inr subs =>
                match rg_submatches ctx file_name lnum text subs st with
                | inl e => Raise e st
                | inr st => Continue st
                end
            end end
      end end
  end end end end end end.

(** Lines 298-383: the body of the [while limit > 0] of the rg family.
    The handler of [JSONDecodeError] adds the exception to a string,
    which is itself a [TypeError]. *)
Definition rg_iter (ctx : Ctx) (st : St) : step St :=
  let '(line, p) := stdout_readline (the_proc st) in
  let st := set_the_proc st p in
  match utf8_decode line with
  | None => Continue st
  | Some line =>
      match rstrip line with
      | [] => on_empty_line st
      | line =>
          match json_loads line with
          | None => Raise TypeError st
          | Some item =>
              match item with
              | JDict d =>
                  match lookup (str "type") d with
                  | None => Continue st
                  | Some (JStr ty) =>
                      if Str_eqb ty (str "match") then rg_match ctx item st
                      else Continue st
                  | Some _ => Continue st
                  end
              | _ => Continue st
              end
          end
      end
  end.

(** Lines 472-475: where the literal search finds the pattern next. *)
Definition next_occurrence (ctx : Ctx) (text : Str) (move_cnum : Z) : Z :=
  if py_eq (case_sensitive ctx) (PStr (str "0"))
  then str_find (lower text) (lower (pattern ctx)) move_cnum
  else str_find text (pattern ctx) move_cnum.

(** The string that search runs over. *)
Definition haystack (ctx : Ctx) (text : Str) : Str :=
  if py_eq (case_sensitive ctx) (PStr (str "0")) then lower text else text.

(** Lines 468-484: the [while True] of the literal submatch search.
    Every pass moves [move_cnum] forward, [fuel] bounds the passes and
    [None] is its exhaustion. *)
Fixpoint literal_loop (fuel : nat) (ctx : Ctx) (file_name text : Str)
  (lnum move_cnum : Z) (st : St) : option (exn + St) :=
  match fuel with
  | O => None
  | S fuel' =>
      let next_item_ctx : dict :=
        dict_set (dict_set [] "text" (PStr text)) "lnum" (PInt lnum) in
      let next_char_num := next_occurrence ctx text move_cnum in
      if next_char_num =? -1 then Some (inr st)
      else
        let move_cnum := next_char_num + 1 in
        let prefix := slice_to text next_char_num in
        match utf8_encode prefix with
        | None => Some (inl UnicodeEncodeError)
        | Some b =>
            let next_item_ctx := dict_set next_item_ctx "cnum" (PInt (len b + 1)) in
            let st : St :=
              {| limit := limit st - 1;
                 result := append_item file_name next_item_ctx (result st);
                 one_file_result := one_file_result st;
                 the_proc := the_proc st |} in
            if limit st <=? 0 then Some (inr st)
            else literal_loop fuel' ctx file_name text lnum move_cnum st
        end
  end.

(** Lines 486-495: [for cp in cpat.finditer(text, move_cnum)], on the
    starts of the spans. *)
Fixpoint regex_loop (file_name text : Str) (lnum : Z) (starts : list Z)
  (st : St) : exn + St :=
  match starts with
  | [] => inr st
  | start :: rest =>
      let next_item_ctx : dict :=
        dict_set (dict_set [] "text" (PStr text)) "lnum" (PInt lnum) in
      let prefix := slice_to text start in
      match utf8_encode prefix with
      | None => inl UnicodeEncodeError
      | Some b =>
          let next_item_ctx := dict_set next_item_ctx "cnum" (PInt (len b + 1)) in
          let st : St :=
            {| limit := limit st - 1;
               result := append_item file_name next_item_ctx (result st);
               one_file_result := one_file_result st;
               the_proc := the_proc st |} in
          if limit st <=? 0 then inr st
          else regex_loop file_name text lnum rest st
      end
  end.

(** Lines 461-495: the submatch expansion after the primary record of a
    line.  [cpat] is the compiled pattern when line 390 or 392 bound
    it. *)
Definition expand (ctx : Ctx) (cpat : option Regex) (file_name text : Str)
  (lnum cnum : Z) (st : St) : option (exn + St) :=
  let byte_num := cnum in
  match utf8_encode text with
  | None => Some (inl UnicodeEncodeError)
  | Some b =>
      match utf8_decode (slice_to b (byte_num - 1)) with
      | None => Some (inl UnicodeDecodeError)
      | Some s =>
          let char_num := len s in
          let move_cnum := char_num + 1 in
          if py_eq (regex ctx) (PStr (str "0")) then
            literal_loop
              (2 + length text + length (lower text))
              ctx file_name text lnum move_cnum st
          else
            match cpat with
            | Some cpat =>
                Some (regex_loop file_name text lnum
                        (finditer cpat text move_cnum) st)
            | None => Some (inl UnboundLocalError)
            end
      end
  end.

(** Lines 397-495: the body of the [while limit > 0] of the other
    sources. *)
Definition colon_iter (ctx : Ctx) (cpat : option Regex) (st : St)
  : option (step St) :=
  let '(line, p) := stdout_readline (the_proc st) in
  let st := set_the_proc st p in
  match utf8_decode line with
  | None => Some (Continue st)
  | Some line =>
      match rstrip line with
      | [] => Some (on_empty_line st)
      | line =>
          match split_colon 3 line with
          | [file_name; lnum; cnum; text] =>
              match py_int lnum with
              | inl e => Some (Raise e st)
              | inr lnum =>
              match py_int cnum with
              | inl e => Some (Raise e st)
              | inr cnum =>
                  if out_of_range (range_ ctx) lnum then Some (Continue st)
                  else if len text >? max_columns ctx then Some (Continue st)
                  else
                    match dedup (file_name, lnum, cnum) (one_file_result st) with
                    | None => Some (Continue st)
                    | Some seen =>
                        let item_ctx : dict :=
                          dict_set
                            (dict_set (dict_set [] "text" (PStr text))
                                      "lnum" (PInt lnum))
                            "cnum" (PInt cnum) in
                        let st : St :=
                          {| limit := limit st - 1;
                             result := append_item file_name item_ctx
                                         (ensure_file file_name (result st));
                             one_file_result := seen;
                             the_proc := the_proc st |} in
                        if py_eq (submatch_type ctx) (PStr (str "first")) then
                          match expand ctx cpat file_name text lnum cnum st with
                          | None => None
                          | Some (inl e) => Some (Raise e st)
                          | Some (inr st) => Some (Continue st)
                          end
                        else Some (Continue st)
                    end
              end end
          | _ => Some (Continue st)
          end
      end
  end.

(** [while limit > 0: body].  [fuel] bounds the passes; the loop of the
    source has no bound of its own while the process neither writes nor
    ends. *)
Fixpoint while_limit (body : St -> option (step St)) (fuel : nat) (st : St)
  : option (step St) :=
  match fuel with
  | O => None
  | S fuel' =>
      if limit st >? 0 then
        match body st with
        | None => None
        | Some (Continue st) => while_limit body fuel' st
        | Some other => Some other
        end
      else Some (Break st)
  end.

(** Lines 386-394: the pattern is compiled before the loop when the
    submatch strategy is ['first'] and [regex] is not ['0']. *)
Definition compile_cpat (ctx : Ctx) : Str + option Regex :=
  if py_eq (submatch_type ctx) (PStr (str "first")) then
    if negb (py_eq (regex ctx) (PStr (str "0"))) then
      match re_compile (pattern ctx)
                       (py_eq (case_sensitive ctx) (PStr (str "0"))) with
      | inl e => inl (str "invalid pattern: " ++ e)
      | inr r => inr (Some r)
      end
    else inr None
  else inr None.

(** [search] from line 292 on, the process started: [warning] is what
    the glob stage left in [final_result], [seen] the binding of
    [one_file_result].  The result is how the function ends, with the
    state it leaves: [Break] stands for the normal end of a loop and is
    turned into the returned [Items]. *)
Definition search (fuel : nat) (ctx : Ctx) (warning : Str)
  (seen : option (list item_idx)) (p : P) : option (step St) :=
  let st0 : St :=
    {| limit := ctx_limit ctx; result := []; one_file_result := seen;
       the_proc := p |} in
  let ended :=
    if Normalizer.is_rg (source ctx) then
      while_limit (fun st => Some (rg_iter ctx st)) fuel st0
    else
      match compile_cpat ctx with
      | inl e => Some (Return (Error e) st0)
      | inr cpat => while_limit (colon_iter ctx cpat) fuel st0
      end in
  match ended with
  | Some (Break st) | Some (Continue st) =>
      let st := set_the_proc st (proc_terminate (the_proc st)) in
      Some (Return (Items warning (values (result st))) st)
  | other => other
  end.

(** [st'] is [st] after the records [its] were appended to the group
    of [file_name], each taking one from the limit. *)
Definition appended (file_name : Str) (its : list dict) (st st' : St) : Prop :=
  result st' = append_items file_name its (result st)
  /\ limit st' = limit st - len its
  /\ one_file_result st' = one_file_result st
  /\ the_proc st' = the_proc st.

(** What a stretch of a loop does to the state: records of a given
    shape are filed, each taking one from the limit, and the list of
    seen keys, when there is one, follows. *)
Definition summary (shape : dict -> Prop) (deduped : bool) (st st' : St)
  : Prop :=
  exists recs,
    result st' = add_all recs (result st)
    /\ limit st' = limit st - len recs
    /\ Forall (fun x => shape (snd x)) recs
    /\ seen_rel deduped recs (one_file_result st) (one_file_result st').

Definition is_return (o : step St) : bool :=
  match o with Return _ _ => true | _ => false end.

(** A return from inside a loop is an error, with no record filed. *)
Definition return_ok (o : step St) : Prop :=
  match o with
  | Return r s => result s = [] /\ exists e, r = Error e
  | _ => True
  end.

(** The state [search] enters its loop with. *)
Definition initial (ctx : Ctx) (seen : option (list item_idx)) (p : P) : St :=
  {| limit := ctx_limit ctx; result := []; one_file_result := seen;
     the_proc := p |}.

(** The body of the loop [search] runs for the source of [ctx]. *)
Definition loop_body (ctx : Ctx) (cpat : option Regex) (st : St)
  : option (step St) :=
  if Normalizer.is_rg (source ctx) then Some (rg_iter ctx st)
  else colon_iter ctx cpat st.

(** The state an outcome carries. *)
Definition state_of (o : step St) : St :=
  match o with
  | Continue s | Break s | Return _ s | Raise _ s => s
  end.

(** The properties of the result as the specification words them: a
    run that returns items returns at most [limit] records, with
    pairwise distinct identity keys, each with all four fields. *)
Definition limit_as_specified (fuel : nat) (ctx : Ctx) (warning : Str)
  (seen : option (list item_idx)) (p : P) : Prop :=
  forall w groups st,
    search fuel ctx warning seen p = Some (Return (Items w groups) st) ->
    len (records groups) <= ctx_limit ctx.

Definition keys_as_specified (fuel : nat) (ctx : Ctx) (warning : Str)
  (seen : option (list item_idx)) (p : P) : Prop :=
  forall w groups st,
    search fuel ctx warning seen p = Some (Return (Items w groups) st) ->
    unique_keys groups.

Definition fields_as_specified (fuel : nat) (ctx : Ctx) (warning : Str)
  (seen : option (list item_idx)) (p : P) : Prop :=
  forall w groups st,
    search fuel ctx warning seen p = Some (Return (Items w groups) st) ->
    Forall (fun r => four_fields (snd r)) (records groups).

End Search.

(** ** Stand-ins for the library functions, for the examples *)

Module Example.


(** [str.lower] on ASCII letters. *)
Definition lower (s : Str) : Str :=
  map (fun c => if (65 <=? c) && (c <=? 90) then c + 32 else c) s.

(** A regular expression engine that knows no pattern: every compile
    succeeds and nothing ever matches. *)
Definition Regex := unit.
Definition re_compile (_ : Str) (_ : bool) : Str + Regex := inr tt.
Definition finditer (_ : Regex) (_ : Str) (_ : Z) : list Z := [].

(** A decoder that knows one record: every line that opens a JSON
    object is read as [match_record], a match in [f.go], line 3, text
    [abc], with two submatches. *)
Definition submatch_record (text : string) (start : Z) : json :=
  JDict [(str "match", JDict [(str "text", JStr (str text))]);
         (str "start", JInt start)].

Definition match_record : json :=
  JDict [(str "type", JStr (str "match"));
         (str "data",
          JDict [(str "path", JDict [(str "text", JStr (str "f.go"))]);
                 (str "line_number", JInt 3);
                 (str "lines", JDict [(str "text", JStr (str "abc" ++ [10]))]);
                 (str "submatches",
                  JList [submatch_record "ab" 0; submatch_record "c" 2])])].

Definition json_loads (line : Str) : option json :=
  if is_prefix (str "{") line then Some match_record else None.

(** A process that has written [out] and [err] and exited with [code]. *)
Definition exited (out err : Bytes) (code : Z) : Popen :=
  {| args := []; p_stdout := out; p_stderr := err; p_alive := O;
     p_code := code |}.

Definition line (s : string) : Bytes := str s ++ [10].

(** Contexts for the colon-delimited loop (source [ag]) and for the
    structured-record loop (source [rg]): pattern [foo], literal search,
    no line range, at most 200 columns. *)
Definition ag_ctx (limit : Z) (submatch case_sensitive : pyval) : Ctx :=
  {| source := str "ag"; pattern := str "foo"; regex := PStr (str "0");
     case_sensitive := case_sensitive; ctx_limit := limit;
     range_ := (-1, -1); submatch_type := submatch; max_columns := 200 |}.

Definition rg_ctx (limit : Z) : Ctx :=
  {| source := str "rg"; pattern := str "foo"; regex := PStr (str "0");
     case_sensitive := PNone; ctx_limit := limit;
     range_ := (-1, -1); submatch_type := PNone; max_columns := 200 |}.

Definition run (fuel : nat) (ctx : Ctx) (seen : option (list item_idx))
  (p : Popen) : option (step (State Popen)) :=
  search lower re_compile finditer json_loads fuel ctx [] seen p.

(** The groups a run returns ([[]] when it returns none). *)
Definition groups_of (o : option (step (State Popen))) : list file_ctx :=
  match o with
  | Some (Return (Items _ groups) _) => groups
  | _ => []
  end.

(** A line with two-byte characters (e-acute, U+00E9), the state after
    its primary record at column 1 was filed, and its expansion. *)
Definition accented : Str := [233; 32; 102; 111; 111; 32; 233; 32; 102; 111; 111].

Definition after_primary : State Popen :=
  {| limit := 4;
     result := [(str "a.py",
                 {| fname := str "a.py";
                    items := [[("text"%string, PStr accented);
                               ("lnum"%string, PInt 1);
                               ("cnum"%string, PInt 1)]] |})];
     one_file_result := None;
     the_proc := exited [] [] 0 |}.

Definition after_expansion : State Popen :=
  match expand lower finditer (ag_ctx 5 (PStr (str "first")) (PStr (str "1")))
               None (str "a.py") accented 1 1 after_primary with
  | Some (inr st) => st
  | _ => after_primary
  end.

(** A backend that wrote nothing to its output, [pattern error] to its
    error stream, and exited with code 2. *)
Definition failed : Popen := exited [] (str "pattern error") 2.

(** A runner over two files whose children exit with code 1 and write
    to their error stream, after the three reads that drain it. *)
Definition drained_runner : MultiProc :=
  let env := echo_env (str "boom") 1 in
  let s0 := init_with env 12 [] [str "a.txt"; str "b.txt"] [] in
  match readline env s0 with
  | Some (_, s1) =>
      match readline env s1 with
      | Some (_, s2) =>
          match readline env s2 with
          | Some (_, s3) => s3
          | None => s2
          end
      | None => s1
      end
  | None => s0
  end.

End Example.

(** ** Further notions for the runner *)

(** The lines [readline()] returns from a byte stream up to its end. *)
Fixpoint lines_fuel (fuel : nat) (bs : Bytes) : list Bytes :=
  match fuel with
  | O => []
  | S fuel' =>
      match split_line bs with
      | ([], _) => []
      | (l, rest) => l :: lines_fuel fuel' rest
      end
  end.

Definition lines_of (bs : Bytes) : list Bytes := lines_fuel (length bs) bs.

(** Adjacent elements of a list are related by [R]. *)
Fixpoint chain {A} (R : A -> A -> Prop) (l : list A) : Prop :=
  match l with
  | a :: (b :: _) as tl => R a b /\ chain R tl
  | _ => True
  end.

(** A chunk is greedy: the first file of the chunk after it would not
    have fitted. *)
Definition no_room (B : Z) (c : list Str) (chunk next : list Str) : Prop :=
  forall f r, next = f :: r -> chunk_cost c chunk + (len f + 3) > B.

(** Lines put in front of the lines of a read. *)
Definition prepend {S} (ls : list Bytes) (r : option (list Bytes * S))
  : option (list Bytes * S) :=
  match r with
  | Some (ls', s) => Some (ls ++ ls', s)
  | None => None
  end.

Section RunnerMore.

Variable run_cmd : list Str -> Str -> Behaviour.

(** Reading a runner to its end: the lines [readline()] returns before
    its first empty result, and the state then.  [fuel] bounds the number
    of reads. *)
Fixpoint drain (fuel : nat) (self : MultiProc)
  : option (list Bytes * MultiProc) :=
  match fuel with
  | O => None
  | S fuel' =>
      match readline run_cmd self with
      | Some ([], self') => Some ([], self')
      | Some (l, self') =>
          match drain fuel' self' with
          | Some (ls, self'') => Some (l :: ls, self'')
          | None => None
          end
      | None => None
      end
  end.

(** What the child started for [chunk] writes. *)
Definition child_stdout (cmd : list Str) (cwd : Str) (chunk : list Str)
  : Bytes := b_stdout (run_cmd (cmd ++ chunk) cwd).

Definition child_stderr (cmd : list Str) (cwd : Str) (chunk : list Str)
  : Bytes := b_stderr (run_cmd (cmd ++ chunk) cwd).

End RunnerMore.

(** ** Further notions for the flag list *)

(** [b] is [a] with case flags appended that [a] did not hold, each
    once. *)
Definition flags_appended (a b : list Str) : Prop :=
  exists extra,
    b = a ++ extra
    /\ NoDup extra
    /\ forall f, In f extra ->
         (f = Normalizer.case_sensitive_flag \/ f = Normalizer.ignore_case_flag)
         /\ ~ In f a.

Definition count (l : list Str) (f : Str) : nat := count_occ Str_eq_dec l f.

(** ** Further notions for the records *)

(** An item record of the structured-record loop, with what the loop
    checked before it filed it: the line is in the range, and the text
    is the first line, right-stripped, of a text of at most
    [max_columns] characters. *)
Definition rg_record (ctx : Ctx) (it : dict) : Prop :=
  exists l c t0 m,
    it = [("lnum"%string, PInt l); ("cnum"%string, PInt c);
          ("text"%string, PStr (rstrip (first_line t0)));
          ("match"%string, PStr m)]
    /\ out_of_range (range_ ctx) l = false
    /\ len t0 <= max_columns ctx.

(** The same for the colon-delimited loop. *)
Definition colon_record (ctx : Ctx) (it : dict) : Prop :=
  exists t l c,
    it = [("text"%string, PStr t); ("lnum"%string, PInt l);
          ("cnum"%string, PInt c)]
    /\ out_of_range (range_ ctx) l = false
    /\ len t <= max_columns ctx.

Definition record_shape (ctx : Ctx) : dict -> Prop :=
  if Normalizer.is_rg (source ctx) then rg_record ctx else colon_record ctx.

(** How far below zero the limit of the colon-delimited loop can go:
    by one record under the submatch strategy ['first'], not at all
    otherwise. *)
Definition overshoot (ctx : Ctx) : Z :=
  if py_eq (submatch_type ctx) (PStr (str "first")) then 1 else 0.

(** A text of one line that does not end in white space. *)
Definition one_line_stripped (t : Str) : Prop :=
  ~ In 10 t /\ rstrip t = t.

(** ** Further notions for the submatch expansion *)

(** [pat] occurs in [s] at the index [k]. *)
Definition occurs_at (pat s : Str) (k : Z) : Prop :=
  0 <= k <= len s /\ is_prefix pat (skipn (Z.to_nat k) s) = true.

(** What the literal search looks for (lines 472-475): the pattern, in
    lower case when the search ignores case. *)
Definition needle (lower : Str -> Str) (ctx : Ctx) : Str :=
  if py_eq (case_sensitive ctx) (PStr (str "0")) then lower (pattern ctx)
  else pattern ctx.

(** The record the literal search files for an occurrence at the index
    [k]: the column is one more than the length in bytes of the text
    before [k]. *)
Definition literal_record (text : Str) (lnum : Z) (k : Z) (it : dict) : Prop :=
  exists b,
    utf8_encode (slice_to text k) = Some b
    /\ it = [("text"%string, PStr text); ("lnum"%string, PInt lnum);
             ("cnum"%string, PInt (len b + 1))].

(** The number of colons of a line. *)
Definition colons (s : Str) : nat := count_occ Z.eq_dec s 58.

(** ** Further examples *)

Module Example2.
Import Example.

(** Lines 2 to 3 only, at most 10 columns. *)
Definition narrow_ctx (submatch : pyval) : Ctx :=
  {| source := str "ag"; pattern := str "foo"; regex := PStr (str "0");
     case_sensitive := PStr (str "1"); ctx_limit := 5;
     range_ := (2, 3); submatch_type := submatch; max_columns := 10 |}.

Definition narrow_output : Bytes :=
  line "a.py:1:1:foo" ++ line "a.py:2:1:foo foo"
  ++ line "a.py:3:1:foo in a long line" ++ line "a.py:3:5:the foo"
  ++ line "a.py:4:1:foo".

End Example2.

(** * Properties *)

(** ** Basic facts on the Python values *)

Lemma Str_eqb_eq a b : Str_eqb a b = true <-> a = b.
Proof. unfold Str_eqb. destruct (Str_eq_dec a b); split; congruence. Qed.

Lemma Str_eqb_refl a : Str_eqb a a = true.
Proof. now apply Str_eqb_eq. Qed.

Lemma Str_eqb_neq a b : Str_eqb a b = false <-> a <> b.
Proof. unfold Str_eqb. destruct (Str_eq_dec a b); split; congruence. Qed.

Lemma mem_In x l : mem x l = true <-> In x l.
Proof.
  unfold mem. rewrite existsb_exists. split.
  - intros [y [Hy He]]. apply Str_eqb_eq in He. now subst.
  - intros H. exists x. split; [assumption | apply Str_eqb_refl].
Qed.

(** ** The pattern scan *)

Module NormalizerFacts.
Import Normalizer.

Lemma last_cons_ne (c : Z) (r : Str) :
  r <> [] -> last (c :: r) 0 = last r 0.
Proof. destruct r; [congruence | reflexivity]. Qed.

(** The scan of a prefix that does not end in a backslash is finished
    when the rest begins: the two scans compose. *)
Lemma scan_run_app (pre : Str) :
  (forall rest a, last pre 0 <> backslash ->
     scan (pre ++ rest) a =
       (fst (scan pre a) ++ fst (scan rest (snd (scan pre a))),
        snd (scan rest (snd (scan pre a)))))
  /\ (forall k rest a, pre <> [] -> last pre 0 <> backslash ->
     run k (pre ++ rest) a =
       (fst (run k pre a) ++ fst (scan rest (snd (run k pre a))),
        snd (scan rest (snd (run k pre a))))).
Proof.
  induction pre as [|c r [IHs IHr]].
  - split.
    + intros rest a _. simpl. now destruct (scan rest a).
    + intros k rest a Hne. congruence.
  - assert (Hr : c = backslash -> last (c :: r) 0 <> backslash -> r <> []).
    { intros -> Hl ->. now apply Hl. }
    assert (Hl : last (c :: r) 0 <> backslash -> last r 0 <> backslash).
    { intros Hl. destruct r as [|d r']; [discriminate|]. exact Hl. }
    split.
    + intros rest a Hlast. simpl.
      destruct (c =? backslash) eqn:Ec.
      * apply Z.eqb_eq in Ec. apply IHr; auto.
      * rewrite (IHs rest a (Hl Hlast)).
        destruct (scan r a) as [o1 a1]. simpl.
        now destruct (scan rest a1).
    + intros k rest a _ Hlast. simpl.
      destruct (c =? backslash) eqn:Ec.
      * apply Z.eqb_eq in Ec. apply IHr; auto.
      * destruct ((c =? upper_C) || (c =? lower_c)); [destruct (Nat.odd k)|].
        all: rewrite (IHs rest _ (Hl Hlast)).
        1: destruct (scan r (add_flag (flag_of c) a)) as [o1 a1]; simpl.
        2, 3: destruct (scan r a) as [o1 a1]; simpl.
        all: destruct (scan rest a1) as [o2 a2]; simpl.
        all: now rewrite <- ?app_assoc, <- ?app_comm_cons.
Qed.

Lemma scan_app (pre rest : Str) (a : list Str) :
  last pre 0 <> backslash ->
  scan (pre ++ rest) a =
    (fst (scan pre a) ++ fst (scan rest (snd (scan pre a))),
     snd (scan rest (snd (scan pre a)))).
Proof. intros. now apply scan_run_app. Qed.

Lemma run_repeat (j k : nat) (rest : Str) (a : list Str) :
  run k (repeat backslash j ++ rest) a = run (k + j) rest a.
Proof.
  revert k. induction j as [|j IH]; intros k; simpl.
  - now rewrite Nat.add_0_r.
  - rewrite IH. f_equal. lia.
Qed.

(** A run of [k] backslashes before a letter [C] or [c]. *)
Lemma scan_letter (k : nat) (L : Z) (post : Str) (a : list Str) :
  L = upper_C \/ L = lower_c ->
  scan (repeat backslash k ++ L :: post) a =
    if Nat.odd k
    then (repeat backslash (k - 1) ++ fst (scan post (add_flag (flag_of L) a)),
          snd (scan post (add_flag (flag_of L) a)))
    else (repeat backslash k ++ L :: fst (scan post a), snd (scan post a)).
Proof.
  intros HL.
  assert (Hb : (L =? backslash) = false) by (destruct HL; subst; reflexivity).
  assert (Hc : (L =? upper_C) || (L =? lower_c) = true)
    by (destruct HL; subst; reflexivity).
  destruct k as [|k].
  - simpl. rewrite Hb. now destruct (scan post a).
  - change (repeat backslash (S k) ++ L :: post)
      with (backslash :: (repeat backslash k ++ L :: post)).
    cbn [scan]. rewrite Z.eqb_refl, run_repeat.
    cbn [run]. rewrite Hb, Hc. cbn [Nat.add].
    destruct (Nat.odd (S k)).
    + now destruct (scan post (add_flag (flag_of L) a)).
    + now destruct (scan post a).
Qed.

Lemma add_flag_incl (f : Str) (a : list Str) : incl a (add_flag f a).
Proof.
  unfold add_flag. destruct (mem f a); [apply incl_refl|].
  now apply incl_appl, incl_refl.
Qed.

Lemma add_flag_In (f : Str) (a : list Str) : In f (add_flag f a).
Proof.
  unfold add_flag. destruct (mem f a) eqn:E.
  - now apply mem_In.
  - apply in_or_app. right. now left.
Qed.

Lemma added_once_refl a : added_once a a.
Proof. split; [apply incl_refl | now left]. Qed.

Lemma added_once_trans a b c :
  added_once a b -> added_once b c -> added_once a c.
Proof.
  intros [I1 C1] [I2 C2]. split; [eapply incl_tran; eauto|].
  intros f. destruct (C1 f) as [E1|[E1 E1']], (C2 f) as [E2|[E2 E2']]; lia.
Qed.

Lemma added_once_add_flag f a : added_once a (add_flag f a).
Proof.
  split; [apply add_flag_incl|].
  intros g. unfold add_flag. destruct (mem f a) eqn:E; [now left|].
  rewrite count_occ_app. simpl.
  destruct (Str_eq_dec f g) as [->|Hne]; [|left; lia].
  right. split; [|].
  - apply count_occ_not_In. intros Hin. apply mem_In in Hin. congruence.
  - assert (count_occ Str_eq_dec a g = 0)%nat; [|lia].
    apply count_occ_not_In. intros Hin. apply mem_In in Hin. congruence.
Qed.

Lemma scan_run_added_once (p : Str) :
  (forall a, added_once a (snd (scan p a)))
  /\ (forall k a, added_once a (snd (run k p a))).
Proof.
  induction p as [|c r [IHs IHr]]; split; intros; simpl;
    try apply added_once_refl.
  - destruct (c =? backslash); [apply IHr|].
    specialize (IHs a). now destruct (scan r a).
  - destruct (c =? backslash); [apply IHr|].
    destruct ((c =? upper_C) || (c =? lower_c)); [destruct (Nat.odd k)|].
    + specialize (IHs (add_flag (flag_of c) a)).
      destruct (scan r (add_flag (flag_of c) a)). simpl in *.
      eapply added_once_trans; [apply added_once_add_flag | exact IHs].
    + specialize (IHs a). now destruct (scan r a).
    + specialize (IHs a). now destruct (scan r a).
Qed.

Lemma scan_added_once (p : Str) (a : list Str) :
  added_once a (snd (scan p a)).
Proof. apply scan_run_added_once. Qed.

(** C5 (pattern normalizer, rg family). In a pattern [pre ++ \^k ++ L ++
    post], where [L] is the letter C or c and the [k] backslashes before
    it are all there are ([pre] does not end in one): for odd [k] the
    output holds [k - 1] backslashes and no [L] between the outputs of
    [pre] and [post], and the flag of [L] (--case-sensitive for C,
    --ignore-case for c) is in the final flag list, once if it was not
    there before, however often the directive occurs in the pattern; for
    even [k] the [k] backslashes and the letter are kept as they are and
    this occurrence adds no flag. *)
Theorem normalize_pattern_directive
  (source pre post : Str) (k : nat) (L : Z) (cmdargs : list Str)
  (Hrg : is_rg source = true)
  (Hpre : last pre 0 <> backslash)
  (HL : L = upper_C \/ L = lower_c) :
  let flag := if L =? upper_C then case_sensitive_flag else ignore_case_flag in
  let whole := normalize_pattern source (pre ++ repeat backslash k ++ L :: post) cmdargs in
  let before := normalize_pattern source pre cmdargs in
  (Nat.odd k = true ->
     let after := normalize_pattern source post (add_flag flag (snd before)) in
     whole = (fst before ++ repeat backslash (k - 1) ++ fst after, snd after)
     /\ In flag (snd whole)
     /\ (~ In flag cmdargs -> count_occ Str_eq_dec (snd whole) flag = 1%nat)
     /\ (In flag cmdargs ->
         count_occ Str_eq_dec (snd whole) flag = count_occ Str_eq_dec cmdargs flag))
  /\ (Nat.odd k = false ->
     let after := normalize_pattern source post (snd before) in
     whole = (fst before ++ repeat backslash k ++ L :: fst after, snd after)).
Proof.
  unfold normalize_pattern. rewrite Hrg. cbv zeta.
  rewrite (scan_app pre _ cmdargs Hpre), (scan_letter k L post _ HL).
  fold (flag_of L).
  split; intros Hk; rewrite Hk; cbn [fst snd].
  - split; [reflexivity|].
    pose proof (scan_added_once pre cmdargs) as A1.
    pose proof (added_once_add_flag (flag_of L) (snd (scan pre cmdargs))) as A2.
    pose proof (scan_added_once post (add_flag (flag_of L) (snd (scan pre cmdargs)))) as A3.
    pose proof (added_once_trans _ _ _ A1 (added_once_trans _ _ _ A2 A3)) as [_ A].
    assert (Hin : In (flag_of L)
                     (snd (scan post (add_flag (flag_of L) (snd (scan pre cmdargs)))))).
    { apply (proj1 A3), add_flag_In. }
    split; [exact Hin|].
    apply (count_occ_In Str_eq_dec) in Hin.
    split; intros Hc.
    + apply (count_occ_not_In Str_eq_dec) in Hc.
      destruct (A (flag_of L)) as [E|[_ E]]; lia.
    + apply (count_occ_In Str_eq_dec) in Hc.
      destruct (A (flag_of L)) as [E|[E _]]; lia.
  - reflexivity.
Qed.

Lemma normalize_pattern_directive_witness :
  normalize_pattern (str "rg") (str "a\\\Cb\c\C") [] =
    (str "a\\b", [case_sensitive_flag; ignore_case_flag]).
Proof.
  pose proof (normalize_pattern_directive (str "rg") (str "a") (str "b\c\C")
                3 upper_C [] eq_refl ltac:(vm_compute; discriminate)
                (or_introl eq_refl)) as [Hodd _].
  destruct (Hodd eq_refl) as [E _].
  etransitivity; [exact E | vm_compute; reflexivity].
Defined.

End NormalizerFacts.

(** ** The chunked process runner *)

Section RunnerFacts.

Variable run_cmd : list Str -> Str -> Behaviour.

(** What [_next_proc] leaves unchanged. *)
Lemma _next_proc_frame (s : MultiProc) :
  cmd (_next_proc run_cmd s) = cmd s
  /\ files (_next_proc run_cmd s) = files s
  /\ ARG_MAX (_next_proc run_cmd s) = ARG_MAX s
  /\ cwd (_next_proc run_cmd s) = cwd s.
Proof.
  unfold _next_proc.
  destruct (proc s) as [p|]; cbn [Popen_stderr_read];
    [destruct (p_stderr p)|]; cbn;
    match goal with |- context [(?a <=? ?b)%nat] => destruct (a <=? b)%nat end;
    cbn; try match goal with |- context [take_chunk ?a ?b ?c ?d ?e] =>
               destruct (take_chunk a b c d e) end; cbn; auto.
Qed.

Lemma cost_app a b : cost (a ++ b) = cost a + cost b.
Proof. induction a; simpl; lia. Qed.

(** The inner loop takes a prefix of the remaining files.  It takes at
    least one file when it starts with an empty chunk, and what it has
    taken is within the budget unless it is one forced file. *)
Lemma take_chunk_spec (B : Z) (rest : list Str) :
  forall cmd_len chunk idx chunk' idx',
    take_chunk B rest cmd_len chunk idx = (chunk', idx') ->
    exists taken rest',
      chunk' = chunk ++ taken /\ rest = taken ++ rest'
      /\ idx' = (idx + length taken)%nat
      /\ (rest <> [] -> chunk = [] -> taken <> [])
      /\ (taken <> [] ->
          cmd_len + cost taken <= B \/ (chunk = [] /\ exists f, taken = [f])).
Proof.
  induction rest as [|f rest IH]; intros cmd_len chunk idx chunk' idx' E.
  - simpl in E. injection E as <- <-. exists [], [].
    rewrite app_nil_r, Nat.add_0_r. repeat split; congruence.
  - simpl in E. destruct (cmd_len + (len f + 3) >? B) eqn:Eover.
    + destruct chunk as [|g chunk].
      * injection E as <- <-. exists [f], rest.
        repeat split; try (simpl; lia || congruence).
        intros _. right. split; [reflexivity | now exists f].
      * injection E as <- <-. exists [], (f :: rest).
        rewrite app_nil_r, Nat.add_0_r. repeat split; congruence.
    + apply IH in E as (taken & rest' & -> & -> & -> & _ & Hb).
      exists (f :: taken), rest'. rewrite <- app_assoc. simpl.
      repeat split; try (lia || congruence).
      intros _. left.
      destruct taken as [|g taken]; [simpl; lia|].
      destruct Hb as [Hb|[Hb _]]; [discriminate | | now destruct chunk].
      simpl in *. lia.
Qed.

Ltac next_proc_cases s :=
  unfold _next_proc;
  destruct (proc s) as [?p|]; cbn [Popen_stderr_read];
  [destruct (p_stderr p)|];
  cbn [proc cmd files cwd file_idx returncode ARG_MAX all_stderr
       set_proc set_all_stderr].

Lemma _next_proc_exhausted (s : MultiProc) :
  (length (files s) <= file_idx s)%nat ->
  proc (_next_proc run_cmd s) = None
  /\ returncode (_next_proc run_cmd s) = Some 0
  /\ file_idx (_next_proc run_cmd s) = file_idx s.
Proof.
  intros E. apply Nat.leb_le in E.
  next_proc_cases s; rewrite E; cbn; auto.
Qed.

Lemma _next_proc_spawn (s : MultiProc) :
  (file_idx s < length (files s))%nat ->
  exists p taken rest',
    proc (_next_proc run_cmd s) = Some p
    /\ args p = cmd s ++ taken
    /\ file_idx (_next_proc run_cmd s) = (file_idx s + length taken)%nat
    /\ skipn (file_idx s) (files s) = taken ++ rest'
    /\ good_chunk (ARG_MAX s) (cmd s) taken.
Proof.
  intros E.
  destruct (take_chunk (ARG_MAX s) (skipn (file_idx s) (files s))
              (cmd_len_of (cmd s)) [] (file_idx s)) as [chunk idx] eqn:Et.
  pose proof Et as Hspec.
  apply take_chunk_spec in Hspec
    as (taken & rest' & Hc & Hrest & Hidx & Hne & Hb).
  simpl in Hc. subst chunk.
  assert (Hne' : taken <> []).
  { apply Hne; [|reflexivity]. intros Hnil.
    apply (f_equal (@length Str)) in Hnil.
    rewrite length_skipn in Hnil. simpl in Hnil. lia. }
  assert (Hgood : good_chunk (ARG_MAX s) (cmd s) taken).
  { split; [exact Hne'|]. intros Hmany.
    destruct (Hb Hne') as [Hok|[_ [f ->]]]; [exact Hok | simpl in Hmany; lia]. }
  apply Nat.leb_gt in E.
  next_proc_cases s; rewrite E, Et; cbn.
  all: eexists; exists taken, rest'; repeat split; auto.
  all: try apply Hgood.
Qed.

Lemma spawned_next (n : nat) :
  forall s,
    (length (files s) - file_idx s <= n)%nat ->
    exists cs,
      spawned run_cmd n (_next_proc run_cmd s) = Some cs
      /\ concat cs = skipn (file_idx s) (files s)
      /\ Forall (good_chunk (ARG_MAX s) (cmd s)) cs.
Proof.
  induction n as [|n IH]; intros s Hn.
  - destruct (_next_proc_exhausted s) as (Hp & _); [lia|].
    exists []. rewrite skipn_all2 by lia.
    split; [|split; constructor].
    unfold spawned. now rewrite Hp.
  - destruct (Nat.le_gt_cases (length (files s)) (file_idx s)) as [E|E].
    + destruct (_next_proc_exhausted s E) as (Hp & _).
      exists []. rewrite skipn_all2 by lia.
      split; [|split; constructor].
      cbn [spawned]. now rewrite Hp.
    + destruct (_next_proc_spawn s E)
        as (p & taken & rest' & Hp & Hargs & Hidx & Hrest & Hgood).
      destruct (_next_proc_frame s) as (Hcmd & Hfiles & Hmax & _).
      assert (Hlen : (length taken <= length (files s) - file_idx s)%nat).
      { rewrite <- length_skipn, Hrest, length_app. lia. }
      assert (Hpos : (1 <= length taken)%nat).
      { destruct Hgood as [Hne _]. destruct taken; [congruence | simpl; lia]. }
      destruct (IH (_next_proc run_cmd s)) as (cs & Hcs & Hcat & Hall).
      { rewrite Hfiles, Hidx. lia. }
      exists (taken :: cs). split; [|split].
      * cbn [spawned]. rewrite Hp, Hcs, Hcmd, Hargs.
        rewrite skipn_app, skipn_all, Nat.sub_diag. reflexivity.
      * simpl. rewrite Hcat, Hfiles, Hidx, Nat.add_comm, <- skipn_skipn, Hrest.
        rewrite skipn_app, skipn_all, Nat.sub_diag. reflexivity.
      * constructor; [exact Hgood|]. now rewrite <- Hmax, <- Hcmd.
Qed.

(** C3, as amended (chunking). For every base command, file list and
    budget the chunks of the runner are produced (the fuel of the model
    suffices), concatenated in order they are the file list, every chunk
    holds at least one file, and every chunk that holds more than one
    file is within the budget: a chunk over the budget is a single file,
    at whatever position. *)
Theorem chunks_partition (arg_max : Z) (c fs : list Str) (d : Str) :
  exists cs,
    chunks run_cmd arg_max c fs d = Some cs
    /\ concat cs = fs
    /\ Forall (fun chunk => chunk <> []) cs
    /\ Forall (fun chunk => (1 < length chunk)%nat ->
                            within_budget arg_max c chunk) cs.
Proof.
  unfold chunks, init_with.
  destruct (spawned_next (length fs)
              {| cmd := c; files := fs; cwd := d; file_idx := O;
                 proc := None; returncode := None; ARG_MAX := arg_max;
                 all_stderr := [] |}) as (cs & Hcs & Hcat & Hall).
  { simpl. lia. }
  exists cs. simpl in *. repeat split; auto.
  - eapply Forall_impl; [|exact Hall]. now intros ? [? _].
  - eapply Forall_impl; [|exact Hall]. now intros ? [_ ?].
Qed.

Lemma _next_proc_ok (s : MultiProc) : exhausted_ok (_next_proc run_cmd s).
Proof.
  destruct (Nat.le_gt_cases (length (files s)) (file_idx s)) as [E|E].
  - destruct (_next_proc_exhausted s E) as (_ & Hr & Hi).
    destruct (_next_proc_frame s) as (_ & Hf & _).
    intros _. rewrite Hr, Hf, Hi. auto.
  - destruct (_next_proc_spawn s E) as (p & ? & ? & Hp & _).
    intros Hn. congruence.
Qed.

Lemma readline_fuel_ok (fuel : nat) :
  forall s line s',
    exhausted_ok s ->
    readline_fuel run_cmd fuel s = Some (line, s') -> exhausted_ok s'.
Proof.
  induction fuel as [|fuel IH]; intros s line s' Hs E; [discriminate|].
  cbn [readline_fuel] in E.
  destruct (proc s) as [p|] eqn:Ep.
  - unfold Popen_readline in E.
    destruct (split_line (p_stdout p)) as [l r].
    destruct l.
    + eapply IH; [|exact E]. apply _next_proc_ok.
    + injection E as <- <-. intros Hn. discriminate.
  - injection E as <- <-. exact Hs.
Qed.

Lemma reachable_ok (s : MultiProc) :
  reachable run_cmd s -> exhausted_ok s.
Proof.
  induction 1 as [B c fs d | s s' Hr IH Hstep].
  - apply _next_proc_ok.
  - destruct Hstep as [s line s' E | s | s | s].
    + eapply readline_fuel_ok; eauto.
    + unfold poll. destruct (proc s) as [p|] eqn:Ep.
      * destruct (Popen_poll p) as [[code|] p']; cbn;
          rewrite ?andb_false_r; cbn; intros Hn; discriminate.
      * cbn. rewrite Ep.
        destruct ((length (files s) <=? file_idx s)%nat && true); exact IH.
    + exact IH.
    + unfold terminate. destruct (proc s) eqn:Ep; [|exact IH].
      intros Hn. discriminate.
Qed.

(** [readline] has the fuel it needs. *)
Lemma readline_fuel_total (fuel : nat) :
  forall s,
    (length (files s) - file_idx s + 2 <= fuel)%nat ->
    exists r, readline_fuel run_cmd fuel s = Some r.
Proof.
  induction fuel as [|fuel IH]; intros s Hf; [lia|].
  cbn [readline_fuel]. destruct (proc s) as [p|] eqn:Ep; [|eauto].
  unfold Popen_readline. destruct (split_line (p_stdout p)) as [l r].
  destruct l; [|eauto].
  set (s1 := set_proc s _).
  destruct (Nat.le_gt_cases (length (files s1)) (file_idx s1)) as [E|E].
  - destruct (_next_proc_exhausted s1 E) as (Hp & _).
    destruct fuel; [simpl in *; lia|]. cbn [readline_fuel]. rewrite Hp. eauto.
  - destruct (_next_proc_spawn s1 E)
      as (p' & taken & rest' & _ & _ & Hidx & Hrest & [Hne _]).
    destruct (_next_proc_frame s1) as (_ & Hfiles & _).
    apply IH. rewrite Hfiles, Hidx.
    assert (1 <= length taken)%nat by (destruct taken; [congruence|simpl; lia]).
    assert (Hlen : (length taken <= length (files s1) - file_idx s1)%nat).
    { rewrite <- length_skipn, Hrest, length_app. lia. }
    subst s1. cbn [set_proc files file_idx] in *. lia.
Qed.

Theorem readline_total (s : MultiProc) :
  exists r, readline run_cmd s = Some r.
Proof. apply readline_fuel_total. lia. Qed.

(** C9 (terminal state of the runner). A runner reached from its
    constructor by [readline], [poll], [stderr] and [terminate] calls
    that has its cursor at the end of the file list and no active child
    is in a terminal success state: [poll()] returns 0, whatever exit
    codes the children had, [readline()] returns the empty byte string
    and so does every later one, and none of the operations changes the
    state any more. *)
Theorem exhausted_is_terminal (s : MultiProc)
  (Hreach : reachable run_cmd s)
  (Hidx : (length (files s) <= file_idx s)%nat)
  (Hproc : proc s = None) :
  poll s = (Some 0, s)
  /\ readline run_cmd s = Some ([], s)
  /\ (forall n, readlines run_cmd n s = Some (repeat [] n))
  /\ (forall s', op_step run_cmd s s' -> s' = s).
Proof.
  destruct (reachable_ok s Hreach Hproc) as [Hrc _].
  assert (Hpoll : poll s = (Some 0, s)).
  { unfold poll. rewrite Hproc. cbn. rewrite Hproc.
    apply Nat.leb_le in Hidx. rewrite Hidx. cbn. now rewrite Hrc. }
  assert (Hread : readline run_cmd s = Some ([], s)).
  { unfold readline. cbn [readline_fuel]. now rewrite Hproc. }
  repeat split; auto.
  - induction n as [|n IH]; [reflexivity|].
    cbn [readlines]. rewrite Hread, IH. reflexivity.
  - intros s' Hstep. destruct Hstep as [s line s' E | s | s | s].
    + rewrite Hread in E. now injection E.
    + now rewrite Hpoll.
    + reflexivity.
    + unfold terminate. now rewrite Hproc.
Qed.

End RunnerFacts.

Import Example.

Lemma exhausted_is_terminal_witness :
  poll drained_runner = (Some 0, drained_runner)
  /\ all_stderr drained_runner = str "boomboom".
Proof.
  split; [|vm_compute; reflexivity].
  apply (exhausted_is_terminal (echo_env (str "boom") 1) drained_runner).
  - eapply reach_step; [eapply reach_step; [eapply reach_step;
      [apply (reach_init _ 12 [] [str "a.txt"; str "b.txt"] [])|]|]|];
      eapply step_readline; vm_compute; reflexivity.
  - vm_compute. apply le_n.
  - vm_compute. reflexivity.
Defined.

(** C3, counterexample to the claim as stated: with a budget of 10 and
    the files [a], [bbbbbbbbbbbb], [c] the second chunk is the single
    long file, which is over the budget although it is not the first
    chunk. *)
Lemma chunking_as_specified_fails :
  ~ chunking_as_specified (echo_env [] 0) 10 []
      [str "a"; str "bbbbbbbbbbbb"; str "c"] [].
Proof.
  intros (cs & Hcs & _ & _ & Hb).
  vm_compute in Hcs. injection Hcs as <-.
  cbn [tl] in Hb. inversion Hb as [|? ? Hover _]. 
  vm_compute in Hover. apply Hover. reflexivity.
Qed.

(** ** UTF-8 and the string helpers *)

Lemma encode_cp_head (c : Z) (bs : Bytes) :
  encode_cp c = Some bs ->
  exists b r, bs = b :: r /\ is_continuation b = false.
Proof.
  unfold encode_cp, is_continuation.
  repeat match goal with
         | |- context [if ?x <? ?y then _ else _] =>
             destruct (Z.ltb_spec x y)
         | |- context [if ?x && ?y then _ else _] => destruct (x && y)
         end; intros E; try discriminate;
    apply (f_equal (fun o => match o with Some x => x | None => [] end)) in E;
    cbv beta iota in E; subst bs;
    eexists; eexists; (split; [reflexivity|]);
    apply andb_false_iff; rewrite Z.leb_gt, Z.ltb_ge;
    Z.div_mod_to_equations; lia.
Qed.

Lemma utf8_encode_app (a b : Str) (bs : Bytes) :
  utf8_encode (a ++ b) = Some bs ->
  exists x y, utf8_encode a = Some x /\ utf8_encode b = Some y /\ bs = x ++ y.
Proof.
  revert bs. induction a as [|c a IH]; intros bs E; simpl in *.
  - exists [], bs. auto.
  - destruct (encode_cp c) as [bc|]; [|discriminate].
    destruct (utf8_encode (a ++ b)) as [br|] eqn:Er; [|discriminate].
    injection E as <-.
    destruct (IH br eq_refl) as (x & y & -> & Hy & ->).
    exists (bc ++ x), y. rewrite Hy, app_assoc. auto.
Qed.

(** The encoding of a prefix of the characters ends on a character
    boundary of the encoding of the whole text. *)
Lemma encode_prefix_boundary (text : Str) (k : nat) (bs pre : Bytes) :
  utf8_encode text = Some bs ->
  utf8_encode (firstn k text) = Some pre ->
  0 <= len pre <= len bs /\ is_char_boundary bs (len pre) = true.
Proof.
  intros Ebs Epre. rewrite <- (firstn_skipn k text) in Ebs.
  apply utf8_encode_app in Ebs as (x & y & Hx & Hy & ->).
  rewrite Hx in Epre. injection Epre as <-.
  unfold is_char_boundary, len. rewrite length_app, Nat2Z.id.
  split; [lia|].
  replace (0 <=? Z.of_nat (length x)) with true by (symmetry; apply Z.leb_le; lia).
  replace (Z.of_nat (length x) <=? Z.of_nat (length x + length y)) with true
    by (symmetry; apply Z.leb_le; lia).
  rewrite nth_error_app2, Nat.sub_diag by lia. cbn [andb].
  destruct (skipn k text) as [|c r]; simpl in Hy.
  - injection Hy as <-. reflexivity.
  - destruct (encode_cp c) as [bc|] eqn:Ec; [|discriminate].
    destruct (utf8_encode r); [|discriminate]. injection Hy as <-.
    apply encode_cp_head in Ec as (b0 & r0 & -> & Hb). simpl. now rewrite Hb.
Qed.

Lemma slice_to_firstn {A} (l : list A) (stop : Z) :
  exists k, slice_to l stop = firstn k l.
Proof. unfold slice_to. destruct (stop <? 0); eauto. Qed.

Lemma find_at_range (pat t : Str) :
  forall i, find_at pat t i = -1 \/ i <= find_at pat t i <= i + len t.
Proof.
  unfold len. induction t as [|c t IH]; intros i; simpl.
  - destruct (is_prefix pat []); [right|left]; lia.
  - destruct (is_prefix pat (c :: t)); [right; lia|].
    destruct (IH (i + 1)) as [E|E]; [now left | right; lia].
Qed.

Lemma str_find_range (text pat : Str) (start : Z) :
  0 <= start ->
  str_find text pat start = -1
  \/ start <= str_find text pat start <= len text.
Proof.
  intros Hs. unfold str_find. destruct (Z.ltb_spec (len text) start); [now left|].
  destruct (find_at_range pat (skipn (Z.to_nat start) text) start) as [E|E];
    [now left | right].
  unfold len in *. rewrite length_skipn in E. lia.
Qed.

(** ** The result store *)

Lemma in_result_lookup (f : Str) (r : Result) :
  in_result f r = true <-> exists fc, lookup f r = Some fc.
Proof.
  unfold in_result. destruct (lookup f r); split; eauto; try discriminate.
  intros [? ?]. discriminate.
Qed.

Lemma append_item_ok (f : Str) (it : dict) (r : Result) :
  groups_ok r -> groups_ok (append_item f it r).
Proof.
  unfold groups_ok. induction 1 as [|[k fc] r [Hk Hi] Hr IH]; simpl.
  - constructor.
  - destruct (Str_eqb f k); constructor; auto; simpl in *.
    split; [assumption|]. now destruct (items fc).
Qed.

Lemma append_item_in_result (f g : Str) (it : dict) (r : Result) :
  in_result g (append_item f it r) = in_result g r.
Proof.
  unfold in_result. induction r as [|[k fc] r IH]; simpl; [reflexivity|].
  destruct (Str_eqb f k); simpl; destruct (Str_eqb g k); auto.
Qed.

Lemma append_item_length (f : Str) (it : dict) (r : Result) :
  length (append_item f it r) = length r.
Proof.
  induction r as [|[k fc] r IH]; simpl; [reflexivity|].
  destruct (Str_eqb f k); simpl; congruence.
Qed.

Lemma lookup_app_none {A} (f : Str) (r1 r2 : list (Str * A)) :
  lookup f r1 = None -> lookup f (r1 ++ r2) = lookup f r2.
Proof.
  induction r1 as [|[k v] r1 IH]; simpl; [reflexivity|].
  destruct (Str_eqb f k); [discriminate | exact IH].
Qed.

Lemma append_item_app_none (f : Str) (it : dict) (r1 r2 : Result) :
  lookup f r1 = None ->
  append_item f it (r1 ++ r2) = r1 ++ append_item f it r2.
Proof.
  induction r1 as [|[k v] r1 IH]; simpl; [reflexivity|].
  destruct (Str_eqb f k); [discriminate|]. intros E. now rewrite IH.
Qed.

(** The step of both loops that files a record: [ensure_file], then
    [append_item]. *)
Lemma add_item_ok (f : Str) (it : dict) (r : Result) :
  groups_ok r -> groups_ok (append_item f it (ensure_file f r)).
Proof.
  intros Hr. unfold ensure_file, in_result.
  destruct (lookup f r) eqn:E; [now apply append_item_ok|].
  rewrite append_item_app_none by exact E. simpl. rewrite Str_eqb_refl.
  apply Forall_app. split; [exact Hr|].
  constructor; [|constructor]. simpl. split; [reflexivity | discriminate].
Qed.

Lemma add_item_in_result (f : Str) (it : dict) (r : Result) :
  in_result f (append_item f it (ensure_file f r)) = true.
Proof.
  rewrite append_item_in_result. unfold ensure_file.
  destruct (in_result f r) eqn:E; [exact E|].
  unfold in_result in *. destruct (lookup f r) eqn:El; [discriminate|].
  rewrite lookup_app_none by exact El. simpl. now rewrite Str_eqb_refl.
Qed.

Lemma add_item_nonempty (f : Str) (it : dict) (r : Result) :
  length (append_item f it (ensure_file f r)) <> O.
Proof.
  pose proof (add_item_in_result f it r) as E.
  destruct (append_item f it (ensure_file f r)); [discriminate E | discriminate].
Qed.

(** Filing a record under a file that has a group adds exactly that
    record to the records of the result. *)
Lemma records_append_item (f : Str) (it : dict) (r : Result) :
  groups_ok r -> in_result f r = true ->
  Permutation (records (values (append_item f it r)))
              ((f, it) :: records (values r)).
Proof.
  unfold in_result, values.
  induction 1 as [|[k fc] r [Hk Hi] Hr IH]; simpl; [discriminate|].
  destruct (Str_eqb f k) eqn:E.
  - intros _. apply Str_eqb_eq in E. subst k. simpl in *.
    rewrite map_app, <- app_assoc. simpl. rewrite Hk.
    symmetry. apply Permutation_middle.
  - intros Hin. simpl.
    rewrite (IH Hin). symmetry. apply Permutation_middle.
Qed.

Lemma records_ensure_file (f : Str) (r : Result) :
  records (values (ensure_file f r)) = records (values r).
Proof.
  unfold ensure_file, values, records. destruct (in_result f r); [reflexivity|].
  rewrite map_app, flat_map_app. simpl. now rewrite app_nil_r.
Qed.

Lemma ensure_file_keeps (f : Str) (r : Result) :
  Forall (fun e => fname (snd e) = fst e) r ->
  Forall (fun e => fname (snd e) = fst e) (ensure_file f r).
Proof.
  intros Hr. unfold ensure_file. destruct (in_result f r); [exact Hr|].
  apply Forall_app. split; [exact Hr|]. now repeat constructor.
Qed.

Lemma records_add_item (f : Str) (it : dict) (r : Result) :
  groups_ok r ->
  Permutation (records (values (append_item f it (ensure_file f r))))
              ((f, it) :: records (values r)).
Proof.
  intros Hr. unfold ensure_file, in_result.
  destruct (lookup f r) eqn:E.
  - apply records_append_item; [exact Hr|]. unfold in_result. now rewrite E.
  - rewrite append_item_app_none by exact E. simpl. rewrite Str_eqb_refl.
    unfold values, records. rewrite map_app, flat_map_app. simpl.
    symmetry. apply Permutation_cons_append.
Qed.

Lemma records_nil (r : Result) :
  groups_ok r -> (records (values r) = [] <-> r = []).
Proof.
  intros Hr. split; [|now intros ->].
  destruct Hr as [|[k fc] r [_ Hi] _]; [reflexivity|].
  simpl in *. destruct (items fc); [congruence | discriminate].
Qed.

Lemma append_items_ok (f : Str) (its : list dict) :
  forall r, groups_ok r -> groups_ok (append_items f its r).
Proof.
  induction its as [|it its IH]; intros r Hr; simpl; [exact Hr|].
  apply IH, append_item_ok, Hr.
Qed.

Lemma append_items_in_result (f g : Str) (its : list dict) :
  forall r, in_result g (append_items f its r) = in_result g r.
Proof.
  induction its as [|it its IH]; intros r; simpl; [reflexivity|].
  now rewrite IH, append_item_in_result.
Qed.

Lemma append_items_app (f : Str) (a b : list dict) (r : Result) :
  append_items f (a ++ b) r = append_items f b (append_items f a r).
Proof. unfold append_items. apply fold_left_app. Qed.

Lemma records_append_items (f : Str) (its : list dict) :
  forall r, groups_ok r -> in_result f r = true ->
  Permutation (records (values (append_items f its r)))
              (map (pair f) its ++ records (values r)).
Proof.
  induction its as [|it its IH]; intros r Hr Hin; simpl; [reflexivity|].
  rewrite IH; [|now apply append_item_ok | now rewrite append_item_in_result].
  rewrite (records_append_item f it r Hr Hin).
  symmetry. apply Permutation_middle.
Qed.

(** ** The submatch expansion *)

Section ExpansionFacts.

Variable lower : Str -> Str.
Context {Regex : Type}.
Variable finditer : Regex -> Str -> Z -> list Z.
Context {P : Type} {process_P : Process P}.

Lemma appended_nil (f : Str) (st : @St P) : appended f [] st st.
Proof. unfold appended, len. simpl. repeat split; lia. Qed.

Lemma appended_cons (f : Str) (it : dict) (its : list dict) (st st1 st' : @St P) :
  appended f [it] st st1 -> appended f its st1 st' ->
  appended f (it :: its) st st'.
Proof.
  unfold appended, len. simpl.
  intros (R1 & L1 & O1 & P1) (R2 & L2 & O2 & P2).
  rewrite R2, R1, L2, L1, O2, O1, P2, P1. repeat split. lia.
Qed.

(** The record the expansion builds for a match that starts at the
    character offset [start]. *)
Lemma expanded_item_intro (text : Str) (lnum start : Z) (bs b : Bytes) :
  utf8_encode text = Some bs ->
  utf8_encode (slice_to text start) = Some b ->
  expanded_item text lnum bs
    (dict_set (dict_set (dict_set [] "text" (PStr text)) "lnum" (PInt lnum))
              "cnum" (PInt (len b + 1))).
Proof.
  intros Ebs Eb. destruct (slice_to_firstn text start) as [k Hk].
  rewrite Hk in Eb.
  destruct (encode_prefix_boundary text k bs b Ebs Eb) as [Hr Hb].
  exists (len b + 1). split; [reflexivity|]. split; [lia|].
  now replace (len b + 1 - 1) with (len b) by lia.
Qed.

Lemma literal_loop_appended (ctx : Ctx) (f text : Str) (lnum : Z) (bs : Bytes) :
  utf8_encode text = Some bs ->
  forall fuel move (st st' : @St P),
    literal_loop lower fuel ctx f text lnum move st = Some (inr st') ->
    exists its, appended f its st st'
                /\ Forall (expanded_item text lnum bs) its.
Proof.
  intros Ebs. induction fuel as [|fuel IH]; intros move st st' E; [discriminate|].
  cbn [literal_loop] in E.
  destruct (next_occurrence lower ctx text move =? -1).
  - injection E as <-. exists []. split; [apply appended_nil | constructor].
  - destruct (utf8_encode (slice_to text (next_occurrence lower ctx text move)))
      as [b|] eqn:Eb; [|discriminate].
    pose proof (expanded_item_intro text lnum _ bs b Ebs Eb) as Hit.
    cbn [limit] in E.
    match type of E with
    | (if _ then Some (inr ?s) else _) = _ =>
        assert (H1 : appended f [dict_set (dict_set (dict_set [] "text" (PStr text))
                                             "lnum" (PInt lnum))
                                   "cnum" (PInt (len b + 1))] st s)
          by (unfold appended, len; simpl; repeat split; lia)
    end.
    destruct (limit st - 1 <=? 0).
    + injection E as <-. eexists. split; [exact H1 | now constructor].
    + apply IH in E as (its & Ha & Hf).
      eexists. split; [eapply appended_cons; eauto | now constructor].
Qed.

Lemma regex_loop_appended (f text : Str) (lnum : Z) (bs : Bytes) :
  utf8_encode text = Some bs ->
  forall starts (st st' : @St P),
    regex_loop f text lnum starts st = inr st' ->
    exists its, appended f its st st'
                /\ Forall (expanded_item text lnum bs) its.
Proof.
  intros Ebs. induction starts as [|start rest IH]; intros st st' E;
    cbn [regex_loop] in E.
  - injection E as <-. exists []. split; [apply appended_nil | constructor].
  - destruct (utf8_encode (slice_to text start)) as [b|] eqn:Eb; [|discriminate].
    pose proof (expanded_item_intro text lnum _ bs b Ebs Eb) as Hit.
    cbn [limit] in E.
    match type of E with
    | (if _ then inr ?s else _) = _ =>
        assert (H1 : appended f [dict_set (dict_set (dict_set [] "text" (PStr text))
                                             "lnum" (PInt lnum))
                                   "cnum" (PInt (len b + 1))] st s)
          by (unfold appended, len; simpl; repeat split; lia)
    end.
    destruct (limit st - 1 <=? 0).
    + injection E as <-. eexists. split; [exact H1 | now constructor].
    + apply IH in E as (its & Ha & Hf).
      eexists. split; [eapply appended_cons; eauto | now constructor].
Qed.

Lemma expand_appended
  (ctx : Ctx) (cpat : option Regex) (file_name text : Str) (lnum cnum : Z)
  (st st' : @St P) :
  expand lower finditer ctx cpat file_name text lnum cnum st = Some (inr st') ->
  exists bs its,
    utf8_encode text = Some bs
    /\ appended file_name its st st'
    /\ Forall (expanded_item text lnum bs) its.
Proof.
  unfold expand. intros Hexp.
  destruct (utf8_encode text) as [bs|] eqn:Ebs; [|discriminate].
  destruct (utf8_decode (slice_to bs (cnum - 1))) as [s|]; [|discriminate].
  exists bs. destruct (py_eq (regex ctx) (PStr (str "0"))).
  - destruct (literal_loop_appended ctx file_name text lnum bs Ebs _ _ _ _ Hexp)
      as (its & Ha & Hf). eauto.
  - destruct cpat as [r|]; [|discriminate]. injection Hexp as Hexp.
    destruct (regex_loop_appended file_name text lnum bs Ebs _ _ _ Hexp)
      as (its & Ha & Hf). eauto.
Qed.


(** The literal search has the fuel it needs. *)
Lemma next_occurrence_range (ctx : Ctx) (text : Str) (move : Z) :
  0 <= move ->
  next_occurrence lower ctx text move = -1
  \/ move <= next_occurrence lower ctx text move <= len (haystack lower ctx text).
Proof.
  intros Hm. unfold next_occurrence, haystack.
  destruct (py_eq (case_sensitive ctx) (PStr (str "0")));
    now apply str_find_range.
Qed.

Lemma literal_loop_total (ctx : Ctx) (f text : Str) (lnum : Z) :
  forall fuel move (st : @St P),
    0 <= move -> (1 <= fuel)%nat ->
    len (haystack lower ctx text) + 2 - move <= Z.of_nat fuel ->
    exists r, literal_loop lower fuel ctx f text lnum move st = Some r.
Proof.
  induction fuel as [|fuel IH]; intros move st Hm H1 Hf; [lia|].
  cbn [literal_loop].
  destruct (Z.eqb_spec (next_occurrence lower ctx text move) (-1)); [eauto|].
  destruct (utf8_encode _); [|eauto].
  match goal with |- context [if ?c then _ else _] => destruct c end; [eauto|].
  destruct (next_occurrence_range ctx text move Hm) as [E|E]; [contradiction|].
  apply IH; lia.
Qed.

Lemma literal_loop_fuel_mono (ctx : Ctx) (f text : Str) (lnum : Z) :
  forall fuel fuel' move (st : @St P) r,
    (fuel <= fuel')%nat ->
    literal_loop lower fuel ctx f text lnum move st = Some r ->
    literal_loop lower fuel' ctx f text lnum move st = Some r.
Proof.
  induction fuel as [|fuel IH]; intros fuel' move st r Hle E; [discriminate|].
  destruct fuel' as [|fuel']; [lia|].
  cbn [literal_loop] in *.
  destruct (next_occurrence lower ctx text move =? -1); [exact E|].
  destruct (utf8_encode _); [|exact E].
  match goal with |- context [if ?c then _ else _] => destruct c end; [exact E|].
  eapply IH; [|exact E]. lia.
Qed.

Lemma expand_total (ctx : Ctx) (cpat : option Regex) (f text : Str)
  (lnum cnum : Z) (st : @St P) :
  exists r, expand lower finditer ctx cpat f text lnum cnum st = Some r.
Proof.
  unfold expand. destruct (utf8_encode text); [|eauto].
  destruct (utf8_decode _) as [s|]; [|eauto].
  destruct (py_eq (regex ctx) (PStr (str "0"))).
  - apply literal_loop_total; unfold len, haystack in *; try lia.
    destruct (py_eq (case_sensitive ctx) (PStr (str "0"))); lia.
  - destruct cpat; eauto.
Qed.

(** One pass of the colon-delimited loop always ends. *)
Lemma colon_iter_total (ctx : Ctx) (cpat : option Regex) (st : @St P) :
  exists o, colon_iter lower finditer ctx cpat st = Some o.
Proof.
  unfold colon_iter.
  destruct (stdout_readline (the_proc st)) as [line p].
  destruct (utf8_decode line) as [s|]; [|eauto].
  destruct (rstrip s) as [|c l]; [eauto|].
  destruct (split_colon 3 (c :: l)) as [|a [|b [|x [|y [|z t]]]]]; eauto.
  destruct (py_int b); [eauto|]. destruct (py_int x); [eauto|].
  destruct (out_of_range _ _); [eauto|].
  destruct (len y >? max_columns ctx); [eauto|].
  destruct (dedup _ _); [|eauto].
  destruct (py_eq (submatch_type ctx) _); [|eauto].
  match goal with |- context [expand ?a ?b ?c ?d ?e ?f ?g ?h ?i] =>
    destruct (expand_total c d e f g h i) as [[?|?] ->] end; eauto.
Qed.

End ExpansionFacts.

(** ** What the loops do to the state *)

Lemma add_all_app (a b : list (Str * dict)) (r : Result) :
  add_all (a ++ b) r = add_all b (add_all a r).
Proof. unfold add_all. apply fold_left_app. Qed.

Lemma add_all_ok (recs : list (Str * dict)) :
  forall r, groups_ok r -> groups_ok (add_all recs r).
Proof.
  induction recs as [|x recs IH]; intros r Hr; simpl; [exact Hr|].
  apply IH, add_item_ok, Hr.
Qed.

Lemma records_add_all (recs : list (Str * dict)) :
  forall r, groups_ok r ->
  Permutation (records (values (add_all recs r))) (recs ++ records (values r)).
Proof.
  induction recs as [|[f it] recs IH]; intros r Hr; simpl; [reflexivity|].
  rewrite IH by now apply add_item_ok.
  rewrite (records_add_item f it r Hr). symmetry. apply Permutation_middle.
Qed.

Lemma add_all_length (recs : list (Str * dict)) :
  forall r, (length r <= length (add_all recs r))%nat.
Proof.
  induction recs as [|[f it] recs IH]; intros r; simpl; [lia|].
  etransitivity; [|apply IH]. rewrite append_item_length.
  unfold ensure_file. destruct (in_result f r); [lia|].
  rewrite length_app. simpl. lia.
Qed.

Lemma ensure_file_in (f : Str) (r : Result) :
  in_result f r = true -> ensure_file f r = r.
Proof. unfold ensure_file. now intros ->. Qed.

Lemma append_items_add_all (f : Str) (its : list dict) :
  forall r, in_result f r = true ->
  append_items f its r = add_all (map (pair f) its) r.
Proof.
  induction its as [|it its IH]; intros r Hin; simpl; [reflexivity|].
  rewrite (ensure_file_in f r Hin).
  apply IH. now rewrite append_item_in_result.
Qed.

Lemma item_idx_eqb_eq (a b : item_idx) : item_idx_eqb a b = true <-> a = b.
Proof.
  destruct a as [[f1 l1] c1], b as [[f2 l2] c2]. unfold item_idx_eqb.
  rewrite !andb_true_iff, Str_eqb_eq, !Z.eqb_eq.
  split; [intros [[-> ->] ->]; reflexivity | intros [= -> -> ->]; auto].
Qed.

Lemma existsb_item_idx (k : item_idx) (l : list item_idx) :
  existsb (item_idx_eqb k) l = false -> ~ In k l.
Proof.
  intros E Hin. assert (existsb (item_idx_eqb k) l = true); [|congruence].
  apply existsb_exists. exists k. split; [exact Hin | now apply item_idx_eqb_eq].
Qed.

Lemma tracked_nil (l l' : list item_idx) : tracked l [] l'.
Proof. exists []. repeat split; [constructor | contradiction | contradiction]. Qed.

Lemma tracked_app l recs1 l1 recs2 l2 :
  incl l l1 -> incl l1 l2 ->
  tracked l recs1 l1 -> tracked l1 recs2 l2 -> tracked l (recs1 ++ recs2) l2.
Proof.
  intros I1 I2 (k1 & E1 & N1 & F1) (k2 & E2 & N2 & F2).
  exists (k1 ++ k2). rewrite !map_app, E1, E2. split; [reflexivity|]. split.
  - apply NoDup_app; auto.
    intros k H1 H2. destruct (F1 k H1) as [_ Hin]. destruct (F2 k H2) as [Hn _].
    contradiction.
  - intros k Hin. apply in_app_or in Hin as [Hin|Hin].
    + destruct (F1 k Hin). split; auto.
    + destruct (F2 k Hin). split; auto.
Qed.

Lemma seen_rel_refl d o : seen_rel d [] o o.
Proof.
  destruct o; simpl; [|exact I].
  split; [apply incl_refl | intros _; apply tracked_nil].
Qed.

Lemma seen_rel_trans d r1 r2 o o1 o2 :
  seen_rel d r1 o o1 -> seen_rel d r2 o1 o2 -> seen_rel d (r1 ++ r2) o o2.
Proof.
  destruct o, o1, o2; simpl; try tauto.
  intros [I1 T1] [I2 T2]. split; [eapply incl_tran; eauto|].
  intros Hd. eapply tracked_app; eauto.
Qed.

Lemma seen_rel_weaken d recs o o' :
  seen_rel d recs o o' -> seen_rel false recs o o'.
Proof.
  destruct o, o'; simpl; try tauto. intros [I1 _]. split; [exact I1|discriminate].
Qed.

Section LoopFacts.

Variable lower : Str -> Str.
Context {Regex : Type}.
Variable re_compile : Str -> bool -> Str + Regex.
Variable finditer : Regex -> Str -> Z -> list Z.
Variable json_loads : Str -> option json.
Context {P : Type} {process_P : Process P}.

Lemma summary_refl shape d (st : @St P) : summary shape d st st.
Proof.
  exists []. unfold len. simpl. repeat split; try lia; try constructor.
  apply seen_rel_refl.
Qed.

Lemma summary_trans shape d (st st1 st2 : @St P) :
  summary shape d st st1 -> summary shape d st1 st2 -> summary shape d st st2.
Proof.
  intros (r1 & R1 & L1 & F1 & S1) (r2 & R2 & L2 & F2 & S2).
  exists (r1 ++ r2). rewrite R2, R1, L2, L1, add_all_app.
  unfold len. rewrite length_app. repeat split; try lia.
  - apply Forall_app. auto.
  - eapply seen_rel_trans; eauto.
Qed.

(** Only the process changed. *)
Lemma summary_same shape d (st st' : @St P) :
  result st' = result st -> limit st' = limit st ->
  one_file_result st' = one_file_result st ->
  summary shape d st st'.
Proof.
  intros R L O. exists []. unfold len. simpl. rewrite R, L, O.
  repeat split; try lia; try constructor. apply seen_rel_refl.
Qed.

Lemma summary_weaken shape d (st st' : @St P) :
  summary shape d st st' -> summary shape false st st'.
Proof.
  intros (r & R & L & F & S). exists r. repeat split; auto.
  eapply seen_rel_weaken; eauto.
Qed.

(** One record filed under the guard of [dedup]. *)
Lemma summary_one shape (f : Str) (l c : Z) (it : dict) seen (st st' : @St P) :
  shape it ->
  key_of (f, it) = Some (f, l, c) ->
  dedup (f, l, c) (one_file_result st) = Some seen ->
  result st' = append_item f it (ensure_file f (result st)) ->
  limit st' = limit st - 1 ->
  one_file_result st' = seen ->
  summary shape true st st'.
Proof.
  intros Hs Hk Hd R L O. exists [(f, it)]. unfold len. simpl.
  repeat split; auto. rewrite O. unfold dedup in Hd.
  destruct (one_file_result st) as [seen0|].
  - destruct (existsb _ seen0) eqn:E; [discriminate|].
    injection Hd as <-. simpl. split; [now apply incl_appl, incl_refl|].
    intros _. exists [(f, l, c)]. simpl. rewrite Hk.
    split; [reflexivity|]. split; [repeat constructor; intros []|].
    intros k [<-|[]]. split; [now apply existsb_item_idx|].
    apply in_or_app. right. now left.
  - injection Hd as <-. exact I.
Qed.

(** The key was only noted, no record filed. *)
Lemma summary_noted shape (idx : item_idx) seen (st st' : @St P) :
  dedup idx (one_file_result st) = Some seen ->
  result st' = result st -> limit st' = limit st ->
  one_file_result st' = seen ->
  summary shape true st st'.
Proof.
  intros Hd R L O. exists []. unfold len. simpl. rewrite R, L, O.
  repeat split; try lia; try constructor. unfold dedup in Hd.
  destruct (one_file_result st) as [seen0|].
  - destruct (existsb _ seen0); [discriminate|]. injection Hd as <-.
    simpl. split; [now apply incl_appl, incl_refl | intros _; apply tracked_nil].
  - injection Hd as <-. exact I.
Qed.

Lemma rg_submatches_summary (ctx : Ctx) (f : Str) (lnum : Z) (text : Str) :
  forall subs (st st' : @St P),
    rg_submatches ctx f lnum text subs st = inr st' ->
    summary rg_item true st st' /\ the_proc st' = the_proc st.
Proof.
  induction subs as [|sub subs IH]; intros st st' E; cbn [rg_submatches] in E.
  - injection E as <-. split; [apply summary_refl | reflexivity].
  - destruct (getitem sub "match") as [|m]; [discriminate|].
    destruct (getitem m "text") as [|m']; [discriminate|].
    destruct (as_str m') as [|match_]; [discriminate|].
    destruct (getitem sub "start") as [|s]; [discriminate|].
    destruct (as_int s) as [|start]; [discriminate|].
    destruct (dedup (f, lnum, start + 1) (one_file_result st)) as [seen|] eqn:Ed.
    + destruct (out_of_range (range_ ctx) lnum);
        apply IH in E as [Hs Hp]; cbn [the_proc] in Hp; (split; [|exact Hp]);
        (eapply summary_trans; [|exact Hs]).
      * eapply summary_noted; eauto.
      * eapply (summary_one rg_item f lnum (start + 1)); eauto; cbn; eauto.
        all: try (unfold rg_item; eauto 8).
    + now apply IH in E.
Qed.

Lemma rg_match_summary (ctx : Ctx) (item : json) (st : @St P) :
  summary rg_item true st (state_of (rg_match ctx item st))
  /\ is_return (rg_match ctx item st) = false.
Proof.
  unfold rg_match.
  repeat match goal with
         | |- context [match getitem ?a ?b with _ => _ end] =>
             destruct (getitem a b) as [[]|?]
         | |- context [match as_str ?a with _ => _ end] =>
             destruct (as_str a)
         | |- context [match as_int ?a with _ => _ end] =>
             destruct (as_int a)
         | |- context [match iter_submatches ?a with _ => _ end] =>
             destruct (iter_submatches a)
         | |- context [if ?c then _ else _] => destruct c
         end; cbn [state_of is_return];
    try (split; [apply summary_refl | reflexivity]).
  all: match goal with
       | |- context [rg_submatches ?a ?b ?c ?d ?e ?f] =>
           destruct (rg_submatches a b c d e f) as [|st'] eqn:E
       end; cbn [state_of is_return];
    try (split; [apply summary_refl | reflexivity]).
  all: split; [|reflexivity]; now apply rg_submatches_summary in E.
Qed.

Lemma not_return_ok (o : step (@St P)) : is_return o = false -> return_ok o.
Proof. destruct o; simpl; auto. discriminate. Qed.

Lemma on_empty_line_summary shape d (st : @St P) :
  summary shape d st (state_of (on_empty_line st))
  /\ return_ok (on_empty_line st).
Proof.
  unfold on_empty_line.
  destruct (length (result st) =? 0)%nat eqn:El.
  - apply Nat.eqb_eq in El.
    assert (result st = []) by (destruct (result st); [reflexivity|discriminate]).
    destruct (stderr_line (the_proc st)) as [err p].
    destruct err as [|b err].
    + destruct (proc_poll _) as [[code|] p']; cbn;
        (split; [now apply summary_same | auto]).
    + destruct (utf8_decode (b :: err)); cbn;
        (split; [now apply summary_same | eauto]).
  - destruct (proc_poll _) as [[code|] p']; cbn;
      (split; [now apply summary_same | auto]).
Qed.

Lemma rg_iter_summary (ctx : Ctx) (st : @St P) :
  summary rg_item true st (state_of (rg_iter json_loads ctx st))
  /\ return_ok (rg_iter json_loads ctx st).
Proof.
  unfold rg_iter. destruct (stdout_readline (the_proc st)) as [line p].
  set (st1 := set_the_proc st p).
  assert (H1 : summary rg_item true st st1) by now apply summary_same.
  destruct (utf8_decode line) as [s|]; [|cbn; split; [exact H1 | exact I]].
  destruct (rstrip s) as [|c l].
  { destruct (on_empty_line_summary rg_item true st1) as [Hs Hret].
    split; [exact (summary_trans _ _ _ _ _ H1 Hs) | exact Hret]. }
  destruct (json_loads (c :: l)) as [item|];
    [|cbn; split; [exact H1 | exact I]].
  destruct item; try (cbn; split; [exact H1 | exact I]).
  destruct (lookup (str "type") d) as [[]|];
    try (cbn; split; [exact H1 | exact I]).
  destruct (Str_eqb s0 (str "match")); [|cbn; split; [exact H1 | exact I]].
  destruct (rg_match_summary ctx (JDict d) st1) as [Hs Hret].
  split; [exact (summary_trans _ _ _ _ _ H1 Hs) | now apply not_return_ok].
Qed.

Lemma appended_summary (f : Str) (its : list dict) (st st' : @St P) :
  in_result f (result st) = true ->
  Forall colon_item its ->
  appended f its st st' ->
  summary colon_item false st st'.
Proof.
  intros Hin Hf (R & L & O & _). exists (map (pair f) its).
  rewrite R, L, O, append_items_add_all by exact Hin.
  unfold len. rewrite length_map. repeat split.
  - apply Forall_map. exact Hf.
  - destruct (one_file_result st); simpl; [|exact I].
    split; [apply incl_refl | discriminate].
Qed.

Lemma expanded_item_colon text lnum bs it :
  expanded_item text lnum bs it -> colon_item it.
Proof. intros (c & -> & _). unfold colon_item. eauto. Qed.

(** Whether the records of the colon-delimited loop all pass the
    [one_file_result] guard: those of the submatch expansion do not. *)
Lemma colon_iter_summary (ctx : Ctx) (cpat : option Regex) (st : @St P) o :
  colon_iter lower finditer ctx cpat st = Some o ->
  summary colon_item (negb (py_eq (submatch_type ctx) (PStr (str "first"))))
          st (state_of o)
  /\ return_ok o.
Proof.
  unfold colon_iter. destruct (stdout_readline (the_proc st)) as [line p].
  set (st1 := set_the_proc st p).
  set (d := negb _).
  assert (H1 : summary colon_item d st st1) by now apply summary_same.
  assert (Hdone : forall o', Some (Continue st1) = Some o' ->
            summary colon_item d st (state_of o') /\ return_ok o').
  { intros o' [= <-]. split; [exact H1 | exact I]. }
  assert (Hraise : forall e o', Some (Raise e st1) = Some o' ->
            summary colon_item d st (state_of o') /\ return_ok o').
  { intros e o' [= <-]. split; [exact H1 | exact I]. }
  destruct (utf8_decode line) as [s|]; [|apply Hdone].
  destruct (rstrip s) as [|c l].
  { intros [= <-].
    destruct (on_empty_line_summary colon_item d st1) as [Hs Hret].
    split; [exact (summary_trans _ _ _ _ _ H1 Hs) | exact Hret]. }
  destruct (split_colon 3 (c :: l)) as [|f [|a [|b [|text [|z t]]]]];
    try apply Hdone.
  destruct (py_int a) as [|lnum]; [apply Hraise|].
  destruct (py_int b) as [|cnum]; [apply Hraise|].
  destruct (out_of_range _ _); [apply Hdone|].
  destruct (len text >? max_columns ctx); [apply Hdone|].
  destruct (dedup _ _) as [seen|] eqn:Ed; [|apply Hdone].
  match goal with
  | |- context [expand _ _ _ _ _ _ _ _ ?s] => set (st2 := s)
  end.
  assert (H2 : summary colon_item true st1 st2).
  { apply (summary_one colon_item f lnum cnum
             (dict_set (dict_set (dict_set [] "text" (PStr text))
                                 "lnum" (PInt lnum)) "cnum" (PInt cnum)) seen);
      [ unfold colon_item; cbn; eauto | reflexivity | exact Ed
      | reflexivity | reflexivity | reflexivity ]. }
  assert (H12 : summary colon_item d st st2).
  { eapply summary_trans; [exact H1|].
    destruct d; [exact H2 | exact (summary_weaken _ _ _ _ H2)]. }
  subst d. destruct (py_eq (submatch_type ctx) (PStr (str "first"))); cbn [negb] in *.
  - destruct (expand _ _ _ _ _ _ _ _ _) as [[e|st3]|] eqn:Ex; [| |discriminate].
    + intros [= <-]. split; [exact H12 | exact I].
    + intros [= <-]. split; [|exact I]. cbn [state_of].
      apply expand_appended in Ex as (bs & its & _ & Ha & Hf).
      eapply summary_trans; [exact H12|].
      eapply appended_summary; [|  |exact Ha].
      * apply add_item_in_result.
      * eapply Forall_impl; [|exact Hf]. intros it. apply expanded_item_colon.
  - intros [= <-]. split; [exact H12 | exact I].
Qed.

(** The summary of the passes is the summary of the loop, and a loop
    that returns from inside returns an error with an empty result. *)
Lemma while_limit_summary shape d (body : @St P -> option (step (@St P))) :
  (forall st o, body st = Some o ->
     summary shape d st (state_of o) /\ return_ok o) ->
  forall fuel st o,
    while_limit body fuel st = Some o ->
    summary shape d st (state_of o) /\ return_ok o.
Proof.
  intros Hbody. induction fuel as [|fuel IH]; intros st o E; [discriminate|].
  cbn [while_limit] in E. destruct (limit st >? 0).
  - destruct (body st) as [o1|] eqn:Eb; [|discriminate].
    destruct (Hbody st o1 Eb) as [Hs Hr].
    destruct o1 as [st1| | |]; try (injection E as <-; split; assumption).
    destruct (IH st1 o E) as [Hs' Hr'].
    split; [exact (summary_trans _ _ _ _ _ Hs Hs') | exact Hr'].
  - injection E as <-. split; [apply summary_refl | exact I].
Qed.

Lemma summary_result_nil shape d (st st' : @St P) :
  summary shape d st st' -> result st' = [] -> result st = [].
Proof.
  intros (recs & R & _) E. pose proof (add_all_length recs (result st)) as Hl.
  rewrite <- R, E in Hl. destruct (result st); [reflexivity | simpl in Hl; lia].
Qed.

End LoopFacts.

(** ** The result of [search] *)

Section SearchFacts.

Variable lower : Str -> Str.
Context {Regex : Type}.
Variable re_compile : Str -> bool -> Str + Regex.
Variable finditer : Regex -> Str -> Z -> list Z.
Variable json_loads : Str -> option json.
Context {P : Type} {process_P : Process P}.

Lemma loop_body_summary (ctx : Ctx) (cpat : option Regex) (st : @St P) o :
  loop_body lower finditer json_loads ctx cpat st = Some o ->
  summary (item_shape ctx) (all_deduped ctx) st (state_of o) /\ return_ok o.
Proof.
  unfold loop_body, item_shape, all_deduped.
  destruct (Normalizer.is_rg (source ctx)); cbn [orb].
  - intros [= <-]. apply rg_iter_summary.
  - apply colon_iter_summary.
Qed.

(** How [search] ends: it returns the groups of the state its loop
    ended in, or an error with no record filed, or an exception
    escapes. *)
Lemma search_outcome (fuel : nat) (ctx : Ctx) (w : Str)
  (seen : option (list item_idx)) (p : P) (o : step (@St P)) :
  search lower re_compile finditer json_loads fuel ctx w seen p = Some o ->
  exists st_end,
    summary (item_shape ctx) (all_deduped ctx) (initial ctx seen p) st_end
    /\ (o = Return (Items w (values (result st_end)))
                   (set_the_proc st_end (proc_terminate (the_proc st_end)))
        \/ (exists e, o = Return (Error e) st_end /\ result st_end = [])
        \/ (exists e, o = Raise e st_end)).
Proof.
  unfold search. fold (initial ctx seen p).
  assert (Hloop : forall cpat o1,
    while_limit (loop_body lower finditer json_loads ctx cpat) fuel
                (initial ctx seen p) = Some o1 ->
    match o1 with
    | Break st | Continue st =>
        Some (Return (Items w (values (result st)))
                     (set_the_proc st (proc_terminate (the_proc st))))
    | other => Some other
    end = Some o ->
    exists st_end,
      summary (item_shape ctx) (all_deduped ctx) (initial ctx seen p) st_end
      /\ (o = Return (Items w (values (result st_end)))
                     (set_the_proc st_end (proc_terminate (the_proc st_end)))
          \/ (exists e, o = Return (Error e) st_end /\ result st_end = [])
          \/ (exists e, o = Raise e st_end))).
  { intros cpat o1 E Ho.
    apply (while_limit_summary (item_shape ctx) (all_deduped ctx)) in E;
      [|apply loop_body_summary].
    destruct E as [Hs Hr].
    destruct o1 as [st1|st1|r st1|e st1]; injection Ho as <-;
      exists st1; (split; [exact Hs|]); auto.
    - destruct Hr as [Hnil [e ->]]. right. left. eauto.
    - right. right. eauto. }
  unfold loop_body in Hloop.
  destruct (Normalizer.is_rg (source ctx)) eqn:Erg.
  - destruct (while_limit _ fuel _) as [o1|] eqn:E; [|discriminate].
    first [apply (Hloop None o1 E) | apply (Hloop None o1 eq_refl)].
  - destruct (compile_cpat re_compile ctx) as [e|cpat].
    + intros [= <-]. exists (initial ctx seen p).
      split; [apply summary_refl|]. right. left. eauto.
    + destruct (while_limit _ fuel _) as [o1|] eqn:E; [|discriminate].
      first [apply (Hloop cpat o1 E) | apply (Hloop cpat o1 eq_refl)].
Qed.

Lemma rg_item_fields it :
  rg_item it ->
  has_field it "lnum" = true /\ has_field it "cnum" = true
  /\ has_field it "text" = true /\ has_field it "match" = true.
Proof. intros (l & c & t & m & ->). repeat split. Qed.

Lemma colon_item_fields it :
  colon_item it ->
  has_field it "lnum" = true /\ has_field it "cnum" = true
  /\ has_field it "text" = true /\ has_field it "match" = false.
Proof. intros (t & l & c & ->). repeat split. Qed.

(** C8, as amended (fields of the item records). Every item record of
    a result that [search] returns has the fields [lnum], [cnum] and
    [text]; it has the field [match] in structured-record mode (the rg
    family) and has no such field in colon-delimited mode, the records
    of the submatch expansion included. *)
Theorem items_fields_by_mode (fuel : nat) (ctx : Ctx) (w : Str)
  (seen : option (list item_idx)) (p : P) (w' : Str)
  (groups : list file_ctx) (st : @St P)
  (Hrun : search lower re_compile finditer json_loads fuel ctx w seen p
          = Some (Return (Items w' groups) st)) :
  Forall (fun r =>
            has_field (snd r) "lnum" = true
            /\ has_field (snd r) "cnum" = true
            /\ has_field (snd r) "text" = true
            /\ has_field (snd r) "match" = Normalizer.is_rg (source ctx))
         (records groups).
Proof.
  apply search_outcome in Hrun as (st_end & (recs & R & _ & Hshape & _) & Ho).
  destruct Ho as [Ho|[(e & Ho & _)|(e & Ho)]]; try discriminate.
  injection Ho as _ -> _. cbn [initial result] in R. rewrite R.
  assert (Hp : Permutation (records (values (add_all recs []))) recs).
  { rewrite records_add_all by constructor. now rewrite app_nil_r. }
  eapply Permutation_Forall; [symmetry; exact Hp|].
  eapply Forall_impl; [|exact Hshape].
  intros r Hr. unfold item_shape in Hr.
  destruct (Normalizer.is_rg (source ctx)).
  - now apply rg_item_fields.
  - now apply colon_item_fields.
Qed.


End SearchFacts.

(** ** The properties on concrete runs *)

Lemma items_fields_by_mode_witness :
  Forall (fun r =>
            has_field (snd r) "lnum" = true
            /\ has_field (snd r) "cnum" = true
            /\ has_field (snd r) "text" = true
            /\ has_field (snd r) "match" = true)
         (records (groups_of (run 10 (rg_ctx 5) None (exited (line "{}") [] 0))))
  /\ len (records (groups_of (run 10 (rg_ctx 5) None (exited (line "{}") [] 0))))
     = 2.
Proof.
  split; [|vm_compute; reflexivity].
  eapply (items_fields_by_mode lower re_compile finditer json_loads
            10 (rg_ctx 5) [] None (exited (line "{}") [] 0)).
  vm_compute. reflexivity.
Defined.

(** C8, counterexample to the claim as stated: the record of a
    colon-delimited line has no [match] field. *)
Lemma fields_as_specified_fails :
  ~ fields_as_specified lower re_compile finditer json_loads
      10 (ag_ctx 5 PNone (PStr (str "1"))) [] None
      (exited (line "a.py:1:1:foo") [] 0).
Proof.
  intros Hspec.
  specialize (Hspec _ _ _ eq_refl).
  vm_compute in Hspec. inversion Hspec as [|? ? (_ & _ & _ & Hm) _].
  discriminate Hm.
Qed.



(** C1 (limit), the code at the failing inputs. With [limit = 1], a
    colon-delimited line whose text holds the pattern twice gives two
    records under the submatch strategy ["first"], and a structured
    record with two submatches gives two records: in both loops more
    records are returned than the limit allows. *)
Theorem limit_overshoot :
  let colon := run 10 (ag_ctx 1 (PStr (str "first")) (PStr (str "1"))) None
                   (exited (line "a.py:1:1:foo foo") [] 0) in
  let rg := run 10 (rg_ctx 1) None (exited (line "{}") [] 0) in
  len (records (groups_of colon)) = 2
  /\ len (records (groups_of rg)) = 2
  /\ ~ limit_as_specified lower re_compile finditer json_loads
         10 (ag_ctx 1 (PStr (str "first")) (PStr (str "1"))) [] None
         (exited (line "a.py:1:1:foo foo") [] 0)
  /\ ~ limit_as_specified lower re_compile finditer json_loads
         10 (rg_ctx 1) [] None (exited (line "{}") [] 0).
Proof.
  cbv zeta. split; [vm_compute; reflexivity|].
  split; [vm_compute; reflexivity|].
  split; intros Hspec; specialize (Hspec _ _ _ eq_refl);
    vm_compute in Hspec; apply Hspec; reflexivity.
Qed.

(** C6 (colon-delimited scenario). With pattern [foo], literal and
    case-sensitive matching, submatch strategy ["first"] and limit 5 (no
    line range, 200 columns allowed), the line
    [src/a.py:10:5:foo bar foo] gives exactly two records, the primary
    one at line 10, column 5 with text [foo bar foo] and one expanded
    record at byte column 9, and leaves the limit at 3; [search] then
    returns these two records in the group of [src/a.py].  This holds
    for every [str.lower] and every regular expression engine. *)
Theorem colon_scenario
  (lower : Str -> Str) (Regex : Type)
  (re_compile : Str -> bool -> Str + Regex)
  (finditer : Regex -> Str -> Z -> list Z)
  (json_loads : Str -> option json) (cpat : option Regex) :
  let ctx := ag_ctx 5 (PStr (str "first")) (PStr (str "1")) in
  let p := exited (line "src/a.py:10:5:foo bar foo") [] 0 in
  let group :=
    {| fname := str "src/a.py";
       items := [[("text"%string, PStr (str "foo bar foo"));
                  ("lnum"%string, PInt 10); ("cnum"%string, PInt 5)];
                 [("text"%string, PStr (str "foo bar foo"));
                  ("lnum"%string, PInt 10); ("cnum"%string, PInt 9)]] |} in
  let st := {| limit := 3; result := [(str "src/a.py", group)];
               one_file_result := None; the_proc := exited [] [] 0 |} in
  colon_iter lower finditer ctx cpat (initial ctx None p) = Some (Continue st)
  /\ search lower re_compile finditer json_loads 2 ctx [] None p
     = Some (Return (Items [] [group]) st).
Proof.
  cbv zeta. split; vm_compute; reflexivity.
Qed.


(** ** Errors of the backend *)

Section ErrorFacts.

Variable lower : Str -> Str.
Context {Regex : Type}.
Variable finditer : Regex -> Str -> Z -> list Z.
Variable json_loads : Str -> option json.
Context {P : Type} {process_P : Process P}.

(** A pass that reads an empty line is [on_empty_line], in both
    loops. *)
Lemma loop_body_on_empty (ctx : Ctx) (cpat : option Regex) (st : @St P)
  (line : Bytes) (p1 : P) (s : Str) :
  stdout_readline (the_proc st) = (line, p1) ->
  utf8_decode line = Some s ->
  rstrip s = [] ->
  loop_body lower finditer json_loads ctx cpat st
  = Some (on_empty_line (set_the_proc st p1)).
Proof.
  intros Hline Hdec Hend. unfold loop_body, rg_iter, colon_iter.
  rewrite Hline, Hdec, Hend. now destruct (Normalizer.is_rg (source ctx)).
Qed.

Lemma length_zero_nil {A} (l : list A) :
  (length l =? 0)%nat = true <-> l = [].
Proof.
  destruct l; simpl; split; intros; try reflexivity; discriminate.
Qed.

Lemma on_empty_line_no_records (st : @St P) :
  result st = [] ->
  on_empty_line st =
    match fst (stderr_line (the_proc st)) with
    | _ :: _ =>
        match utf8_decode (fst (stderr_line (the_proc st))) with
        | Some e => Return (Error e)
                      (set_the_proc st (snd (stderr_line (the_proc st))))
        | None => Raise UnicodeDecodeError
                      (set_the_proc st (snd (stderr_line (the_proc st))))
        end
    | [] =>
        match fst (proc_poll (snd (stderr_line (the_proc st)))) with
        | Some _ =>
            Break (set_the_proc st
                     (snd (proc_poll (snd (stderr_line (the_proc st))))))
        | None =>
            Continue (set_the_proc st
                        (snd (proc_poll (snd (stderr_line (the_proc st))))))
        end
    end.
Proof.
  intros E. unfold on_empty_line. rewrite E. cbn [length Nat.eqb].
  destruct (stderr_line (the_proc st)) as [err p]. cbn [fst snd].
  destruct err as [|b err].
  - cbn [the_proc set_the_proc]. destruct (proc_poll p) as [[c|] p']; reflexivity.
  - destruct (utf8_decode (b :: err)); reflexivity.
Qed.

Lemma on_empty_line_with_records (st : @St P) :
  result st <> [] ->
  on_empty_line st =
    match fst (proc_poll (the_proc st)) with
    | Some _ => Break (set_the_proc st (snd (proc_poll (the_proc st))))
    | None => Continue (set_the_proc st (snd (proc_poll (the_proc st))))
    end.
Proof.
  intros E. unfold on_empty_line.
  destruct (length (result st) =? 0)%nat eqn:El.
  - apply length_zero_nil in El. contradiction.
  - destruct (proc_poll (the_proc st)) as [[c|] p']; reflexivity.
Qed.

(** Once a record is filed the loop no longer returns from inside, and
    what it has filed stays. *)
Lemma while_limit_keeps_records (ctx : Ctx) (cpat : option Regex)
  (fuel : nat) (st : @St P) (o : step (@St P)) :
  groups_ok (result st) ->
  records (values (result st)) <> [] ->
  while_limit (loop_body lower finditer json_loads ctx cpat) fuel st = Some o ->
  is_return o = false
  /\ exists recs,
       Permutation (records (values (result (state_of o))))
                   (recs ++ records (values (result st))).
Proof.
  intros Hok Hne E.
  apply (while_limit_summary (item_shape ctx) (all_deduped ctx)) in E;
    [|apply loop_body_summary].
  destruct E as [Hs Hr]. split.
  - destruct o as [| |r s|]; try reflexivity.
    destruct Hr as [Hnil _]. cbn [state_of] in Hs.
    apply (summary_result_nil _ _ _ _ Hs) in Hnil.
    rewrite Hnil in Hne. now contradiction Hne.
  - destruct Hs as (recs & R & _). exists recs. rewrite R.
    now apply records_add_all.
Qed.

End ErrorFacts.



(** ** Case sensitivity of the submatch expansion *)

Lemma py_eq_str (a : pyval) (s : Str) : py_eq a (PStr s) = true <-> a = PStr s.
Proof.
  destruct a; simpl; split; try discriminate.
  - intros E. apply Str_eqb_eq in E. now subst.
  - intros [= ->]. apply Str_eqb_refl.
Qed.

Lemma In_remove_first (x y : Str) (l : list Str) :
  In y l -> y <> x -> In y (remove_first x l).
Proof.
  intros Hin Hne. induction l as [|z l IH]; simpl in *; [contradiction|].
  destruct (Str_eqb x z) eqn:E.
  - apply Str_eqb_eq in E. subst z. destruct Hin; [congruence | assumption].
  - destruct Hin; [now left | right; auto].
Qed.

Lemma In_remove_if_present (x y : Str) (l : list Str) :
  In y l -> y <> x -> In y (Normalizer.remove_if_present x l).
Proof.
  intros. unfold Normalizer.remove_if_present.
  destruct (mem x l); [now apply In_remove_first | assumption].
Qed.

Section CaseFacts.

Variable lower : Str -> Str.
Context {Regex : Type}.
Variable re_compile : Str -> bool -> Str + Regex.
Variable finditer : Regex -> Str -> Z -> list Z.
Context {P : Type} {process_P : Process P}.

Lemma next_occurrence_sensitive (lower' : Str -> Str) (ctx : Ctx) text move :
  py_eq (case_sensitive ctx) (PStr (str "0")) = false ->
  next_occurrence lower' ctx text move = str_find text (pattern ctx) move.
Proof. unfold next_occurrence. now intros ->. Qed.

Lemma literal_loop_lower_irrel (lower' : Str -> Str) (ctx : Ctx)
  (f text : Str) (lnum : Z) :
  py_eq (case_sensitive ctx) (PStr (str "0")) = false ->
  forall fuel move (st : @St P),
    literal_loop lower' fuel ctx f text lnum move st
    = literal_loop lower fuel ctx f text lnum move st.
Proof.
  intros Hcs. induction fuel as [|fuel IH]; intros move st; [reflexivity|].
  cbn [literal_loop].
  rewrite !(next_occurrence_sensitive _ ctx text move Hcs).
  destruct (_ =? -1); [reflexivity|].
  destruct (utf8_encode _); [|reflexivity].
  match goal with |- context [if ?c then _ else _] => destruct c end;
    [reflexivity | apply IH].
Qed.

Lemma expand_lower_irrel (lower' : Str -> Str) (ctx : Ctx)
  (cpat : option Regex) (f text : Str) (lnum cnum : Z) (st : @St P) :
  py_eq (case_sensitive ctx) (PStr (str "0")) = false ->
  expand lower' finditer ctx cpat f text lnum cnum st
  = expand lower finditer ctx cpat f text lnum cnum st.
Proof.
  intros Hcs. unfold expand.
  destruct (utf8_encode text); [|reflexivity].
  destruct (utf8_decode _) as [s|]; [|reflexivity].
  destruct (py_eq (regex ctx) (PStr (str "0"))); [|reflexivity].
  set (n' := (2 + length text + length (lower' text))%nat).
  set (n := (2 + length text + length (lower text))%nat).
  assert (Hh : forall lw, haystack lw ctx text = text)
    by (intros lw; unfold haystack; now rewrite Hcs).
  destruct (literal_loop_total lower' ctx f text lnum n' (len s + 1) st)
    as [r' Hr']; [unfold len; lia | lia | rewrite Hh; unfold len, n'; lia |].
  destruct (literal_loop_total lower ctx f text lnum n (len s + 1) st)
    as [r Hr]; [unfold len; lia | lia | rewrite Hh; unfold len, n; lia |].
  rewrite Hr', Hr.
  apply (literal_loop_fuel_mono lower' ctx f text lnum n' (Nat.max n n'))
    in Hr'; [|lia].
  apply (literal_loop_fuel_mono lower ctx f text lnum n (Nat.max n n'))
    in Hr; [|lia].
  rewrite (literal_loop_lower_irrel lower' ctx f text lnum Hcs) in Hr'.
  congruence.
Qed.

Lemma colon_iter_lower_irrel (lower' : Str -> Str) (ctx : Ctx)
  (cpat : option Regex) (st : @St P) :
  py_eq (case_sensitive ctx) (PStr (str "0")) = false ->
  colon_iter lower' finditer ctx cpat st = colon_iter lower finditer ctx cpat st.
Proof.
  intros Hcs. unfold colon_iter.
  destruct (stdout_readline (the_proc st)) as [line p].
  destruct (utf8_decode line) as [s|]; [|reflexivity].
  destruct (rstrip s) as [|c l]; [reflexivity|].
  destruct (split_colon 3 (c :: l)) as [|a [|b [|x [|y [|z t]]]]]; try reflexivity.
  destruct (py_int b); [reflexivity|]. destruct (py_int x); [reflexivity|].
  destruct (out_of_range _ _); [reflexivity|].
  destruct (len y >? max_columns ctx); [reflexivity|].
  destruct (dedup _ _); [|reflexivity].
  destruct (py_eq (submatch_type ctx) _); [|reflexivity].
  now rewrite (expand_lower_irrel lower' ctx cpat a y _ _ _ Hcs).
Qed.


End CaseFacts.


(** * Further properties *)

(** ** The chunked process runner *)

Section RunnerMoreFacts.

Variable run_cmd : list Str -> Str -> Behaviour.

Lemma _next_proc_idx (s : MultiProc) :
  (file_idx s <= length (files s))%nat ->
  (file_idx s <= file_idx (_next_proc run_cmd s)
   <= length (files (_next_proc run_cmd s)))%nat.
Proof.
  intros Hi. destruct (_next_proc_frame run_cmd s) as (_ & Hf & _).
  rewrite Hf.
  destruct (Nat.le_gt_cases (length (files s)) (file_idx s)) as [E|E].
  - destruct (_next_proc_exhausted run_cmd s E) as (_ & _ & ->). lia.
  - destruct (_next_proc_spawn run_cmd s E)
      as (p & taken & rest' & _ & _ & -> & Hrest & _).
    assert (length taken <= length (files s) - file_idx s)%nat; [|lia].
    rewrite <- length_skipn, Hrest, length_app. lia.
Qed.

Lemma readline_fuel_frame (fuel : nat) :
  forall s l s',
    readline_fuel run_cmd fuel s = Some (l, s') ->
    (file_idx s <= length (files s))%nat ->
    (file_idx s <= file_idx s' <= length (files s'))%nat
    /\ files s' = files s /\ cmd s' = cmd s
    /\ ARG_MAX s' = ARG_MAX s /\ cwd s' = cwd s.
Proof.
  induction fuel as [|fuel IH]; intros s l s' E Hi; [discriminate|].
  cbn [readline_fuel] in E. destruct (proc s) as [p|] eqn:Ep.
  - unfold Popen_readline in E. destruct (split_line (p_stdout p)) as [ln r].
    destruct ln.
    + set (s1 := set_proc s _) in E.
      destruct (_next_proc_frame run_cmd s1) as (Hc & Hf & Hm & Hd).
      pose proof (_next_proc_idx s1 Hi) as Hi1.
      apply IH in E as (Hi2 & Hf2 & Hc2 & Hm2 & Hd2); [|apply Hi1].
      rewrite Hf2, Hc2, Hm2, Hd2, Hf, Hc, Hm, Hd in *.
      subst s1. cbn [set_proc file_idx files cmd ARG_MAX cwd] in *.
      repeat split; (reflexivity || lia).
    + injection E as <- <-. cbn. repeat split; (reflexivity || lia).
  - injection E as <- <-. repeat split; (reflexivity || lia).
Qed.

Lemma reachable_idx (s : MultiProc) :
  reachable run_cmd s -> (file_idx s <= length (files s))%nat.
Proof.
  induction 1 as [B c fs d | s s' Hr IH Hstep].
  - unfold init_with.
    match goal with |- context [_next_proc run_cmd ?s0] =>
      pose proof (_next_proc_idx s0) as H end.
    cbn [file_idx files] in H. apply H. lia.
  - destruct Hstep as [s l s' E | s | s | s].
    + apply readline_fuel_frame in E; [lia | exact IH].
    + unfold poll. destruct (proc s) as [p|].
      * destruct (Popen_poll p) as [[c|] p']; cbn;
          rewrite ?andb_false_r; cbn; exact IH.
      * cbn. destruct (_ && _); exact IH.
    + exact IH.
    + unfold terminate. destruct (proc s); exact IH.
Qed.

(** X1 (cursor). No operation of a runner moves its file cursor back or
    past the end of the file list, and none changes the file list, the
    base command, the budget or the working directory. *)
Theorem cursor_monotone (s s' : MultiProc)
  (Hreach : reachable run_cmd s)
  (Hstep : op_step run_cmd s s') :
  (file_idx s <= file_idx s' <= length (files s'))%nat
  /\ files s' = files s /\ cmd s' = cmd s
  /\ ARG_MAX s' = ARG_MAX s /\ cwd s' = cwd s.
Proof.
  pose proof (reachable_idx s Hreach) as Hi.
  destruct Hstep as [s l s' E | s | s | s].
  - now apply readline_fuel_frame in E.
  - unfold poll. destruct (proc s) as [p|].
    + destruct (Popen_poll p) as [[c|] p']; cbn;
        rewrite ?andb_false_r; cbn; repeat split; (reflexivity || lia).
    + cbn. destruct (_ && _); cbn; repeat split; (reflexivity || lia).
  - cbn. repeat split; (reflexivity || lia).
  - unfold terminate. destruct (proc s); cbn; repeat split; (reflexivity || lia).
Qed.

(** X2 (exit status). [poll()] of a runner answers [None] or 0 and
    nothing else: the exit codes of the children never show, and 0 is
    answered only with no child left and the file list used up. *)
Theorem poll_none_or_zero (s : MultiProc)
  (Hreach : reachable run_cmd s) :
  fst (poll s) = None
  \/ (fst (poll s) = Some 0 /\ proc s = None
      /\ (length (files s) <= file_idx s)%nat).
Proof.
  pose proof (reachable_ok run_cmd s Hreach) as Hok.
  unfold poll. destruct (proc s) as [p|] eqn:Ep.
  - left. destruct (Popen_poll p) as [[c|] p']; cbn;
      rewrite ?andb_false_r; reflexivity.
  - cbn. rewrite Ep. destruct (Hok Ep) as [Hrc Hidx].
    apply Nat.leb_le in Hidx. rewrite Hidx. cbn. right.
    rewrite Hrc. apply Nat.leb_le in Hidx. auto.
Qed.

Lemma cost_nonneg (l : list Str) : 0 <= cost l.
Proof. induction l as [|f l IH]; simpl; unfold len in *; lia. Qed.

(** The inner loop stops before a file only when that file does not fit
    any more. *)
Lemma take_chunk_maximal (B : Z) (rest : list Str) :
  forall cmd_len chunk idx chunk' idx',
    take_chunk B rest cmd_len chunk idx = (chunk', idx') ->
    exists taken rest',
      chunk' = chunk ++ taken /\ rest = taken ++ rest'
      /\ forall f r, rest' = f :: r ->
           cmd_len + cost taken + (len f + 3) > B.
Proof.
  induction rest as [|f rest IH]; intros cmd_len chunk idx chunk' idx' E.
  - simpl in E. injection E as <- <-. exists [], [].
    rewrite app_nil_r. repeat split. discriminate.
  - simpl in E. destruct (Z.gtb_spec (cmd_len + (len f + 3)) B) as [Hover|Hfit].
    + destruct chunk as [|g chunk].
      * injection E as <- <-. exists [f], rest. repeat split.
        intros f' r _. simpl. unfold len in *. lia.
      * injection E as <- <-. exists [], (f :: rest).
        rewrite app_nil_r. repeat split.
        intros f' r [= <- <-]. simpl. lia.
    + apply IH in E as (taken & rest' & -> & -> & Hmax).
      exists (f :: taken), rest'. rewrite <- app_assoc. repeat split.
      intros f' r Hr. specialize (Hmax f' r Hr). simpl. lia.
Qed.

Lemma take_chunk_all (B : Z) (rest : list Str) :
  forall cmd_len chunk idx,
    cmd_len + cost rest <= B ->
    take_chunk B rest cmd_len chunk idx
    = (chunk ++ rest, (idx + length rest)%nat).
Proof.
  induction rest as [|f rest IH]; intros cmd_len chunk idx Hfit; simpl.
  - now rewrite app_nil_r, Nat.add_0_r.
  - simpl in Hfit. pose proof (cost_nonneg rest) as Hpos.
    destruct (Z.gtb_spec (cmd_len + (len f + 3)) B) as [Hover|_]; [lia|].
    rewrite IH by lia. rewrite <- app_assoc. simpl. f_equal. lia.
Qed.

(** The child [_next_proc] starts and where it leaves the cursor. *)
Lemma _next_proc_chunk (s : MultiProc) (chunk : list Str) (idx : nat) :
  (file_idx s < length (files s))%nat ->
  take_chunk (ARG_MAX s) (skipn (file_idx s) (files s))
             (cmd_len_of (cmd s)) [] (file_idx s) = (chunk, idx) ->
  proc (_next_proc run_cmd s)
  = Some (Popen_new (cmd s ++ chunk) (run_cmd (cmd s ++ chunk) (cwd s)))
  /\ file_idx (_next_proc run_cmd s) = idx
  /\ all_stderr (_next_proc run_cmd s)
     = all_stderr s ++ match proc s with
                       | Some p => p_stderr p
                       | None => []
                       end.
Proof.
  intros E Et. apply Nat.leb_gt in E.
  unfold _next_proc.
  destruct (proc s) as [p|]; cbn [Popen_stderr_read];
    [destruct (p_stderr p)|];
    cbn [proc cmd files cwd file_idx returncode ARG_MAX all_stderr
         set_proc set_all_stderr];
    rewrite E, Et; cbn; rewrite ?app_nil_r; auto.
Qed.

Lemma _next_proc_stderr_exhausted (s : MultiProc) :
  (length (files s) <= file_idx s)%nat ->
  all_stderr (_next_proc run_cmd s)
  = all_stderr s ++ match proc s with
                    | Some p => p_stderr p
                    | None => []
                    end.
Proof.
  intros E. apply Nat.leb_le in E. unfold _next_proc.
  destruct (proc s) as [p|]; cbn [Popen_stderr_read];
    [destruct (p_stderr p)|];
    cbn [proc cmd files cwd file_idx returncode ARG_MAX all_stderr
         set_proc set_all_stderr];
    rewrite E; cbn; rewrite ?app_nil_r; auto.
Qed.

Lemma spawned_next_greedy (n : nat) :
  forall s,
    (length (files s) - file_idx s <= n)%nat ->
    exists cs,
      spawned run_cmd n (_next_proc run_cmd s) = Some cs
      /\ concat cs = skipn (file_idx s) (files s)
      /\ Forall (fun c => c <> []) cs
      /\ chain (no_room (ARG_MAX s) (cmd s)) cs.
Proof.
  induction n as [|n IH]; intros s Hn.
  - destruct (_next_proc_exhausted run_cmd s) as (Hp & _); [lia|].
    exists []. rewrite skipn_all2 by lia.
    split; [|split; [|split]]; try constructor.
    unfold spawned. now rewrite Hp.
  - destruct (Nat.le_gt_cases (length (files s)) (file_idx s)) as [E|E].
    + destruct (_next_proc_exhausted run_cmd s E) as (Hp & _).
      exists []. rewrite skipn_all2 by lia.
      split; [|split; [|split]]; try constructor.
      cbn [spawned]. now rewrite Hp.
    + destruct (take_chunk (ARG_MAX s) (skipn (file_idx s) (files s))
                  (cmd_len_of (cmd s)) [] (file_idx s)) as [chunk idx] eqn:Et.
      destruct (_next_proc_chunk s chunk idx E Et) as (Hp & Hidx & _).
      destruct (take_chunk_spec _ _ _ _ _ _ _ Et)
        as (taken & rest' & Hc & Hrest & Hi & Hne & _).
      destruct (take_chunk_maximal _ _ _ _ _ _ _ Et)
        as (taken' & rest'' & Hc' & Hrest' & Hmax).
      simpl in Hc, Hc'. subst taken taken'.
      rewrite Hrest in Hrest'. apply app_inv_head in Hrest'. subst rest''.
      assert (Hne' : chunk <> []).
      { apply Hne; [|reflexivity]. intros Hnil.
        apply (f_equal (@length Str)) in Hnil.
        rewrite length_skipn in Hnil. simpl in Hnil. lia. }
      assert (Hpos : (1 <= length chunk)%nat)
        by (destruct chunk; [congruence | simpl; lia]).
      assert (Hlen : (length chunk <= length (files s) - file_idx s)%nat).
      { rewrite <- length_skipn, Hrest, length_app. lia. }
      destruct (_next_proc_frame run_cmd s) as (Hcmd & Hfiles & Hmx & _).
      destruct (IH (_next_proc run_cmd s)) as (cs & Hcs & Hcat & Hall & Hch).
      { rewrite Hfiles, Hidx, Hi. lia. }
      assert (Hrest2 : skipn (file_idx (_next_proc run_cmd s))
                             (files (_next_proc run_cmd s)) = rest').
      { rewrite Hfiles, Hidx, Hi, Nat.add_comm, <- skipn_skipn, Hrest.
        rewrite skipn_app, skipn_all, Nat.sub_diag. reflexivity. }
      exists (chunk :: cs). split; [|split; [|split]].
      * cbn [spawned]. rewrite Hp, Hcs. cbn [Popen_new args].
        rewrite Hcmd, skipn_app, skipn_all, Nat.sub_diag. reflexivity.
      * simpl. rewrite Hcat, Hrest2. now rewrite Hrest.
      * constructor; assumption.
      * rewrite Hmx, Hcmd in Hch.
        destruct cs as [|c2 cs]; [exact I|].
        split; [|exact Hch].
        intros f r ->. unfold chunk_cost.
        apply (Hmax f (r ++ concat cs)).
        rewrite <- Hrest2, <- Hcat. reflexivity.
Qed.

(** X3 (greedy chunks). The chunks are as long as the budget allows:
    between two successive chunks, the first file of the later one would
    have taken the earlier one over the budget. *)
Theorem chunks_greedy (arg_max : Z) (c fs : list Str) (d : Str) :
  exists cs,
    chunks run_cmd arg_max c fs d = Some cs
    /\ chain (fun chunk next =>
                forall f r, next = f :: r ->
                  chunk_cost c chunk + (len f + 3) > arg_max) cs.
Proof.
  unfold chunks, init_with.
  destruct (spawned_next_greedy (length fs)
              {| cmd := c; files := fs; cwd := d; file_idx := O;
                 proc := None; returncode := None; ARG_MAX := arg_max;
                 all_stderr := [] |}) as (cs & Hcs & _ & _ & Hch).
  { simpl. lia. }
  exists cs. split; [exact Hcs | exact Hch].
Qed.

(** X4 (no needless split). A file list that fits the budget together
    with the base command is run as one chunk, by one child. *)
Theorem chunks_single (arg_max : Z) (c fs : list Str) (d : Str)
  (Hne : fs <> [])
  (Hfit : chunk_cost c fs <= arg_max) :
  chunks run_cmd arg_max c fs d = Some [fs].
Proof.
  unfold chunks, init_with.
  set (s0 := {| cmd := c; files := fs; cwd := d; file_idx := O;
                proc := None; returncode := None; ARG_MAX := arg_max;
                all_stderr := [] |}).
  assert (Hlen : (0 < length fs)%nat) by (destruct fs; [congruence|simpl; lia]).
  destruct (_next_proc_chunk s0 fs (length fs)) as (Hp & Hidx & _).
  { exact Hlen. }
  { cbn [ARG_MAX file_idx files cmd s0 skipn].
    rewrite take_chunk_all by exact Hfit. reflexivity. }
  destruct (_next_proc_frame run_cmd s0) as (Hcmd & Hfiles & _).
  destruct (_next_proc_exhausted run_cmd (_next_proc run_cmd s0)) as (Hp2 & _).
  { rewrite Hfiles, Hidx. cbn. lia. }
  destruct (length fs) as [|n] eqn:El; [lia|].
  cbn [spawned]. rewrite Hp. cbn [Popen_new args].
  rewrite Hcmd. cbn [cmd s0].
  rewrite skipn_app, skipn_all, Nat.sub_diag. cbn [skipn app].
  destruct n; cbn [spawned]; rewrite Hp2; reflexivity.
Qed.

Lemma readline_fuel_empty (fuel : nat) :
  forall s l s',
    readline_fuel run_cmd fuel s = Some (l, s') ->
    (l = [] -> proc s' = None) /\ (l <> [] -> proc s' <> None).
Proof.
  induction fuel as [|fuel IH]; intros s l s' E; [discriminate|].
  cbn [readline_fuel] in E. destruct (proc s) as [p|] eqn:Ep.
  - destruct (Popen_readline p) as [ln p']. destruct ln.
    + now apply IH in E.
    + injection E as <- <-. split; [discriminate|]. cbn. discriminate.
  - injection E as <- <-. split; [auto | congruence].
Qed.


(** *** The runner as one stream *)

Lemma split_line_app (bs l r : Bytes) :
  split_line bs = (l, r) -> bs = l ++ r /\ (l = [] -> bs = []).
Proof.
  revert l r. induction bs as [|b bs IH]; intros l r E; simpl in E.
  - injection E as <- <-. auto.
  - destruct (b =? 10).
    + injection E as <- <-. split; [reflexivity | discriminate].
    + destruct (split_line bs) as [l' r']. injection E as <- <-.
      destruct (IH l' r' eq_refl) as [-> _]. split; [reflexivity | discriminate].
Qed.

Lemma lines_fuel_enough (n : nat) :
  forall m bs, (length bs <= n)%nat -> (length bs <= m)%nat ->
    lines_fuel n bs = lines_fuel m bs.
Proof.
  induction n as [|n IH]; intros m bs Hn Hm.
  - destruct bs; [|simpl in Hn; lia]. destruct m; reflexivity.
  - destruct m as [|m].
    + destruct bs; [reflexivity | simpl in Hm; lia].
    + cbn [lines_fuel]. destruct (split_line bs) as [l r] eqn:E.
      destruct l as [|b l]; [reflexivity|].
      apply split_line_app in E as [-> _]. f_equal.
      apply IH; rewrite length_app in *; simpl in *; lia.
Qed.

Lemma lines_of_nil : lines_of [] = [].
Proof. reflexivity. Qed.

Lemma lines_of_split (bs l r : Bytes) :
  split_line bs = (l, r) -> l <> [] -> lines_of bs = l :: lines_of r.
Proof.
  intros E Hl. pose proof (split_line_app bs l r E) as [Hbs _].
  unfold lines_of. destruct bs as [|b bs].
  { simpl in E. injection E as <- _. congruence. }
  cbn [length lines_fuel]. rewrite E.
  destruct l as [|c l]; [congruence|]. f_equal.
  apply lines_fuel_enough; [|lia].
  apply (f_equal (@length Z)) in Hbs. rewrite length_app in Hbs.
  simpl in *. lia.
Qed.

Lemma _next_proc_same_stderr (s : MultiProc) (p p' : Popen) :
  proc s = Some p -> p_stderr p' = p_stderr p ->
  _next_proc run_cmd (set_proc s (Some p')) = _next_proc run_cmd s.
Proof.
  intros Ep Ee. unfold _next_proc. cbn [proc set_proc]. rewrite Ep.
  cbn [Popen_stderr_read]. rewrite Ee.
  destruct (p_stderr p);
    cbn [proc cmd files cwd file_idx returncode ARG_MAX all_stderr
         set_proc set_all_stderr];
    destruct (_ <=? _)%nat; try reflexivity;
    destruct (take_chunk _ _ _ _ _); reflexivity.
Qed.

Lemma readline_fuel_mono (fuel : nat) :
  forall fuel' s r,
    readline_fuel run_cmd fuel s = Some r -> (fuel <= fuel')%nat ->
    readline_fuel run_cmd fuel' s = Some r.
Proof.
  induction fuel as [|fuel IH]; intros fuel' s r E Hle; [discriminate|].
  destruct fuel' as [|fuel']; [lia|]. cbn [readline_fuel] in *.
  destruct (proc s) as [p|]; [|exact E].
  destruct (Popen_readline p) as [l p']. destruct l; [|exact E].
  eapply IH; [exact E | lia].
Qed.

Lemma readline_fuel_S (fuel : nat) (s : MultiProc) :
  readline_fuel run_cmd (S fuel) s
  = match proc s with
    | None => Some ([], s)
    | Some p =>
        let '(line, p) := Popen_readline p in
        let self := set_proc s (Some p) in
        match line with
        | [] => readline_fuel run_cmd fuel (_next_proc run_cmd self)
        | _ :: _ => Some (line, self)
        end
    end.
Proof. reflexivity. Qed.

(** At the end of the output of its child, a read of the runner is the
    read of the runner [_next_proc] leaves. *)
Lemma readline_at_child_end (s : MultiProc) (p : Popen) :
  proc s = Some p -> p_stdout p = [] ->
  readline run_cmd s = readline run_cmd (_next_proc run_cmd s).
Proof.
  intros Ep Eo. unfold readline at 1. rewrite readline_fuel_S, Ep.
  unfold Popen_readline. rewrite Eo. cbn [split_line].
  rewrite (_next_proc_same_stderr s p) by (exact Ep || reflexivity).
  set (s' := _next_proc run_cmd s).
  destruct (_next_proc_frame run_cmd s) as (_ & Hf & _). fold s' in Hf.
  destruct (Nat.le_gt_cases (length (files s)) (file_idx s)) as [E|E].
  - destruct (_next_proc_exhausted run_cmd s E) as (Hp & _). fold s' in Hp.
    unfold readline. cbn [readline_fuel]. now rewrite Hp.
  - destruct (_next_proc_spawn run_cmd s E)
      as (p0 & taken & rest' & _ & _ & Hidx & Hrest & [Hne _]).
    fold s' in Hidx.
    assert (1 <= length taken)%nat by (destruct taken; [congruence|simpl; lia]).
    assert (length taken <= length (files s) - file_idx s)%nat.
    { rewrite <- length_skipn, Hrest, length_app. lia. }
    destruct (readline_total run_cmd s') as [r Hr]. rewrite Hr.
    unfold readline in Hr.
    eapply readline_fuel_mono; [exact Hr|]. rewrite Hf, Hidx. lia.
Qed.

Lemma drain_S (fuel : nat) (s : MultiProc) :
  drain run_cmd (S fuel) s
  = match readline run_cmd s with
    | Some ([], self') => Some ([], self')
    | Some (l, self') =>
        match drain run_cmd fuel self' with
        | Some (ls, self'') => Some (l :: ls, self'')
        | None => None
        end
    | None => None
    end.
Proof. reflexivity. Qed.

Lemma drain_at_child_end (s : MultiProc) (p : Popen) (m : nat) :
  proc s = Some p -> p_stdout p = [] ->
  drain run_cmd (S m) s = drain run_cmd (S m) (_next_proc run_cmd s).
Proof.
  intros Ep Eo. rewrite !drain_S.
  now rewrite (readline_at_child_end s p Ep Eo).
Qed.

(** Reading the rest of the output of the current child. *)
Lemma drain_child (k : nat) :
  forall s p m,
    proc s = Some p -> (length (p_stdout p) <= k)%nat ->
    drain run_cmd (length (lines_of (p_stdout p)) + S m) s
    = prepend (lines_of (p_stdout p))
              (drain run_cmd (S m) (_next_proc run_cmd s)).
Proof.
  induction k as [|k IH]; intros s p m Ep Hk.
  - destruct (p_stdout p) eqn:Eo; [|simpl in Hk; lia].
    rewrite lines_of_nil. cbn [length Nat.add].
    rewrite (drain_at_child_end s p m Ep Eo).
    now destruct (drain run_cmd (S m) _) as [[ls st]|].
  - destruct (p_stdout p) as [|b bs] eqn:Eo.
    + rewrite lines_of_nil. cbn [length Nat.add].
      rewrite (drain_at_child_end s p m Ep Eo).
      now destruct (drain run_cmd (S m) _) as [[ls st]|].
    + destruct (split_line (b :: bs)) as [l r] eqn:Es.
      assert (Hl : l <> []).
      { intros ->. apply split_line_app in Es as [_ Hn].
        discriminate (Hn eq_refl). }
      rewrite (lines_of_split _ l r Es Hl). cbn [length Nat.add].
      rewrite drain_S.
      pose (p1 := {| args := args p; p_stdout := r; p_stderr := p_stderr p;
                     p_alive := p_alive p; p_code := p_code p |}).
      assert (Hread : readline run_cmd s = Some (l, set_proc s (Some p1))).
      { unfold readline. rewrite readline_fuel_S, Ep.
        unfold Popen_readline. rewrite Eo, Es.
        destruct l; [congruence | reflexivity]. }
      rewrite Hread. destruct l as [|c l]; [congruence|].
      assert (Hr : (length (p_stdout p1) <= k)%nat).
      { cbn [p_stdout p1]. apply split_line_app in Es as [Hbs _].
        apply (f_equal (@length Z)) in Hbs. rewrite length_app in Hbs.
        simpl in *. lia. }
      pose proof (IH (set_proc s (Some p1)) p1 m eq_refl Hr) as IH1.
      rewrite (_next_proc_same_stderr s p p1 Ep eq_refl) in IH1.
      cbn [p_stdout p1] in IH1. rewrite IH1.
      now destruct (drain run_cmd (S m) _) as [[ls st]|].
Qed.

Lemma drain_chunks (n : nat) :
  forall s,
    (length (files s) - file_idx s <= n)%nat ->
    exists cs n0 s_end,
      spawned run_cmd n (_next_proc run_cmd s) = Some cs
      /\ (forall m, (n0 <= m)%nat ->
            drain run_cmd m (_next_proc run_cmd s)
            = Some (concat (map (fun c =>
                       lines_of (child_stdout run_cmd (cmd s) (cwd s) c)) cs),
                    s_end))
      /\ proc s_end = None
      /\ all_stderr s_end
         = all_stderr (_next_proc run_cmd s)
           ++ concat (map (child_stderr run_cmd (cmd s) (cwd s)) cs).
Proof.
  induction n as [|n IH]; intros s Hn.
  - destruct (_next_proc_exhausted run_cmd s) as (Hp & _); [lia|].
    exists [], 1%nat, (_next_proc run_cmd s).
    split; [unfold spawned; now rewrite Hp|].
    split; [|split; [exact Hp | now rewrite app_nil_r]].
    intros m Hm. destruct m; [lia|]. cbn [drain].
    unfold readline. cbn [readline_fuel]. now rewrite Hp.
  - destruct (Nat.le_gt_cases (length (files s)) (file_idx s)) as [E|E].
    + destruct (_next_proc_exhausted run_cmd s E) as (Hp & _).
      exists [], 1%nat, (_next_proc run_cmd s).
      split; [cbn [spawned]; now rewrite Hp|].
      split; [|split; [exact Hp | now rewrite app_nil_r]].
      intros m Hm. destruct m; [lia|]. cbn [drain].
      unfold readline. cbn [readline_fuel]. now rewrite Hp.
    + destruct (take_chunk (ARG_MAX s) (skipn (file_idx s) (files s))
                  (cmd_len_of (cmd s)) [] (file_idx s)) as [chunk idx] eqn:Et.
      destruct (_next_proc_chunk s chunk idx E Et) as (Hp & Hidx & _).
      destruct (take_chunk_spec _ _ _ _ _ _ _ Et)
        as (taken & rest' & Hc & Hrest & Hi & Hne & _).
      simpl in Hc. subst taken.
      assert (Hne' : chunk <> []).
      { apply Hne; [|reflexivity]. intros Hnil.
        apply (f_equal (@length Str)) in Hnil.
        rewrite length_skipn in Hnil. simpl in Hnil. lia. }
      assert (Hpos : (1 <= length chunk)%nat)
        by (destruct chunk; [congruence | simpl; lia]).
      assert (Hlen : (length chunk <= length (files s) - file_idx s)%nat).
      { rewrite <- length_skipn, Hrest, length_app. lia. }
      destruct (_next_proc_frame run_cmd s) as (Hcmd & Hfiles & Hmx & Hcwd).
      set (s1 := _next_proc run_cmd s) in *.
      destruct (IH s1) as (cs & n0 & s_end & Hcs & Hdrain & Hend & Herr).
      { rewrite Hfiles, Hidx, Hi. lia. }
      rewrite Hcmd, Hcwd in Hdrain, Herr.
      set (p0 := Popen_new (cmd s ++ chunk) (run_cmd (cmd s ++ chunk) (cwd s))) in *.
      set (L0 := lines_of (child_stdout run_cmd (cmd s) (cwd s) chunk)).
      exists (chunk :: cs), (length L0 + S n0)%nat, s_end.
      split; [|split; [|split]].
      * cbn [spawned]. rewrite Hp, Hcs. cbn [Popen_new args p0].
        rewrite Hcmd, skipn_app, skipn_all, Nat.sub_diag. reflexivity.
      * intros m Hm.
        replace m with (length L0 + S (m - length L0 - 1))%nat by lia.
        assert (HL0 : lines_of (p_stdout p0) = L0) by reflexivity.
        pose proof (drain_child (length (p_stdout p0)) s1 p0
                      (m - length L0 - 1) Hp (le_n _)) as Hd.
        rewrite HL0 in Hd. rewrite Hd, Hdrain by lia.
        cbn [prepend map concat]. reflexivity.
      * exact Hend.
      * rewrite Herr. cbn [map concat].
        assert (Hs1 : all_stderr (_next_proc run_cmd s1)
                      = all_stderr s1 ++ p_stderr p0).
        { destruct (Nat.le_gt_cases (length (files s1)) (file_idx s1)) as [E1|E1].
          - rewrite (_next_proc_stderr_exhausted s1 E1), Hp. reflexivity.
          - destruct (take_chunk (ARG_MAX s1) (skipn (file_idx s1) (files s1))
                        (cmd_len_of (cmd s1)) [] (file_idx s1))
              as [ch1 i1] eqn:Et1.
            destruct (_next_proc_chunk s1 ch1 i1 E1 Et1) as (_ & _ & He).
            rewrite He, Hp. reflexivity. }
        rewrite Hs1, <- app_assoc. reflexivity.
Qed.

(** X6 (one stream). Read to its end, a runner gives the output lines
    of its children, chunk after chunk, and nothing else; it is then
    exhausted, and its [all_stderr] holds what the children wrote to
    their error streams, in the same order. *)
Theorem drain_is_concatenation (arg_max : Z) (c fs : list Str) (d : Str) :
  exists cs n0 s_end,
    chunks run_cmd arg_max c fs d = Some cs
    /\ (forall m, (n0 <= m)%nat ->
          drain run_cmd m (init_with run_cmd arg_max c fs d)
          = Some (concat (map (fun chunk =>
                     lines_of (child_stdout run_cmd c d chunk)) cs),
                  s_end))
    /\ proc s_end = None
    /\ all_stderr s_end = concat (map (child_stderr run_cmd c d) cs).
Proof.
  unfold chunks, init_with.
  set (s0 := {| cmd := c; files := fs; cwd := d; file_idx := O;
                proc := None; returncode := None; ARG_MAX := arg_max;
                all_stderr := [] |}).
  destruct (drain_chunks (length fs) s0)
    as (cs & n0 & s_end & Hcs & Hdrain & Hend & Herr).
  { simpl. lia. }
  exists cs, n0, s_end. repeat split; auto.
  rewrite Herr.
  assert (E0 : all_stderr (_next_proc run_cmd s0) = []).
  { destruct (Nat.le_gt_cases (length (files s0)) (file_idx s0)) as [E1|E1].
    - now rewrite (_next_proc_stderr_exhausted s0 E1).
    - destruct (take_chunk (ARG_MAX s0) (skipn (file_idx s0) (files s0))
                  (cmd_len_of (cmd s0)) [] (file_idx s0)) as [ch1 i1] eqn:Et1.
      destruct (_next_proc_chunk s0 ch1 i1 E1 Et1) as (_ & _ & He).
      now rewrite He. }
  now rewrite E0.
Qed.

End RunnerMoreFacts.

Lemma cursor_monotone_witness :
  let s := init_with (echo_env (str "boom") 1) 12 []
             [str "a.txt"; str "b.txt"] [] in
  file_idx s = 1%nat
  /\ forall l s', readline (echo_env (str "boom") 1) s = Some (l, s') ->
                  (1 <= file_idx s' <= 2)%nat.
Proof.
  cbv zeta. split; [vm_compute; reflexivity|].
  intros l s' E.
  pose proof (cursor_monotone (echo_env (str "boom") 1) _ s'
                (reach_init _ 12 [] [str "a.txt"; str "b.txt"] [])
                (step_readline _ _ l s' E)) as (Hi & Hf & _).
  rewrite Hf in Hi. exact Hi.
Defined.

Lemma poll_none_or_zero_witness :
  fst (poll (init_with (echo_env (str "boom") 1) 12 []
               [str "a.txt"; str "b.txt"] [])) = None
  /\ fst (poll drained_runner) = Some 0.
Proof.
  split.
  - destruct (poll_none_or_zero (echo_env (str "boom") 1) _
                (reach_init _ 12 [] [str "a.txt"; str "b.txt"] []))
      as [E|[E _]]; [exact E | vm_compute in E; discriminate E].
  - vm_compute. reflexivity.
Defined.

Lemma chunks_single_witness :
  chunks (echo_env [] 0) 30 [str "rg"] [str "a.txt"; str "b.txt"] []
  = Some [[str "a.txt"; str "b.txt"]].
Proof.
  apply chunks_single; [discriminate | vm_compute; discriminate].
Defined.

(** ** The pattern scan and the case flags *)

Module NormalizerMore.
Import Normalizer.

Lemma scan_no_backslash (p : Str) (a : list Str) :
  ~ In backslash p -> scan p a = (p, a).
Proof.
  induction p as [|c p IH]; intros Hn; simpl; [reflexivity|].
  destruct (Z.eqb_spec c backslash) as [->|_].
  - exfalso. apply Hn. now left.
  - rewrite IH; [reflexivity|]. intros Hin. apply Hn. now right.
Qed.

(** X7 (plain patterns). A pattern without a backslash comes out of the
    normalizer as it went in, and so does the flag list, for every
    source. *)
Theorem normalize_pattern_plain (source p : Str) (cmdargs : list Str)
  (Hplain : ~ In backslash p) :
  normalize_pattern source p cmdargs = (p, cmdargs).
Proof.
  unfold normalize_pattern. destruct (is_rg source); [|reflexivity].
  now apply scan_no_backslash.
Qed.

Lemma normalize_pattern_plain_witness :
  normalize_pattern (str "rg") (str "Cc foo.*bar") [str "--hidden"]
  = (str "Cc foo.*bar", [str "--hidden"]).
Proof.
  apply normalize_pattern_plain. vm_compute.
  intros H. repeat (destruct H as [H|H]; [discriminate H|]). exact H.
Defined.

Lemma flags_appended_refl a : flags_appended a a.
Proof.
  exists []. rewrite app_nil_r. repeat split; [constructor | | ]; contradiction.
Qed.

Lemma flags_appended_trans a b c :
  flags_appended a b -> flags_appended b c -> flags_appended a c.
Proof.
  intros (e1 & -> & N1 & F1) (e2 & -> & N2 & F2).
  exists (e1 ++ e2). rewrite app_assoc. split; [reflexivity|]. split.
  - apply NoDup_app; auto. intros f H1 H2.
    destruct (F2 f H2) as [_ Hn]. apply Hn, in_or_app. now right.
  - intros f Hin. apply in_app_or in Hin as [Hin|Hin].
    + apply F1, Hin.
    + destruct (F2 f Hin) as [Hf Hn]. split; [exact Hf|].
      intros Ha. apply Hn, in_or_app. now left.
Qed.

Lemma flags_appended_add_flag c a :
  c = upper_C \/ c = lower_c -> flags_appended a (add_flag (flag_of c) a).
Proof.
  intros Hc. unfold add_flag. destruct (mem (flag_of c) a) eqn:E.
  - apply flags_appended_refl.
  - exists [flag_of c]. split; [reflexivity|].
    split; [repeat constructor; intros []|].
    intros f [<-|[]]. split.
    + destruct Hc as [-> | ->]; [left | right]; reflexivity.
    + intros Hin. apply mem_In in Hin. congruence.
Qed.

Lemma scan_run_flags (p : Str) :
  (forall a, flags_appended a (snd (scan p a)))
  /\ (forall k a, flags_appended a (snd (run k p a))).
Proof.
  induction p as [|c r [IHs IHr]]; split; intros; simpl;
    try apply flags_appended_refl.
  - destruct (c =? backslash); [apply IHr|].
    specialize (IHs a). now destruct (scan r a).
  - destruct (c =? backslash); [apply IHr|].
    destruct ((c =? upper_C) || (c =? lower_c)) eqn:Ec;
      [destruct (Nat.odd k)|].
    + specialize (IHs (add_flag (flag_of c) a)).
      destruct (scan r (add_flag (flag_of c) a)). simpl in *.
      eapply flags_appended_trans; [|exact IHs].
      apply flags_appended_add_flag.
      apply orb_true_iff in Ec as [Ec|Ec]; apply Z.eqb_eq in Ec; auto.
    + specialize (IHs a). now destruct (scan r a).
    + specialize (IHs a). now destruct (scan r a).
Qed.

Lemma normalize_flags_appended (source p : Str) (cmdargs : list Str) :
  flags_appended cmdargs (snd (normalize_pattern source p cmdargs)).
Proof.
  unfold normalize_pattern. destruct (is_rg source).
  - apply scan_run_flags.
  - apply (flags_appended_refl cmdargs).
Qed.

(** X8 (flags only appended). Whatever the pattern, the normalizer
    leaves the given flags where they are and appends at most
    [--case-sensitive] and [--ignore-case], each at most once and only
    if the list did not hold it: it removes and reorders nothing. *)
Theorem normalize_pattern_appends (source p : Str) (cmdargs : list Str) :
  exists extra,
    snd (normalize_pattern source p cmdargs) = cmdargs ++ extra
    /\ NoDup extra
    /\ forall f, In f extra ->
         (f = case_sensitive_flag \/ f = ignore_case_flag)
         /\ ~ In f cmdargs.
Proof. apply normalize_flags_appended. Qed.

Lemma count_remove_first (x y : Str) (l : list Str) :
  count (remove_first x l) y
  = if Str_eq_dec x y then Nat.pred (count l y) else count l y.
Proof.
  unfold count. induction l as [|z l IH]; simpl.
  - now destruct (Str_eq_dec x y).
  - destruct (Str_eqb x z) eqn:E.
    + apply Str_eqb_eq in E. subst z.
      destruct (Str_eq_dec x y); simpl; reflexivity.
    + apply Str_eqb_neq in E. simpl.
      rewrite IH.
      destruct (Str_eq_dec z y) as [Hzy|Hzy], (Str_eq_dec x y) as [Hxy|Hxy];
        congruence || reflexivity.
Qed.

Lemma count_remove_if_present (x y : Str) (l : list Str) :
  count (remove_if_present x l) y
  = if Str_eq_dec x y then Nat.pred (count l y) else count l y.
Proof.
  unfold remove_if_present. destruct (mem x l) eqn:E.
  - apply count_remove_first.
  - destruct (Str_eq_dec x y) as [->|]; [|reflexivity].
    assert (count l y = 0)%nat as ->; [|reflexivity].
    apply count_occ_not_In. intros Hin. apply mem_In in Hin. congruence.
Qed.

Lemma count_add_flag (f g : Str) (a : list Str) :
  count (add_flag f a) g
  = if Str_eq_dec f g then Nat.max 1 (count a g) else count a g.
Proof.
  unfold add_flag, count. destruct (mem f a) eqn:E.
  - destruct (Str_eq_dec f g) as [->|]; [|reflexivity].
    apply mem_In, (count_occ_In Str_eq_dec) in E. lia.
  - rewrite count_occ_app. simpl.
    destruct (Str_eq_dec f g) as [->|]; [|lia].
    assert (count_occ Str_eq_dec a g = 0)%nat as ->; [|reflexivity].
    apply count_occ_not_In. intros Hin. apply mem_In in Hin. congruence.
Qed.

Lemma flags_distinct :
  case_sensitive_flag <> ignore_case_flag
  /\ case_sensitive_flag <> smart_case_flag
  /\ ignore_case_flag <> smart_case_flag.
Proof. repeat split; vm_compute; discriminate. Qed.

Ltac decide_flags :=
  destruct flags_distinct as (Hci & Hcs & His);
  repeat match goal with
         | |- context [Str_eq_dec ?x ?y] => destruct (Str_eq_dec x y)
         end; try congruence; try reflexivity.

Lemma case_flags_count (source : Str) (cmdargs : list Str) (f : Str) :
  is_rg source = true ->
  count (case_flags source (PInt 1) cmdargs) f
  = (if Str_eq_dec smart_case_flag f then Nat.pred
     else fun n => n)
      ((if Str_eq_dec ignore_case_flag f then Nat.pred else fun n => n)
         (if Str_eq_dec case_sensitive_flag f
          then Nat.max 1 (count cmdargs f) else count cmdargs f))
  /\ count (case_flags source (PInt 0) cmdargs) f
     = (if Str_eq_dec smart_case_flag f then Nat.pred
        else fun n => n)
         ((if Str_eq_dec case_sensitive_flag f then Nat.pred else fun n => n)
            (if Str_eq_dec ignore_case_flag f
             then Nat.max 1 (count cmdargs f) else count cmdargs f)).
Proof.
  intros Hrg. unfold case_flags. rewrite Hrg. cbn [py_eq Z.eqb Pos.eqb].
  rewrite !count_remove_if_present, !count_add_flag.
  split; repeat match goal with
                | |- context [Str_eq_dec ?x ?y] => destruct (Str_eq_dec x y)
                end; reflexivity.
Qed.

(** X9 (flag counts). For an rg source and [case_sensitive == 1] the
    flag block leaves [--case-sensitive] in the list (once if it was
    absent) and takes out one [--ignore-case] and one [--smart-case]:
    the first occurrence only, so that a flag given twice stays once.
    With [case_sensitive == 0] the two case flags change roles.  No
    other flag is touched. *)
Theorem case_flags_counts (source : Str) (cmdargs : list Str)
  (Hrg : is_rg source = true) :
  let on := case_flags source (PInt 1) cmdargs in
  let off := case_flags source (PInt 0) cmdargs in
  count on case_sensitive_flag = Nat.max 1 (count cmdargs case_sensitive_flag)
  /\ count on ignore_case_flag = Nat.pred (count cmdargs ignore_case_flag)
  /\ count on smart_case_flag = Nat.pred (count cmdargs smart_case_flag)
  /\ count off ignore_case_flag = Nat.max 1 (count cmdargs ignore_case_flag)
  /\ count off case_sensitive_flag
     = Nat.pred (count cmdargs case_sensitive_flag)
  /\ count off smart_case_flag = Nat.pred (count cmdargs smart_case_flag)
  /\ forall f, f <> case_sensitive_flag -> f <> ignore_case_flag ->
               f <> smart_case_flag ->
               count on f = count cmdargs f /\ count off f = count cmdargs f.
Proof.
  cbv zeta.
  repeat split; intros;
    first [rewrite (proj1 (case_flags_count source cmdargs _ Hrg))
          |rewrite (proj2 (case_flags_count source cmdargs _ Hrg))];
    decide_flags.
Qed.

Lemma case_flags_counts_witness :
  case_flags (str "rg") (PInt 1)
    [ignore_case_flag; str "--hidden"; ignore_case_flag]
  = [str "--hidden"; ignore_case_flag; case_sensitive_flag]
  /\ count (case_flags (str "rg") (PInt 1)
              [ignore_case_flag; str "--hidden"; ignore_case_flag])
           ignore_case_flag = 1%nat.
Proof.
  split; [vm_compute; reflexivity|].
  destruct (case_flags_counts (str "rg")
              [ignore_case_flag; str "--hidden"; ignore_case_flag] eq_refl)
    as (_ & H & _).
  rewrite H. vm_compute. reflexivity.
Defined.

Lemma count_app (a b : list Str) (f : Str) :
  count (a ++ b) f = (count a f + count b f)%nat.
Proof. apply count_occ_app. Qed.

(** X10 (the context wins). For an rg source and a flag list without
    case flags, whatever directives the pattern holds: after the
    normalizer and the flag block, [case_sensitive == 0] leaves exactly
    one [--ignore-case] and no [--case-sensitive], and
    [case_sensitive == 1] exactly one [--case-sensitive] and no
    [--ignore-case]; [--smart-case] is in neither. *)
Theorem context_overrides_directive (source p : Str) (cmdargs : list Str)
  (Hrg : is_rg source = true)
  (Hcs : ~ In case_sensitive_flag cmdargs)
  (Hic : ~ In ignore_case_flag cmdargs)
  (Hsc : ~ In smart_case_flag cmdargs) :
  let scanned := snd (normalize_pattern source p cmdargs) in
  let off := case_flags source (PInt 0) scanned in
  let on := case_flags source (PInt 1) scanned in
  (count off ignore_case_flag = 1 /\ count off case_sensitive_flag = 0
   /\ count off smart_case_flag = 0)%nat
  /\ (count on case_sensitive_flag = 1 /\ count on ignore_case_flag = 0
      /\ count on smart_case_flag = 0)%nat.
Proof.
  cbv zeta.
  destruct (normalize_flags_appended source p cmdargs)
    as (extra & -> & Hnd & Hex).
  rewrite !(proj1 (case_flags_count source (cmdargs ++ extra) _ Hrg)),
          !(proj2 (case_flags_count source (cmdargs ++ extra) _ Hrg)).
  destruct flags_distinct as (Hci & Hcs' & His).
  repeat match goal with
         | |- context [Str_eq_dec ?x ?y] => destruct (Str_eq_dec x y)
         end; try congruence.
  rewrite !count_app.
  apply (count_occ_not_In Str_eq_dec) in Hcs, Hic, Hsc.
  unfold count. rewrite Hcs, Hic, Hsc. cbn [Nat.add].
  pose proof (proj1 (NoDup_count_occ Str_eq_dec extra) Hnd) as Hle.
  pose proof (Hle case_sensitive_flag) as Lc.
  pose proof (Hle ignore_case_flag) as Li.
  assert (Ls : count_occ Str_eq_dec extra smart_case_flag = 0%nat).
  { apply count_occ_not_In. intros Hin.
    destruct (Hex _ Hin) as [[E|E] _]; congruence. }
  rewrite Ls. repeat split; lia.
Qed.

Lemma context_overrides_directive_witness :
  let scanned :=
    snd (normalize_pattern (str "rg") (str "\Cfoo") [str "--hidden"]) in
  let off := case_flags (str "rg") (PInt 0) scanned in
  let on := case_flags (str "rg") (PInt 1) scanned in
  (count off ignore_case_flag = 1 /\ count off case_sensitive_flag = 0
   /\ count off smart_case_flag = 0)%nat
  /\ (count on case_sensitive_flag = 1 /\ count on ignore_case_flag = 0
      /\ count on smart_case_flag = 0)%nat.
Proof.
  assert (Hn : forall f, f <> str "--hidden" -> ~ In f [str "--hidden"]).
  { intros f Hf [E|[]]. congruence. }
  exact (context_overrides_directive (str "rg") (str "\Cfoo")
           [str "--hidden"] eq_refl
           (Hn case_sensitive_flag ltac:(vm_compute; discriminate))
           (Hn ignore_case_flag ltac:(vm_compute; discriminate))
           (Hn smart_case_flag ltac:(vm_compute; discriminate))).
Defined.

End NormalizerMore.

(** ** The result of [search]: counts and groups *)

Lemma append_item_keys (f : Str) (it : dict) (r : Result) :
  map fst (append_item f it r) = map fst r.
Proof.
  induction r as [|[k fc] r IH]; simpl; [reflexivity|].
  destruct (Str_eqb f k); simpl; congruence.
Qed.

Lemma in_result_false (f : Str) (r : Result) :
  in_result f r = false -> ~ In f (map fst r).
Proof.
  unfold in_result. induction r as [|[k fc] r IH]; simpl; [tauto|].
  destruct (Str_eqb f k) eqn:E; [discriminate|].
  apply Str_eqb_neq in E. intros Hl [Hk|Hin]; [congruence | now apply IH].
Qed.

Lemma add_all_keys (recs : list (Str * dict)) :
  forall r, NoDup (map fst r) -> NoDup (map fst (add_all recs r)).
Proof.
  induction recs as [|[f it] recs IH]; intros r Hr; simpl; [exact Hr|].
  apply IH. rewrite append_item_keys. unfold ensure_file.
  destruct (in_result f r) eqn:E; [exact Hr|].
  rewrite map_app. simpl. apply NoDup_app; auto.
  - repeat constructor. intros [].
  - intros k Hk [<-|[]]. now apply in_result_false in E.
Qed.

Section CountFacts.

Variable lower : Str -> Str.
Context {Regex : Type}.
Variable re_compile : Str -> bool -> Str + Regex.
Variable finditer : Regex -> Str -> Z -> list Z.
Variable json_loads : Str -> option json.
Context {P : Type} {process_P : Process P}.

Lemma search_records_count (fuel : nat) (ctx : Ctx) (w : Str)
  (seen : option (list item_idx)) (p : P) (w' : Str)
  (groups : list file_ctx) (st : @St P) :
  search lower re_compile finditer json_loads fuel ctx w seen p
  = Some (Return (Items w' groups) st) ->
  len (records groups) = ctx_limit ctx - limit st.
Proof.
  intros Hrun.
  apply search_outcome in Hrun as (st_end & (recs & R & L & _) & Ho).
  destruct Ho as [Ho|[(e & Ho & _)|(e & Ho)]]; try discriminate.
  injection Ho as _ -> ->. cbn [initial result limit set_the_proc] in *.
  rewrite R, L.
  assert (Hp : Permutation (records (values (add_all recs []))) recs).
  { rewrite records_add_all by constructor. now rewrite app_nil_r. }
  unfold len. rewrite (Permutation_length Hp). lia.
Qed.

(** X11 (limit accounting). Every record of a returned result took
    one from the limit: the number of records is the limit of the
    context less what is left of it at the end. *)
Theorem record_count_is_limit_spent (fuel : nat) (ctx : Ctx) (w : Str)
  (seen : option (list item_idx)) (p : P) (w' : Str)
  (groups : list file_ctx) (st : @St P)
  (Hrun : search lower re_compile finditer json_loads fuel ctx w seen p
          = Some (Return (Items w' groups) st)) :
  len (records groups) = ctx_limit ctx - limit st.
Proof. exact (search_records_count _ _ _ _ _ _ _ _ Hrun). Qed.

(** X12 (groups). The groups of a returned result are one per file:
    their file names are pairwise distinct, none is without a record,
    and the warning returned is the one the glob stage left. *)
Theorem groups_one_per_file (fuel : nat) (ctx : Ctx) (w : Str)
  (seen : option (list item_idx)) (p : P) (w' : Str)
  (groups : list file_ctx) (st : @St P)
  (Hrun : search lower re_compile finditer json_loads fuel ctx w seen p
          = Some (Return (Items w' groups) st)) :
  NoDup (map fname groups)
  /\ Forall (fun g => items g <> []) groups
  /\ w' = w.
Proof.
  apply search_outcome in Hrun as (st_end & (recs & R & _) & Ho).
  destruct Ho as [Ho|[(e & Ho & _)|(e & Ho)]]; try discriminate.
  injection Ho as -> -> _. cbn [initial result] in R.
  assert (Hok : groups_ok (result st_end))
    by (rewrite R; apply add_all_ok; constructor).
  assert (Hk : NoDup (map fst (result st_end)))
    by (rewrite R; apply add_all_keys; constructor).
  split; [|split; [|reflexivity]].
  - unfold values. rewrite map_map.
    erewrite map_ext_in; [exact Hk|].
    intros e He. unfold groups_ok in Hok. rewrite Forall_forall in Hok.
    now destruct (Hok e He).
  - unfold values. apply Forall_map.
    eapply Forall_impl; [|exact Hok]. now intros e [_ H].
Qed.

End CountFacts.

Lemma record_count_is_limit_spent_witness :
  len (records (groups_of (run 10 (rg_ctx 5) None (exited (line "{}") [] 0))))
  = 5 - 3.
Proof.
  eapply (record_count_is_limit_spent lower re_compile finditer json_loads
            10 (rg_ctx 5) [] None (exited (line "{}") [] 0) []
            _ {| limit := 3; result := _; one_file_result := _;
                 the_proc := _ |}).
  vm_compute. reflexivity.
Defined.

Lemma groups_one_per_file_witness :
  let groups :=
    groups_of (run 10 (ag_ctx 5 PNone (PStr (str "1"))) None
                 (exited (line "a.py:1:1:foo" ++ line "b.py:1:1:foo"
                          ++ line "a.py:2:1:foo") [] 0)) in
  map fname groups = [str "a.py"; str "b.py"]
  /\ NoDup (map fname groups)
  /\ Forall (fun g => items g <> []) groups.
Proof.
  cbv zeta. split; [vm_compute; reflexivity|].
  eapply proj1 with (B := [] = []).
  rewrite and_assoc.
  eapply (groups_one_per_file lower re_compile finditer json_loads
            10 (ag_ctx 5 PNone (PStr (str "1"))) [] None
            (exited (line "a.py:1:1:foo" ++ line "b.py:1:1:foo"
                     ++ line "a.py:2:1:foo") [] 0)).
  vm_compute. reflexivity.
Defined.

(** ** The records of a result: range, width, overshoot *)

Section RecordFacts.

Variable lower : Str -> Str.
Context {Regex : Type}.
Variable re_compile : Str -> bool -> Str + Regex.
Variable finditer : Regex -> Str -> Z -> list Z.
Variable json_loads : Str -> option json.
Context {P : Type} {process_P : Process P}.

Lemma rg_submatches_strong (ctx : Ctx) (f : Str) (lnum : Z) (t0 : Str) :
  len t0 <= max_columns ctx ->
  forall subs (st st' : @St P),
    rg_submatches ctx f lnum (rstrip (first_line t0)) subs st = inr st' ->
    summary (rg_record ctx) true st st'.
Proof.
  intros Hw.
  induction subs as [|sub subs IH]; intros st st' E; cbn [rg_submatches] in E.
  - injection E as <-. apply summary_refl.
  - destruct (getitem sub "match") as [|m]; [discriminate|].
    destruct (getitem m "text") as [|m']; [discriminate|].
    destruct (as_str m') as [|match_]; [discriminate|].
    destruct (getitem sub "start") as [|s]; [discriminate|].
    destruct (as_int s) as [|start]; [discriminate|].
    destruct (dedup (f, lnum, start + 1) (one_file_result st)) as [seen|] eqn:Ed.
    + destruct (out_of_range (range_ ctx) lnum) eqn:Er;
        apply IH in E; (eapply summary_trans; [|exact E]).
      * eapply summary_noted; eauto.
      * apply (summary_one (rg_record ctx) f lnum (start + 1)
                 [("lnum"%string, PInt lnum);
                  ("cnum"%string, PInt (start + 1));
                  ("text"%string, PStr (rstrip (first_line t0)));
                  ("match"%string, PStr match_)] seen);
          try reflexivity; [|exact Ed].
        exists lnum, (start + 1), t0, match_. auto.
    + now apply IH in E.
Qed.

Lemma rg_match_strong (ctx : Ctx) (item : json) (st : @St P) :
  summary (rg_record ctx) true st (state_of (rg_match ctx item st)).
Proof.
  unfold rg_match.
  repeat match goal with
         | |- context [match getitem ?a ?b with _ => _ end] =>
             destruct (getitem a b) as [[]|?]
         | |- context [match as_str ?a with _ => _ end] =>
             destruct (as_str a)
         | |- context [match as_int ?a with _ => _ end] =>
             destruct (as_int a)
         | |- context [match iter_submatches ?a with _ => _ end] =>
             destruct (iter_submatches a)
         | |- context [if len ?t >? ?m then _ else _] =>
             destruct (Z.gtb_spec (len t) m)
         end; cbn [state_of]; try apply summary_refl.
  all: match goal with
       | |- context [rg_submatches ?a ?b ?c ?d ?e ?f] =>
           destruct (rg_submatches a b c d e f) as [|st'] eqn:E
       end; cbn [state_of]; try apply summary_refl.
  all: eapply rg_submatches_strong; [|exact E]; assumption.
Qed.

Lemma on_empty_line_limit (st : @St P) :
  limit (state_of (on_empty_line st)) = limit st.
Proof.
  unfold on_empty_line.
  destruct (length (result st) =? 0)%nat.
  - destruct (stderr_line (the_proc st)) as [err p]. destruct err.
    + destruct (proc_poll _) as [[c|] p']; reflexivity.
    + destruct (utf8_decode _); reflexivity.
  - destruct (proc_poll _) as [[c|] p']; reflexivity.
Qed.

Lemma rg_iter_strong (ctx : Ctx) (st : @St P) :
  summary (rg_record ctx) true st (state_of (rg_iter json_loads ctx st)).
Proof.
  unfold rg_iter. destruct (stdout_readline (the_proc st)) as [line p].
  set (st1 := set_the_proc st p).
  assert (H1 : summary (rg_record ctx) true st st1) by now apply summary_same.
  destruct (utf8_decode line) as [s|]; [|exact H1].
  destruct (rstrip s) as [|c l].
  { destruct (on_empty_line_summary (rg_record ctx) true st1) as [Hs _].
    exact (summary_trans _ _ _ _ _ H1 Hs). }
  destruct (json_loads (c :: l)) as [item|]; [|exact H1].
  destruct item; try exact H1.
  destruct (lookup (str "type") d) as [[]|]; try exact H1.
  destruct (Str_eqb s0 (str "match")); [|exact H1].
  exact (summary_trans _ _ _ _ _ H1 (rg_match_strong ctx (JDict d) st1)).
Qed.

Lemma literal_loop_low (ctx : Ctx) (f text : Str) (lnum : Z) :
  forall fuel move (st st' : @St P),
    0 <= limit st ->
    literal_loop lower fuel ctx f text lnum move st = Some (inr st') ->
    -1 <= limit st'.
Proof.
  induction fuel as [|fuel IH]; intros move st st' Hl E; [discriminate|].
  cbn [literal_loop] in E.
  destruct (_ =? -1); [injection E as <-; lia|].
  destruct (utf8_encode _); [|discriminate].
  cbn [limit] in E. destruct (Z.leb_spec (limit st - 1) 0).
  - injection E as <-. cbn. lia.
  - apply IH in E; [exact E | cbn; lia].
Qed.

Lemma regex_loop_low (f text : Str) (lnum : Z) :
  forall starts (st st' : @St P),
    0 <= limit st ->
    regex_loop f text lnum starts st = inr st' ->
    -1 <= limit st'.
Proof.
  induction starts as [|s starts IH]; intros st st' Hl E; cbn [regex_loop] in E.
  - injection E as <-. lia.
  - destruct (utf8_encode _); [|discriminate].
    cbn [limit] in E. destruct (Z.leb_spec (limit st - 1) 0).
    + injection E as <-. cbn. lia.
    + apply IH in E; [exact E | cbn; lia].
Qed.

Lemma expand_low (ctx : Ctx) (cpat : option Regex) (f text : Str)
  (lnum cnum : Z) (st st' : @St P) :
  0 <= limit st ->
  expand lower finditer ctx cpat f text lnum cnum st = Some (inr st') ->
  -1 <= limit st'.
Proof.
  intros Hl. unfold expand.
  destruct (utf8_encode text); [|discriminate].
  destruct (utf8_decode _); [|discriminate].
  destruct (py_eq (regex ctx) _).
  - apply literal_loop_low, Hl.
  - destruct cpat; [|discriminate]. intros [= E].
    eapply regex_loop_low; eauto.
Qed.

Lemma expanded_item_record ctx text lnum bs it :
  out_of_range (range_ ctx) lnum = false ->
  len text <= max_columns ctx ->
  expanded_item text lnum bs it -> colon_record ctx it.
Proof. intros Hr Hw (c & -> & _). exists text, lnum, c. auto. Qed.

Lemma appended_strong (ctx : Ctx) (f : Str) (its : list dict)
  (st st' : @St P) :
  in_result f (result st) = true ->
  Forall (colon_record ctx) its ->
  appended f its st st' ->
  summary (colon_record ctx) false st st'.
Proof.
  intros Hin Hf (R & L & O & _). exists (map (pair f) its).
  rewrite R, L, O, append_items_add_all by exact Hin.
  unfold len. rewrite length_map. repeat split.
  - apply Forall_map. exact Hf.
  - destruct (one_file_result st); simpl; [|exact I].
    split; [apply incl_refl | discriminate].
Qed.

(** One pass of the colon-delimited loop: the records it files are in
    the range and within the width, and a pass entered with a positive
    limit leaves it at [- overshoot] or more. *)
Lemma colon_iter_strong (ctx : Ctx) (cpat : option Regex) (st : @St P) o :
  colon_iter lower finditer ctx cpat st = Some o ->
  summary (colon_record ctx) false st (state_of o)
  /\ (0 < limit st -> - overshoot ctx <= limit (state_of o)).
Proof.
  unfold colon_iter, overshoot.
  destruct (stdout_readline (the_proc st)) as [line p].
  set (st1 := set_the_proc st p).
  set (ov := if py_eq (submatch_type ctx) (PStr (str "first")) then 1 else 0).
  assert (Hov : 0 <= ov) by (unfold ov; destruct (py_eq _ _); lia).
  assert (H1 : summary (colon_record ctx) false st st1) by now apply summary_same.
  assert (Hsame : forall o', limit (state_of o') = limit st ->
            summary (colon_record ctx) false st (state_of o') ->
            summary (colon_record ctx) false st (state_of o')
            /\ (0 < limit st -> - ov <= limit (state_of o'))).
  { intros o' Hl Hs. split; [exact Hs | lia]. }
  destruct (utf8_decode line) as [s|];
    [|intros [= <-]; now apply Hsame].
  destruct (rstrip s) as [|c l].
  { intros [= <-]. apply Hsame.
    - now rewrite on_empty_line_limit.
    - destruct (on_empty_line_summary (colon_record ctx) false st1) as [Hs _].
      exact (summary_trans _ _ _ _ _ H1 Hs). }
  destruct (split_colon 3 (c :: l)) as [|f [|a [|b [|text [|z t]]]]];
    try (intros [= <-]; now apply Hsame).
  destruct (py_int a) as [|lnum]; [intros [= <-]; now apply Hsame|].
  destruct (py_int b) as [|cnum]; [intros [= <-]; now apply Hsame|].
  destruct (out_of_range _ _) eqn:Er; [intros [= <-]; now apply Hsame|].
  destruct (Z.gtb_spec (len text) (max_columns ctx)) as [|Hw];
    [intros [= <-]; now apply Hsame|].
  destruct (dedup _ _) as [seen|] eqn:Ed; [|intros [= <-]; now apply Hsame].
  match goal with
  | |- context [expand _ _ _ _ _ _ _ _ ?s] => set (st2 := s)
  end.
  assert (H2 : summary (colon_record ctx) true st1 st2).
  { apply (summary_one (colon_record ctx) f lnum cnum
             (dict_set (dict_set (dict_set [] "text" (PStr text))
                                 "lnum" (PInt lnum)) "cnum" (PInt cnum)) seen);
      [ exists text, lnum, cnum; cbn; auto | reflexivity | exact Ed
      | reflexivity | reflexivity | reflexivity ]. }
  assert (H12 : summary (colon_record ctx) false st st2).
  { eapply summary_trans; [exact H1|]. exact (summary_weaken _ _ _ _ H2). }
  assert (Hl2 : limit st2 = limit st - 1) by reflexivity.
  unfold ov. destruct (py_eq (submatch_type ctx) (PStr (str "first"))).
  - destruct (expand _ _ _ _ _ _ _ _ _) as [[e|st3]|] eqn:Ex; [| |discriminate].
    + intros [= <-]. split; [exact H12 | cbn [state_of]; lia].
    + intros [= <-]. cbn [state_of]. split.
      * pose proof Ex as Ex'.
        apply expand_appended in Ex' as (bs & its & _ & Ha & Hf).
        eapply summary_trans; [exact H12|].
        eapply appended_strong; [|  |exact Ha].
        -- apply add_item_in_result.
        -- eapply Forall_impl; [|exact Hf]. intros it.
           now apply expanded_item_record.
      * intros Hpos. apply expand_low in Ex; lia.
  - intros [= <-]. split; [exact H12 | cbn [state_of]; lia].
Qed.

Lemma loop_body_strong (ctx : Ctx) (cpat : option Regex) (st : @St P) o :
  loop_body lower finditer json_loads ctx cpat st = Some o ->
  summary (record_shape ctx) false st (state_of o).
Proof.
  unfold loop_body, record_shape.
  destruct (Normalizer.is_rg (source ctx)).
  - intros [= <-]. exact (summary_weaken _ _ _ _ (rg_iter_strong ctx st)).
  - intros E. now apply colon_iter_strong in E.
Qed.

(** A property of the state that every pass entered with a positive
    limit keeps, and that does not look at the process, holds when
    [search] ends. *)
Lemma while_limit_invariant (Inv : @St P -> Prop)
  (body : @St P -> option (step (@St P))) :
  (forall st o, 0 < limit st -> Inv st -> body st = Some o ->
                Inv (state_of o)) ->
  forall fuel st o,
    Inv st -> while_limit body fuel st = Some o -> Inv (state_of o).
Proof.
  intros Hbody. induction fuel as [|fuel IH]; intros st o Hi E; [discriminate|].
  cbn [while_limit] in E. destruct (Z.gtb_spec (limit st) 0) as [Hpos|_].
  - destruct (body st) as [o1|] eqn:Eb; [|discriminate].
    pose proof (Hbody st o1 ltac:(lia) Hi Eb) as Hi1.
    destruct o1 as [st1| | |]; try (injection E as <-; exact Hi1).
    exact (IH st1 o Hi1 E).
  - injection E as <-. exact Hi.
Qed.

Lemma search_invariant (Inv : @St P -> Prop) (fuel : nat) (ctx : Ctx)
  (w : Str) (seen : option (list item_idx)) (p : P) (o : step (@St P)) :
  (forall cpat st o', 0 < limit st -> Inv st ->
     loop_body lower finditer json_loads ctx cpat st = Some o' ->
     Inv (state_of o')) ->
  (forall st q, Inv st -> Inv (set_the_proc st q)) ->
  Inv (initial ctx seen p) ->
  search lower re_compile finditer json_loads fuel ctx w seen p = Some o ->
  Inv (state_of o).
Proof.
  intros Hbody Hproc H0. unfold search. fold (initial ctx seen p).
  assert (Hloop : forall cpat o1,
    while_limit (loop_body lower finditer json_loads ctx cpat) fuel
                (initial ctx seen p) = Some o1 ->
    match o1 with
    | Break st | Continue st =>
        Some (Return (Items w (values (result st)))
                     (set_the_proc st (proc_terminate (the_proc st))))
    | other => Some other
    end = Some o ->
    Inv (state_of o)).
  { intros cpat o1 E Ho.
    apply (while_limit_invariant Inv) in E; [|apply Hbody|exact H0].
    destruct o1 as [st1|st1|r st1|e st1]; injection Ho as <-;
      cbn [state_of] in *; auto. }
  unfold loop_body in Hloop.
  destruct (Normalizer.is_rg (source ctx)) eqn:Erg.
  - destruct (while_limit _ fuel _) as [o1|] eqn:E; [|discriminate].
    first [apply (Hloop None o1 E) | apply (Hloop None o1 eq_refl)].
  - destruct (compile_cpat re_compile ctx) as [e|cpat].
    + intros [= <-]. exact H0.
    + destruct (while_limit _ fuel _) as [o1|] eqn:E; [|discriminate].
      first [apply (Hloop cpat o1 E) | apply (Hloop cpat o1 eq_refl)].
Qed.

End RecordFacts.

Lemma lstrip_In (x : Z) (s : Str) : In x (lstrip s) -> In x s.
Proof.
  induction s as [|c s IH]; simpl; [tauto|].
  destruct (is_space c); [intros H; right; auto | auto].
Qed.

Lemma lstrip_length (s : Str) : (length (lstrip s) <= length s)%nat.
Proof.
  induction s as [|c s IH]; simpl; [lia|].
  destruct (is_space c); simpl; lia.
Qed.

Lemma lstrip_idem (s : Str) : lstrip (lstrip s) = lstrip s.
Proof.
  induction s as [|c s IH]; simpl; [reflexivity|].
  destruct (is_space c) eqn:E; [exact IH|]. simpl. now rewrite E.
Qed.

Lemma rstrip_In (x : Z) (s : Str) : In x (rstrip s) -> In x s.
Proof.
  unfold rstrip. intros H. apply in_rev in H. apply lstrip_In in H.
  now apply in_rev.
Qed.

Lemma rstrip_length (s : Str) : len (rstrip s) <= len s.
Proof.
  unfold rstrip, len. rewrite length_rev.
  pose proof (lstrip_length (rev s)) as H. rewrite length_rev in H. lia.
Qed.

Lemma rstrip_idem (s : Str) : rstrip (rstrip s) = rstrip s.
Proof. unfold rstrip. now rewrite rev_involutive, lstrip_idem. Qed.

Lemma first_line_no_lf (s : Str) : ~ In 10 (first_line s).
Proof.
  induction s as [|c s IH]; simpl; [tauto|].
  destruct (Z.eqb_spec c 10); simpl; [tauto|]. intros [E|H]; auto.
Qed.

Lemma first_line_length (s : Str) : len (first_line s) <= len s.
Proof.
  unfold len. induction s as [|c s IH]; simpl; [lia|].
  destruct (c =? 10); simpl; lia.
Qed.

Section RecordTheorems.

Variable lower : Str -> Str.
Context {Regex : Type}.
Variable re_compile : Str -> bool -> Str + Regex.
Variable finditer : Regex -> Str -> Z -> list Z.
Variable json_loads : Str -> option json.
Context {P : Type} {process_P : Process P}.

(** The records of a returned result, by shape. *)
Lemma search_records_shape (fuel : nat) (ctx : Ctx) (w : Str)
  (seen : option (list item_idx)) (p : P) (w' : Str)
  (groups : list file_ctx) (st : @St P) :
  search lower re_compile finditer json_loads fuel ctx w seen p
  = Some (Return (Items w' groups) st) ->
  Forall (fun r => record_shape ctx (snd r)) (records groups).
Proof.
  intros Hrun.
  pose proof (search_invariant lower re_compile finditer json_loads
                (summary (record_shape ctx) false (initial ctx seen p))
                fuel ctx w seen p (Return (Items w' groups) st)) as Hinv.
  specialize (Hinv
    (fun cpat st0 o' _ Hs E =>
       summary_trans _ _ _ _ _ Hs
         (loop_body_strong lower finditer json_loads ctx cpat st0 o' E))
    (fun st0 q Hs =>
       summary_trans _ _ _ _ _ Hs
         (summary_same _ _ st0 (set_the_proc st0 q) eq_refl eq_refl eq_refl))
    (summary_refl _ _ _) Hrun).
  cbn [state_of] in Hinv. destruct Hinv as (recs & R & _ & Hshape & _).
  apply search_outcome in Hrun as (st_end & _ & Ho).
  destruct Ho as [Ho|[(e & Ho & _)|(e & Ho)]]; try discriminate.
  injection Ho as _ -> ->. cbn [initial result set_the_proc] in R.
  rewrite R.
  assert (Hp : Permutation (records (values (add_all recs []))) recs).
  { rewrite records_add_all by constructor. now rewrite app_nil_r. }
  eapply Permutation_Forall; [symmetry; exact Hp | exact Hshape].
Qed.

(** X13 (filters). Every record of a returned result has its line
    number inside the range of the context (a bound of -1 is no bound)
    and a text of at most [max_columns] characters, in both loops and
    for the records of the submatch expansion too. *)
Theorem records_in_range_and_width (fuel : nat) (ctx : Ctx) (w : Str)
  (seen : option (list item_idx)) (p : P) (w' : Str)
  (groups : list file_ctx) (st : @St P)
  (Hrun : search lower re_compile finditer json_loads fuel ctx w seen p
          = Some (Return (Items w' groups) st)) :
  Forall (fun r =>
            exists l t,
              dict_get (snd r) "lnum" = Some (PInt l)
              /\ dict_get (snd r) "text" = Some (PStr t)
              /\ out_of_range (range_ ctx) l = false
              /\ len t <= max_columns ctx)
         (records groups).
Proof.
  eapply Forall_impl; [|exact (search_records_shape _ _ _ _ _ _ _ _ Hrun)].
  intros r. unfold record_shape. destruct (Normalizer.is_rg (source ctx)).
  - intros (l & c & t0 & m & -> & Hr & Hw).
    exists l, (rstrip (first_line t0)). repeat split; auto.
    pose proof (rstrip_length (first_line t0)).
    pose proof (first_line_length t0). lia.
  - intros (t & l & c & -> & Hr & Hw). exists l, t. repeat split; auto.
Qed.

(** X14 (text of a structured record). In structured-record mode the
    text of every returned record is one line and does not end in white
    space: it holds no line feed and [rstrip] leaves it as it is. *)
Theorem rg_text_one_line_stripped (fuel : nat) (ctx : Ctx) (w : Str)
  (seen : option (list item_idx)) (p : P) (w' : Str)
  (groups : list file_ctx) (st : @St P)
  (Hrg : Normalizer.is_rg (source ctx) = true)
  (Hrun : search lower re_compile finditer json_loads fuel ctx w seen p
          = Some (Return (Items w' groups) st)) :
  Forall (fun r =>
            exists t, dict_get (snd r) "text" = Some (PStr t)
                      /\ one_line_stripped t)
         (records groups).
Proof.
  eapply Forall_impl; [|exact (search_records_shape _ _ _ _ _ _ _ _ Hrun)].
  intros r. unfold record_shape. rewrite Hrg.
  intros (l & c & t0 & m & -> & _).
  exists (rstrip (first_line t0)). split; [reflexivity|]. split.
  - intros Hin. apply rstrip_In in Hin. now apply first_line_no_lf in Hin.
  - apply rstrip_idem.
Qed.

(** X15 (overshoot of the limit). In colon-delimited mode, with a limit
    that is not negative, a returned result holds at most [limit]
    records without submatch expansion and at most [limit + 1] with
    it. *)
Theorem colon_limit_overshoot_bound (fuel : nat) (ctx : Ctx) (w : Str)
  (seen : option (list item_idx)) (p : P) (w' : Str)
  (groups : list file_ctx) (st : @St P)
  (Hcolon : Normalizer.is_rg (source ctx) = false)
  (Hlimit : 0 <= ctx_limit ctx)
  (Hrun : search lower re_compile finditer json_loads fuel ctx w seen p
          = Some (Return (Items w' groups) st)) :
  len (records groups) <= ctx_limit ctx + overshoot ctx.
Proof.
  rewrite (search_records_count _ _ _ _ _ _ _ _ _ _ _ _ Hrun).
  pose proof (search_invariant lower re_compile finditer json_loads
                (fun s => - overshoot ctx <= limit s)
                fuel ctx w seen p (Return (Items w' groups) st)) as Hinv.
  assert (Hov : 0 <= overshoot ctx)
    by (unfold overshoot; destruct (py_eq _ _); lia).
  specialize (Hinv
    (fun cpat st0 o' Hpos _ E =>
       proj2 (colon_iter_strong lower finditer ctx cpat st0 o'
                ltac:(unfold loop_body in E; rewrite Hcolon in E; exact E))
             Hpos)
    (fun st0 q H => H)
    ltac:(cbn; lia) Hrun).
  cbn [state_of] in Hinv. lia.
Qed.

End RecordTheorems.

Import Example2.

Lemma records_in_range_and_width_witness :
  let groups := groups_of (run 10 (narrow_ctx PNone) None
                             (exited narrow_output [] 0)) in
  map (fun r => dict_get (snd r) "lnum") (records groups)
  = [Some (PInt 2); Some (PInt 3)]
  /\ Forall (fun r =>
            exists l t,
              dict_get (snd r) "lnum" = Some (PInt l)
              /\ dict_get (snd r) "text" = Some (PStr t)
              /\ out_of_range (range_ (narrow_ctx PNone)) l = false
              /\ len t <= max_columns (narrow_ctx PNone))
         (records groups).
Proof.
  cbv zeta. split; [vm_compute; reflexivity|].
  eapply (records_in_range_and_width lower re_compile finditer json_loads
            10 (narrow_ctx PNone) [] None (exited narrow_output [] 0)).
  vm_compute. reflexivity.
Defined.

Lemma rg_text_one_line_stripped_witness :
  Forall (fun r =>
            exists t, dict_get (snd r) "text" = Some (PStr t)
                      /\ one_line_stripped t)
         (records (groups_of (run 10 (rg_ctx 5) None
                                  (exited (line "{}") [] 0)))).
Proof.
  eapply (rg_text_one_line_stripped lower re_compile finditer json_loads
            10 (rg_ctx 5) [] None (exited (line "{}") [] 0)).
  - reflexivity.
  - vm_compute. reflexivity.
Defined.

Lemma colon_limit_overshoot_bound_witness :
  len (records (groups_of
         (run 10 (ag_ctx 1 (PStr (str "first")) (PStr (str "1"))) None
              (exited (line "a.py:1:1:foo foo foo") [] 0))))
  <= 1 + 1.
Proof.
  eapply (colon_limit_overshoot_bound lower re_compile finditer json_loads
            10 (ag_ctx 1 (PStr (str "first")) (PStr (str "1"))) [] None
            (exited (line "a.py:1:1:foo foo foo") [] 0)).
  - reflexivity.
  - vm_compute. discriminate.
  - vm_compute. reflexivity.
Defined.

(** *** Lines of the colon-delimited loop that are not records *)

Lemma split_colon_length (n : nat) :
  forall s, length (split_colon n s) = S (Nat.min n (colons s)).
Proof.
  unfold colons. induction n as [|n IH]; intros s; [reflexivity|].
  cbn [split_colon]. generalize (@nil Z) as acc.
  induction s as [|c s IHs]; intros acc; [reflexivity|].
  cbn [count_occ]. destruct (Z.eqb_spec c 58) as [->|Hc].
  - destruct (Z.eq_dec 58 58) as [_|N]; [|congruence].
    cbn [length]. rewrite IH. reflexivity.
  - destruct (Z.eq_dec c 58) as [E|_]; [contradiction|]. apply IHs.
Qed.

Section SkippedLines.

Variable lower : Str -> Str.
Context {Regex : Type}.
Variable re_compile : Str -> bool -> Str + Regex.
Variable finditer : Regex -> Str -> Z -> list Z.
Variable json_loads : Str -> option json.
Context {P : Type} {process_P : Process P}.

(** X16 (broken lines). In the colon-delimited loop a line that is not
    UTF-8, or that holds fewer than three colons once decoded and
    right-stripped, is passed over: the pass leaves the result, the
    limit and the seen keys as they were and goes on to the next
    line. *)
Theorem colon_broken_line_skipped (ctx : Ctx) (cpat : option Regex)
  (st : @St P) (b : Bytes) (p' : P)
  (Hread : stdout_readline (the_proc st) = (b, p'))
  (Hbroken : utf8_decode b = None
             \/ exists l, utf8_decode b = Some l
                          /\ rstrip l <> []
                          /\ (colons (rstrip l) < 3)%nat) :
  colon_iter lower finditer ctx cpat st = Some (Continue (set_the_proc st p')).
Proof.
  unfold colon_iter. rewrite Hread.
  destruct Hbroken as [-> | (l & -> & Hne & Hc)]; [reflexivity|].
  destruct (rstrip l) as [|c r] eqn:El; [congruence|].
  pose proof (split_colon_length 3 (c :: r)) as Hlen.
  destruct (split_colon 3 (c :: r)) as [|f [|a [|x [|y [|z t]]]]];
    try reflexivity.
  change (length [f; a; x; y]) with 4%nat in Hlen. lia.
Qed.

(** X17 (no limit, no read). With a limit that is not positive [search]
    reads nothing from the process: it returns an empty result and
    terminates the process, unless the colon-delimited mode finds the
    pattern invalid first, then it returns that error and leaves the
    process as it is. *)
Theorem nonpositive_limit_reads_nothing (fuel : nat) (ctx : Ctx) (w : Str)
  (seen : option (list item_idx)) (p : P)
  (Hlimit : ctx_limit ctx <= 0) :
  search lower re_compile finditer json_loads (S fuel) ctx w seen p
  = Some (Return (Items w [])
                 (set_the_proc (initial ctx seen p) (proc_terminate p)))
  \/ (Normalizer.is_rg (source ctx) = false
      /\ exists e,
           re_compile (pattern ctx)
                      (py_eq (case_sensitive ctx) (PStr (str "0"))) = inl e
           /\ search lower re_compile finditer json_loads (S fuel) ctx w seen p
              = Some (Return (Error (str "invalid pattern: " ++ e))
                             (initial ctx seen p))).
Proof.
  unfold search. fold (initial ctx seen p).
  assert (Hl : (limit (initial ctx seen p) >? 0) = false)
    by (cbn [initial limit]; lia).
  destruct (Normalizer.is_rg (source ctx)).
  - left. cbn [while_limit]. rewrite Hl. reflexivity.
  - unfold compile_cpat.
    destruct (py_eq (submatch_type ctx) (PStr (str "first")));
      [destruct (negb (py_eq (regex ctx) (PStr (str "0"))));
       [destruct (re_compile _ _) as [e|r] eqn:Ec|]|];
      try (left; cbn [while_limit]; rewrite Hl; reflexivity).
    right. split; [reflexivity|]. exists e. split; reflexivity.
Qed.

(** *** The occurrences the literal expansion files *)

Lemma find_at_spec (pat t : Str) :
  forall i,
    0 <= i ->
    (find_at pat t i = -1
     /\ forall n, (n <= length t)%nat -> is_prefix pat (skipn n t) = false)
    \/ exists n, (n <= length t)%nat
         /\ find_at pat t i = i + Z.of_nat n
         /\ is_prefix pat (skipn n t) = true
         /\ forall n', (n' < n)%nat -> is_prefix pat (skipn n' t) = false.
Proof.
  induction t as [|c t IH]; intros i Hi; cbn [find_at].
  - destruct (is_prefix pat []) eqn:E.
    + right. exists O. cbn [skipn length]. repeat split; auto; lia.
    + left. split; [reflexivity|]. intros n Hn. cbn in Hn.
      assert (n = O) by lia. subst. exact E.
  - destruct (is_prefix pat (c :: t)) eqn:E.
    + right. exists O. cbn [skipn length]. repeat split; auto; lia.
    + destruct (IH (i + 1)) as [[E1 Hn]|(n & Hn & E1 & Hp & Hmin)]; [lia| |].
      * left. split; [exact E1|]. intros [|n] Hle; [exact E|].
        cbn [skipn]. apply Hn. cbn in Hle. lia.
      * right. exists (S n). cbn [length skipn].
        split; [lia|]. split; [lia|]. split; [exact Hp|].
        intros [|n'] Hlt; [exact E|]. cbn [skipn]. apply Hmin. lia.
Qed.

Lemma str_find_spec (text pat : Str) (start : Z) :
  0 <= start ->
  (str_find text pat start = -1
   /\ forall k, start <= k -> ~ occurs_at pat text k)
  \/ (start <= str_find text pat start
      /\ occurs_at pat text (str_find text pat start)
      /\ forall k, start <= k < str_find text pat start ->
                   ~ occurs_at pat text k).
Proof.
  intros Hs. unfold str_find, occurs_at, len.
  destruct (Z.ltb_spec (Z.of_nat (length text)) start) as [Hlt|Hle].
  { left. split; [reflexivity|]. intros k Hk [Hr _]. lia. }
  assert (Hsk : forall n, skipn n (skipn (Z.to_nat start) text)
                          = skipn (Z.to_nat (start + Z.of_nat n)) text).
  { intros n. rewrite skipn_skipn. f_equal. lia. }
  destruct (find_at_spec pat (skipn (Z.to_nat start) text) start)
    as [[E Hn]|(n & Hn & E & Hp & Hmin)]; [exact Hs| |].
  - left. split; [exact E|]. intros k Hk [Hr Hp].
    specialize (Hn (Z.to_nat (k - start))). rewrite length_skipn in Hn.
    rewrite Hsk in Hn. replace (start + Z.of_nat (Z.to_nat (k - start)))
      with k in Hn by lia.
    rewrite Hn in Hp by lia. discriminate.
  - right. rewrite length_skipn in Hn. rewrite E. split; [lia|]. split.
    + split; [lia|]. now rewrite <- Hsk.
    + intros k Hk [Hr Hp'].
      specialize (Hmin (Z.to_nat (k - start))). rewrite Hsk in Hmin.
      replace (start + Z.of_nat (Z.to_nat (k - start))) with k in Hmin by lia.
      rewrite Hmin in Hp' by lia. discriminate.
Qed.

Lemma next_occurrence_spec (ctx : Ctx) (text : Str) (m : Z) :
  0 <= m ->
  let j := next_occurrence lower ctx text m in
  let occ := occurs_at (needle lower ctx) (haystack lower ctx text) in
  (j = -1 /\ forall k, m <= k -> ~ occ k)
  \/ (m <= j /\ occ j /\ forall k, m <= k < j -> ~ occ k).
Proof.
  intros Hm. unfold next_occurrence, needle, haystack.
  destruct (py_eq (case_sensitive ctx) (PStr (str "0")));
    now apply str_find_spec.
Qed.

(** X18 (occurrences). The literal submatch expansion files one record
    for each occurrence of the pattern in the text from the index it
    starts at (of the lower-cased pattern in the lower-cased text when
    the search ignores case), from left to right, overlapping ones too,
    and none for anything else.  It leaves an occurrence out only when
    it stopped on the limit, and then all that it filed are to the left
    of it. *)
Theorem literal_expansion_occurrences (ctx : Ctx) (f text : Str) (lnum : Z) :
  forall (fuel : nat) (m : Z) (st st' : @St P)
    (Hm : 0 <= m)
    (Hrun : literal_loop lower fuel ctx f text lnum m st = Some (inr st')),
  exists ks its,
    appended f its st st'
    /\ Forall2 (literal_record text lnum) ks its
    /\ chain Z.lt ks
    /\ Forall (fun k => m <= k
                 /\ occurs_at (needle lower ctx) (haystack lower ctx text) k) ks
    /\ forall k, m <= k ->
         occurs_at (needle lower ctx) (haystack lower ctx text) k ->
         In k ks
         \/ (limit st' <= 0 /\ ks <> [] /\ Forall (fun j => j < k) ks).
Proof.
  induction fuel as [|fuel IH]; intros m st st' Hm E; [discriminate|].
  cbn [literal_loop] in E.
  destruct (next_occurrence_spec ctx text m Hm) as [[Ej Hnone]|(Hj & Hocc & Hmin)].
  - rewrite Ej in E. cbn in E. injection E as <-.
    exists [], []. split; [apply appended_nil|].
    split; [constructor|]. split; [exact I|]. split; [constructor|].
    intros k Hk Ho. exfalso. exact (Hnone k Hk Ho).
  - set (j := next_occurrence lower ctx text m) in *.
    destruct (Z.eqb_spec j (-1)) as [Ej|_]; [lia|].
    destruct (utf8_encode (slice_to text j)) as [b|] eqn:Eb; [|discriminate].
    cbn [limit] in E.
    match type of E with
    | (if _ then Some (inr ?s) else _) = _ =>
        assert (H1 : appended f [dict_set (dict_set (dict_set [] "text" (PStr text))
                                             "lnum" (PInt lnum))
                                   "cnum" (PInt (len b + 1))] st s)
          by (unfold appended, len; simpl; repeat split; lia)
    end.
    assert (Hrec : literal_record text lnum j
                     (dict_set (dict_set (dict_set [] "text" (PStr text))
                                         "lnum" (PInt lnum))
                               "cnum" (PInt (len b + 1))))
      by (exists b; split; [exact Eb | reflexivity]).
    destruct (Z.leb_spec (limit st - 1) 0) as [Hlim|Hlim].
    + injection E as <-. exists [j]. eexists. split; [exact H1|].
      split; [constructor; [exact Hrec | constructor]|].
      split; [exact I|]. split; [constructor; [split; auto | constructor]|].
      intros k Hk Ho. destruct (Z.eq_dec k j) as [->|Hne]; [left; now left|].
      right. cbn [limit]. split; [lia|]. split; [discriminate|].
      constructor; [|constructor].
      destruct (Z.lt_ge_cases k j) as [Hlt|Hge]; [|lia].
      exfalso. apply (Hmin k); [lia | exact Ho].
    + apply IH in E as (ks & its & Ha & Hrecs & Hch & Hall & Hcomp); [|lia].
      exists (j :: ks). eexists.
      split; [eapply appended_cons; [exact H1 | exact Ha]|].
      split; [constructor; [exact Hrec | exact Hrecs]|].
      split.
      { destruct ks as [|k ks]; [exact I|]. split; [|exact Hch].
        inversion Hall as [|? ? [Hk _] _]; subst. lia. }
      split.
      { constructor; [split; auto|].
        eapply Forall_impl; [|exact Hall]. cbv beta. intros k [Hk Ho].
        split; [lia | exact Ho]. }
      intros k Hk Ho. destruct (Z.eq_dec k j) as [->|Hne]; [left; now left|].
      assert (Hgt : j + 1 <= k).
      { destruct (Z.lt_ge_cases k j) as [Hlt|Hge]; [|lia].
        exfalso. apply (Hmin k); [lia | exact Ho]. }
      destruct (Hcomp k Hgt Ho) as [Hin|(Hl & Hne' & Hlt)].
      * left. now right.
      * right. split; [exact Hl|]. split; [discriminate|].
        constructor; [lia | exact Hlt].
Qed.

End SkippedLines.

Lemma colon_broken_line_skipped_witness :
  let ctx := ag_ctx 5 PNone (PStr (str "1")) in
  let st := initial ctx None
              (exited (line "Binary file a.bin matches" ++ line "a.py:1:1:foo")
                      [] 0) in
  colon_iter lower finditer ctx None st
  = Some (Continue (set_the_proc st (snd (stdout_readline (the_proc st))))).
Proof.
  cbv zeta.
  eapply (colon_broken_line_skipped lower finditer
            (ag_ctx 5 PNone (PStr (str "1"))) None _
            (fst (stdout_readline _))).
  - apply surjective_pairing.
  - right. exists (str "Binary file a.bin matches" ++ [10]).
    split; [vm_compute; reflexivity|].
    split; [vm_compute; discriminate | vm_compute; lia].
Defined.

Lemma nonpositive_limit_reads_nothing_witness :
  let ctx := ag_ctx 0 (PStr (str "first")) (PStr (str "1")) in
  let p := exited (line "a.py:1:1:foo") [] 0 in
  run 1 ctx None p
  = Some (Return (Items [] []) (set_the_proc (initial ctx None p)
                                             (proc_terminate p)))
  \/ (Normalizer.is_rg (source ctx) = false
      /\ exists e,
           re_compile (pattern ctx)
                      (py_eq (case_sensitive ctx) (PStr (str "0"))) = inl e
           /\ run 1 ctx None p
              = Some (Return (Error (str "invalid pattern: " ++ e))
                             (initial ctx None p))).
Proof.
  cbv zeta.
  apply (nonpositive_limit_reads_nothing lower re_compile finditer json_loads
           O (ag_ctx 0 (PStr (str "first")) (PStr (str "1"))) [] None
           (exited (line "a.py:1:1:foo") [] 0)).
  vm_compute. discriminate.
Defined.

Lemma literal_expansion_occurrences_witness :
  let ctx := ag_ctx 5 (PStr (str "first")) (PStr (str "1")) in
  let st := initial ctx None (exited [] [] 0) in
  exists st' ks its,
    literal_loop lower 20 ctx (str "a.py") (str "foo foofoo") 1 1 st
    = Some (inr st')
    /\ appended (str "a.py") its st st'
    /\ Forall2 (literal_record (str "foo foofoo") 1) ks its
    /\ chain Z.lt ks
    /\ Forall (fun k => 1 <= k
                 /\ occurs_at (needle lower ctx)
                              (haystack lower ctx (str "foo foofoo")) k) ks
    /\ forall k, 1 <= k ->
         occurs_at (needle lower ctx)
                   (haystack lower ctx (str "foo foofoo")) k ->
         In k ks
         \/ (limit st' <= 0 /\ ks <> [] /\ Forall (fun j => j < k) ks).
Proof.
  cbv zeta.
  destruct (literal_loop lower 20
              (ag_ctx 5 (PStr (str "first")) (PStr (str "1")))
              (str "a.py") (str "foo foofoo") 1 1
              (initial (ag_ctx 5 (PStr (str "first")) (PStr (str "1"))) None
                       (exited [] [] 0))) as [[e|st']|] eqn:E;
    [vm_compute in E; discriminate E| |vm_compute in E; discriminate E].
  destruct (literal_expansion_occurrences lower
              (ag_ctx 5 (PStr (str "first")) (PStr (str "1")))
              (str "a.py") (str "foo foofoo") 1 20 1 _ st'
              ltac:(lia) E) as (ks & its & H).
  exists st', ks, its. split; [reflexivity | exact H].
Defined.

(** *** The two column conversions of the expansion *)

Ltac from_some E :=
  apply (f_equal (fun o => match o with Some x => x | None => [] end)) in E;
  cbv beta iota in E; subst.

Lemma decode_encode_cp (c : Z) (b r : Bytes) :
  encode_cp c = Some b ->
  utf8_decode (b ++ r) = option_map (cons c) (utf8_decode r).
Proof.
  unfold encode_cp.
  destruct (Z.ltb_spec c 0); [discriminate|].
  destruct (Z.ltb_spec c 128).
  { intros E. from_some E. cbn [app utf8_decode].
    destruct (Z.leb_spec 0 c); [|lia]. destruct (Z.ltb_spec c 128); [|lia].
    reflexivity. }
  destruct (Z.ltb_spec c 2048).
  { intros E. from_some E.
    assert (Bd2 : 2 <= c / 64 < 32) by (Z.div_mod_to_equations; lia).
    assert (Bd3 : 0 <= c mod 64 < 64) by (Z.div_mod_to_equations; lia).
    assert (Bd4 : c / 64 * 64 + c mod 64 = c) by (Z.div_mod_to_equations; lia).
    set (q := c / 64) in *. set (m := c mod 64) in *.
    cbn [app utf8_decode]. unfold is_continuation.
    destruct (Z.ltb_spec (192 + q) 128); [lia|]. rewrite andb_false_r.
    destruct (Z.leb_spec 194 (192 + q)); [|lia].
    destruct (Z.ltb_spec (192 + q) 224); [|lia]. cbn [andb].
    destruct (Z.leb_spec 128 (128 + m)); [|lia].
    destruct (Z.ltb_spec (128 + m) 192); [|lia]. cbn [andb].
    replace ((192 + q - 192) * 64 + (128 + m - 128)) with c by lia.
    reflexivity. }
  destruct (Z.ltb_spec c 65536).
  { destruct (Z.leb_spec 55296 c); cbn [andb];
      [destruct (Z.ltb_spec c 57344); [discriminate|]|];
      intros E; from_some E;
      assert (Bd2 : 0 <= c / 4096 < 16) by (Z.div_mod_to_equations; lia);
      assert (Bd3 : 0 <= (c / 64) mod 64 < 64) by (Z.div_mod_to_equations; lia);
      assert (Bd4 : 0 <= c mod 64 < 64) by (Z.div_mod_to_equations; lia);
      assert (Bd5 : c / 4096 * 4096 + (c / 64) mod 64 * 64 + c mod 64 = c)
        by (Z.div_mod_to_equations; lia);
      set (q := c / 4096) in *; set (m1 := (c / 64) mod 64) in *;
      set (m := c mod 64) in *;
      cbn [app utf8_decode]; unfold is_continuation;
      (destruct (Z.ltb_spec (224 + q) 128); [lia|]); rewrite andb_false_r;
      (destruct (Z.ltb_spec (224 + q) 224); [lia|]); rewrite andb_false_r;
      (destruct (Z.leb_spec 224 (224 + q)); [|lia]);
      (destruct (Z.ltb_spec (224 + q) 240); [|lia]); cbn [andb];
      (destruct (Z.leb_spec 128 (128 + m1)); [|lia]);
      (destruct (Z.ltb_spec (128 + m1) 192); [|lia]);
      (destruct (Z.leb_spec 128 (128 + m)); [|lia]);
      (destruct (Z.ltb_spec (128 + m) 192); [|lia]); cbn [andb];
      replace ((224 + q - 224) * 4096 + (128 + m1 - 128) * 64 + (128 + m - 128))
        with c by lia;
      (destruct (Z.leb_spec 2048 c); [|lia]); cbn [andb].
    - destruct (Z.leb_spec 55296 c); [|lia].
      destruct (Z.ltb_spec c 57344); [lia|]. reflexivity.
    - destruct (Z.leb_spec 55296 c); [lia|]. reflexivity. }
  destruct (Z.ltb_spec c 1114112); [|discriminate].
  intros E. from_some E.
  assert (Bd2 : 0 <= c / 262144 < 5) by (Z.div_mod_to_equations; lia).
  assert (Bd3 : 0 <= (c / 4096) mod 64 < 64) by (Z.div_mod_to_equations; lia).
  assert (Bd4 : 0 <= (c / 64) mod 64 < 64) by (Z.div_mod_to_equations; lia).
  assert (Bd5 : 0 <= c mod 64 < 64) by (Z.div_mod_to_equations; lia).
  assert (Bd6 : c / 262144 * 262144 + (c / 4096) mod 64 * 4096
               + (c / 64) mod 64 * 64 + c mod 64 = c)
    by (Z.div_mod_to_equations; lia).
  set (q := c / 262144) in *. set (m2 := (c / 4096) mod 64) in *.
  set (m1 := (c / 64) mod 64) in *. set (m := c mod 64) in *.
  cbn [app utf8_decode]. unfold is_continuation.
  destruct (Z.ltb_spec (240 + q) 128); [lia|]. rewrite andb_false_r.
  destruct (Z.ltb_spec (240 + q) 224); [lia|]. rewrite andb_false_r.
  destruct (Z.ltb_spec (240 + q) 240); [lia|]. rewrite andb_false_r.
  destruct (Z.leb_spec 240 (240 + q)); [|lia].
  destruct (Z.ltb_spec (240 + q) 245); [|lia]. cbn [andb].
  destruct (Z.leb_spec 128 (128 + m2)); [|lia].
  destruct (Z.ltb_spec (128 + m2) 192); [|lia].
  destruct (Z.leb_spec 128 (128 + m1)); [|lia].
  destruct (Z.ltb_spec (128 + m1) 192); [|lia].
  destruct (Z.leb_spec 128 (128 + m)); [|lia].
  destruct (Z.ltb_spec (128 + m) 192); [|lia]. cbn [andb].
  replace ((240 + q - 240) * 262144 + (128 + m2 - 128) * 4096
           + (128 + m1 - 128) * 64 + (128 + m - 128)) with c by lia.
  destruct (Z.leb_spec 65536 c); [|lia].
  destruct (Z.ltb_spec c 1114112); [|lia]. reflexivity.
Qed.

Lemma utf8_decode_encode (s : Str) :
  forall b, utf8_encode s = Some b -> utf8_decode b = Some s.
Proof.
  induction s as [|c s IH]; intros b E; cbn [utf8_encode] in E.
  - injection E as <-. reflexivity.
  - destruct (encode_cp c) as [bc|] eqn:Ec; [|discriminate].
    destruct (utf8_encode s) as [br|]; [|discriminate].
    from_some E. rewrite (decode_encode_cp c bc br Ec).
    now rewrite (IH br eq_refl).
Qed.

Section ColumnRoundTrip.

Variable lower : Str -> Str.
Context {Regex : Type}.
Variable finditer : Regex -> Str -> Z -> list Z.
Context {P : Type} {process_P : Process P}.

(** X19 (columns). The expansion turns the byte column of the primary
    record into a character index (lines 462-465) and character indexes
    back into byte columns (lines 479-480 and 490-491); the two are
    inverse to each other.  Given the column the second conversion
    computes for the index [k], the first one finds [k] again, and the
    search for further occurrences starts at [k + 1]. *)
Theorem expand_column_round_trip (ctx : Ctx) (cpat : option Regex)
  (f text : Str) (lnum k : Z) (bs : Bytes) (st : @St P)
  (Hk : 0 <= k <= len text)
  (Hbs : utf8_encode text = Some bs) :
  exists b,
    utf8_encode (slice_to text k) = Some b
    /\ utf8_decode (slice_to bs (len b + 1 - 1)) = Some (slice_to text k)
    /\ expand lower finditer ctx cpat f text lnum (len b + 1) st
       = if py_eq (regex ctx) (PStr (str "0")) then
           literal_loop lower (2 + length text + length (lower text))
                        ctx f text lnum (k + 1) st
         else
           match cpat with
           | Some c =>
               Some (regex_loop f text lnum (finditer c text (k + 1)) st)
           | None => Some (inl UnboundLocalError)
           end.
Proof.
  assert (Hs : slice_to text k = firstn (Z.to_nat k) text).
  { unfold slice_to. destruct (Z.ltb_spec k 0); [lia | reflexivity]. }
  pose proof Hbs as Hsplit.
  rewrite <- (firstn_skipn (Z.to_nat k) text) in Hsplit.
  apply utf8_encode_app in Hsplit as (x & y & Hx & _ & ->).
  exists x. rewrite Hs. split; [exact Hx|].
  assert (Hcut : slice_to (x ++ y) (len x + 1 - 1) = x).
  { unfold slice_to, len.
    destruct (Z.ltb_spec (Z.of_nat (length x) + 1 - 1) 0); [lia|].
    replace (Z.to_nat (Z.of_nat (length x) + 1 - 1)) with (length x) by lia.
    now rewrite firstn_app, firstn_all, Nat.sub_diag, firstn_O, app_nil_r. }
  assert (Hdec : utf8_decode x = Some (firstn (Z.to_nat k) text))
    by now apply utf8_decode_encode.
  split; [now rewrite Hcut|].
  unfold expand. rewrite Hbs, Hcut, Hdec.
  assert (Hlen : len (firstn (Z.to_nat k) text) + 1 = k + 1).
  { unfold len in *. rewrite length_firstn. lia. }
  rewrite Hlen. reflexivity.
Qed.

End ColumnRoundTrip.

Lemma expand_column_round_trip_witness :
  let ctx := ag_ctx 5 (PStr (str "first")) (PStr (str "1")) in
  exists b,
    utf8_encode (slice_to accented 6) = Some b
    /\ utf8_decode (slice_to [195; 169; 32; 102; 111; 111; 32; 195; 169; 32;
                              102; 111; 111] (len b + 1 - 1))
       = Some (slice_to accented 6)
    /\ expand lower finditer ctx None (str "a.py") accented 1 (len b + 1)
              after_primary
       = if py_eq (regex ctx) (PStr (str "0")) then
           literal_loop lower (2 + length accented + length (lower accented))
                        ctx (str "a.py") accented 1 (6 + 1) after_primary
         else
           match @None unit with
           | Some c =>
               Some (regex_loop (str "a.py") accented 1
                                (finditer c accented (6 + 1)) after_primary)
           | None => Some (inl UnboundLocalError)
           end.
Proof.
  cbv zeta.
  apply (expand_column_round_trip lower finditer
           (ag_ctx 5 (PStr (str "first")) (PStr (str "1"))) None
           (str "a.py") accented 1 6).
  - vm_compute. split; discriminate.
  - vm_compute. reflexivity.
Defined.
